(** * Device-control layer of POCS: FocusLynx focuser and abstract mount

    A shallow embedding of [pocs/focuser/focuslynx.py] and
    [panoptes/mount/mount.py].  Python objects are records whose attributes
    are optional (an attribute that has not been assigned yet is [None] and
    reading it raises [AttributeError]); methods are computations in a state
    and exception monad over the object, the serial port it owns and the
    trace of warnings and log records.  The choice of the name server's
    address ([scripts/pyro_name_server.py]), the observations of the
    scheduler ([panoptes/scheduler/observation.py]) and the array of
    imagers ([pocs/utils/hdr.py], [pocs/utils/HDR_module.py]) follow as
    pure functions on their data. *)

From Stdlib Require Import ZArith List String Ascii Bool Lia.
From Stdlib Require Import DecimalString.
From Stdlib Require DecimalPos.
Import ListNotations.

Open Scope string_scope.
Open Scope Z_scope.
Open Scope list_scope.

(* ================================================================== *)
(** ** Python values and built-ins used by the two modules *)
(* ================================================================== *)

Module Py.

(** The exceptions that the modelled code can raise. *)
Inductive exn : Type :=
| RuntimeError (arg : string)
| ValueError (msg : string)
| AssertionError
| KeyError (key : string)
| TypeError (msg : string)
| NameError (name : string)
| AttributeError (attr : string)
| NotImplementedError
| UnicodeDecodeError
| UnicodeEncodeError
| SerialException (msg : string)
| SerialTimeoutException (msg : string).

(** [except RuntimeError]: [NotImplementedError] is a subclass. *)
Definition is_RuntimeError (e : exn) : bool :=
  match e with
  | RuntimeError _ | NotImplementedError => true
  | _ => false
  end.

(** [except (serial.SerialException, serial.SerialTimeoutException)]. *)
Definition is_SerialException (e : exn) : bool :=
  match e with
  | SerialException _ | SerialTimeoutException _ => true
  | _ => false
  end.

(** [str(err)] for the exceptions whose text ends up in a message. *)
Definition str_exn (e : exn) : string :=
  match e with
  | RuntimeError a => a
  | ValueError m | TypeError m | SerialException m
  | SerialTimeoutException m => m
  | KeyError k => "'" ++ k ++ "'"
  | NameError n => "name '" ++ n ++ "' is not defined"
  | AttributeError a => a
  | AssertionError | NotImplementedError => ""
  | UnicodeDecodeError => "'ascii' codec can't decode"
  | UnicodeEncodeError => "'ascii' codec can't encode"
  end.

(** Outcome of a call: a value, an exception, or a loop that is still
    running when the fuel given to it is spent. *)
Inductive Res (A : Type) : Type :=
| Ok (a : A)
| Raise (e : exn)
| Hang.
Arguments Ok {A} a.
Arguments Raise {A} e.
Arguments Hang {A}.

(** *** Strings *)

(** [str.isspace] on the code points below 128. *)
Definition is_space (c : ascii) : bool :=
  let n := nat_of_ascii c in
  (((9 <=? n) && (n <=? 13)) || ((28 <=? n) && (n <=? 32)))%nat.

Fixpoint lstrip (s : string) : string :=
  match s with
  | EmptyString => EmptyString
  | String c r => if is_space c then lstrip r else s
  end.

Fixpoint rstrip (s : string) : string :=
  match s with
  | EmptyString => EmptyString
  | String c r =>
      match rstrip r with
      | EmptyString => if is_space c then EmptyString else String c EmptyString
      | r' => String c r'
      end
  end.

(** [s.strip()] *)
Definition strip (s : string) : string := rstrip (lstrip s).

(** [s.split(sep)] for a one-character separator: every occurrence of
    the separator cuts, and the result is never empty. *)
Fixpoint split (sep : ascii) (s : string) : list string :=
  match s with
  | EmptyString => [EmptyString]
  | String c r =>
      if Ascii.eqb c sep then EmptyString :: split sep r
      else match split sep r with
           | h :: t => String c h :: t
           | [] => [String c EmptyString]
           end
  end.

Fixpoint contains (c : ascii) (s : string) : bool :=
  match s with
  | EmptyString => false
  | String a r => Ascii.eqb a c || contains c r
  end.

Fixpoint count (c : ascii) (s : string) : nat :=
  match s with
  | EmptyString => O
  | String a r => ((if Ascii.eqb a c then 1 else 0) + count c r)%nat
  end.

Fixpoint is_ascii (s : string) : bool :=
  match s with
  | EmptyString => true
  | String c r => (nat_of_ascii c <? 128)%nat && is_ascii r
  end.

(** [str(b, encoding='ascii')] *)
Definition decode_ascii (b : string) : Res string :=
  if is_ascii b then Ok b else Raise UnicodeDecodeError.

(** [s.encode('ascii')] *)
Definition encode_ascii (s : string) : Res string :=
  if is_ascii s then Ok s else Raise UnicodeEncodeError.

(** *** Integers *)

(** [str(n)] and ['{}'.format(n)] for an [int]. *)
Definition str_int (n : Z) : string := NilZero.string_of_int (Z.to_int n).

Fixpoint zeros (k : nat) : string :=
  match k with
  | O => EmptyString
  | S k' => String "0" (zeros k')
  end.

(** ['{:0<w>d}'.format(n)]: the sign, then zeros, then the digits, at
    least [w] characters in all. *)
Definition format_0d (w : nat) (n : Z) : string :=
  let digits := str_int (Z.abs n) in
  if n <? 0
  then "-" ++ zeros (w - 1 - String.length digits) ++ digits
  else zeros (w - String.length digits) ++ digits.

(** ['{:1d}'.format(n)]: width one never pads. *)
Definition format_1d (n : Z) : string := str_int n.

Definition is_digit (c : ascii) : bool :=
  let n := nat_of_ascii c in ((48 <=? n) && (n <=? 57))%nat.

Definition digit_val (c : ascii) : Z := Z.of_nat (nat_of_ascii c) - 48.

(** Digits of an [int] literal; single underscores may separate digits. *)
Fixpoint digits_acc (s : string) (acc : Z) (after_us : bool) : option Z :=
  match s with
  | EmptyString => if after_us then None else Some acc
  | String c r =>
      if is_digit c then digits_acc r (10 * acc + digit_val c) false
      else if Ascii.eqb c "_" && negb after_us then digits_acc r acc true
      else None
  end.

Definition parse_digits (s : string) : option Z :=
  match s with
  | String c _ => if is_digit c then digits_acc s 0 false else None
  | EmptyString => None
  end.

(** [int(s)] for a string argument. *)
Definition int (s : string) : Res Z :=
  let r :=
    match strip s with
    | String "-" d => option_map Z.opp (parse_digits d)
    | String "+" d => parse_digits d
    | d => parse_digits d
    end in
  match r with
  | Some n => Ok n
  | None => Raise (ValueError ("invalid literal for int() with base 10: '" ++ s ++ "'"))
  end.

(** *** Dictionaries with string keys (insertion ordered) *)

Definition dict (V : Type) : Type := list (string * V).

Fixpoint dict_get {V} (k : string) (d : dict V) : option V :=
  match d with
  | [] => None
  | (k', v) :: d' => if String.eqb k k' then Some v else dict_get k d'
  end.

(** [d[k] = v] *)
Fixpoint dict_set {V} (k : string) (v : V) (d : dict V) : dict V :=
  match d with
  | [] => [(k, v)]
  | (k', v') :: d' =>
      if String.eqb k k' then (k, v) :: d' else (k', v') :: dict_set k v d'
  end.

(** [d.get(k, default)] *)
Definition dict_get_default {V} (k : string) (default : V) (d : dict V) : V :=
  match dict_get k d with
  | Some v => v
  | None => default
  end.

End Py.
Import Py.

(* ================================================================== *)
(** ** The monad of method bodies: state and exceptions *)
(* ================================================================== *)

Module Exec.
Section Monad.
Context {S : Type}.

Definition M (A : Type) : Type := S -> Res A * S.

Definition ret {A} (a : A) : M A := fun w => (Ok a, w).

Definition bind {A B} (m : M A) (k : A -> M B) : M B :=
  fun w =>
    match m w with
    | (Ok a, w') => k a w'
    | (Raise e, w') => (Raise e, w')
    | (Hang, w') => (Hang, w')
    end.

Definition raise {A} (e : exn) : M A := fun w => (Raise e, w).

Definition hang {A} : M A := fun w => (Hang, w).

Definition lift {A} (r : Res A) : M A := fun w => (r, w).

(** [try: body / except <catches> as err: handler err] *)
Definition try_except {A} (body : M A) (catches : exn -> bool)
           (handler : exn -> M A) : M A :=
  fun w =>
    match body w with
    | (Raise e, w') => if catches e then handler e w' else (Raise e, w')
    | r => r
    end.
End Monad.
Arguments M S A : clear implicits.
End Exec.
Import Exec.

Declare Scope exec_scope.
Delimit Scope exec_scope with exec.
Notation "x <- c1 ;; c2" := (bind c1 (fun x => c2))
  (at level 61, c1 at next level, right associativity) : exec_scope.
Notation "c1 ;; c2" := (bind c1 (fun _ => c2))
  (at level 61, right associativity) : exec_scope.
Open Scope exec_scope.

(* ================================================================== *)
(** ** The serial port (pyserial) as seen by the focuser *)
(* ================================================================== *)

(** What lies outside the program: the hardware on the line, the operating
    system that opens ports, and the parsing of floating-point literals. *)
Record Env : Type := {
  Dev : Type;
(** the device consumes the bytes of one [write] and answers with lines *)
respond : Dev -> string -> Dev * list string;
(** one second of [time.sleep] passes *)
tick : Dev -> Dev;
(** [serial.Serial(port=...)]: the device now attached, or the exception *)
serial_Serial : string -> exn + Dev;
PyFloat : Type;
(** [float(s)] *)
float : string -> Res PyFloat
}.

Module Serial.
Section Port.
Variable E : Env.

(** An open port: the device, the lines received and not yet read, and
    everything written so far. *)
Record port : Type := {
  device : Dev E;
  in_waiting : list string;
  sent : list string
}.

Definition open (d : Dev E) : port :=
  {| device := d; in_waiting := []; sent := [] |}.

(** Writes reach the device at once, so there is no output to discard. *)
Definition reset_output_buffer (p : port) : port := p.

Definition reset_input_buffer (p : port) : port :=
  {| device := device p; in_waiting := []; sent := sent p |}.

Definition write (b : string) (p : port) : port :=
  let answer := respond E (device p) b in
  {| device := fst answer;
     in_waiting := in_waiting p ++ snd answer;
     sent := sent p ++ [b] |}.

(** [readline()] with a timeout: the next line, or [b''] when none came. *)
Definition readline (p : port) : string * port :=
  match in_waiting p with
  | [] => (EmptyString, p)
  | l :: rest => (l, {| device := device p; in_waiting := rest; sent := sent p |})
  end.

Definition sleep (p : port) : port :=
  {| device := tick E (device p); in_waiting := in_waiting p; sent := sent p |}.
End Port.
Arguments device {E} p.
Arguments in_waiting {E} p.
Arguments sent {E} p.
Arguments open {E} d.
Arguments reset_output_buffer {E} p.
Arguments reset_input_buffer {E} p.
Arguments write {E} b p.
Arguments readline {E} p.
Arguments sleep {E} p.
End Serial.

(* ================================================================== *)
(** ** pocs/focuser/focuslynx.py *)
(* ================================================================== *)

Module FocusLynx.

Inductive level : Type := DEBUG | INFO | WARNING | ERROR | CRITICAL.

(** What a call leaves behind besides the object: [warnings.warn],
    [self.logger.<level>] and [time.sleep]. *)
Inductive event : Type :=
| Warn (message : string)
| Log (lvl : level) (message : string)
| Sleep (seconds : Z).

(** [value * u.Celsius] *)
Inductive Quantity (V : Type) : Type := Celsius (value : V).
Arguments Celsius {V} value.

(** The result of an info query: [None] or the dict of the block. *)
Definition info : Type := option (dict string).

Section Focuser.
Variable E : Env.

(** The attributes of a [Focuser] instance.  [name], [model] and [port]
    come from the base class; the others are [None] until assigned. *)
Record Focuser : Type := {
  name : string;
  model : string;
  port : string;
  _serial_port : option (option (Serial.port E));
  _focuser_number : option Z;
  _hub_info : option info;
  _focuser_config : option info;
  _focuser_status : option info;
  _position : option Z;
  _target_position : option Z;
  _is_moving : option bool;
  _temperature : option (PyFloat E);
  _min_position : option Z;
  _max_position : option Z
}.

Record World : Type := { self : Focuser; trace : list event }.

(** Method bodies run on the object and the trace. *)
Definition M (A : Type) : Type := Exec.M World A.

Definition emit (ev : event) : M unit :=
  fun w => (Ok tt, {| self := self w; trace := trace w ++ [ev] |}).

Definition warn (message : string) : M unit := emit (Warn message).
Definition logger (lvl : level) (message : string) : M unit := emit (Log lvl message).

(** [self.<attr>] *)
Definition getattr {A} (attr : string) (proj : Focuser -> option A) : M A :=
  fun w =>
    match proj (self w) with
    | Some a => (Ok a, w)
    | None => (Raise (AttributeError attr), w)
    end.

(** an attribute the base class has set *)
Definition attr {A} (proj : Focuser -> A) : M A :=
  fun w => (Ok (proj (self w)), w).

Definition modify (f : Focuser -> Focuser) : M unit :=
  fun w => (Ok tt, {| self := f (self w); trace := trace w |}).

(** [self.<attr> = v], one function per attribute that is assigned. *)
Definition set_model (v : string) (f : Focuser) : Focuser :=
  {| name := name f; model := v; port := port f;
     _serial_port := _serial_port f; _focuser_number := _focuser_number f;
     _hub_info := _hub_info f; _focuser_config := _focuser_config f;
     _focuser_status := _focuser_status f; _position := _position f;
     _target_position := _target_position f; _is_moving := _is_moving f;
     _temperature := _temperature f; _min_position := _min_position f;
     _max_position := _max_position f |}.

Definition set__serial_port (v : option (Serial.port E)) (f : Focuser) : Focuser :=
  {| name := name f; model := model f; port := port f;
     _serial_port := Some v; _focuser_number := _focuser_number f;
     _hub_info := _hub_info f; _focuser_config := _focuser_config f;
     _focuser_status := _focuser_status f; _position := _position f;
     _target_position := _target_position f; _is_moving := _is_moving f;
     _temperature := _temperature f; _min_position := _min_position f;
     _max_position := _max_position f |}.

Definition set__focuser_number (v : Z) (f : Focuser) : Focuser :=
  {| name := name f; model := model f; port := port f;
     _serial_port := _serial_port f; _focuser_number := Some v;
     _hub_info := _hub_info f; _focuser_config := _focuser_config f;
     _focuser_status := _focuser_status f; _position := _position f;
     _target_position := _target_position f; _is_moving := _is_moving f;
     _temperature := _temperature f; _min_position := _min_position f;
     _max_position := _max_position f |}.

Definition set__hub_info (v : info) (f : Focuser) : Focuser :=
  {| name := name f; model := model f; port := port f;
     _serial_port := _serial_port f; _focuser_number := _focuser_number f;
     _hub_info := Some v; _focuser_config := _focuser_config f;
     _focuser_status := _focuser_status f; _position := _position f;
     _target_position := _target_position f; _is_moving := _is_moving f;
     _temperature := _temperature f; _min_position := _min_position f;
     _max_position := _max_position f |}.

Definition set__focuser_config (v : info) (f : Focuser) : Focuser :=
  {| name := name f; model := model f; port := port f;
     _serial_port := _serial_port f; _focuser_number := _focuser_number f;
     _hub_info := _hub_info f; _focuser_config := Some v;
     _focuser_status := _focuser_status f; _position := _position f;
     _target_position := _target_position f; _is_moving := _is_moving f;
     _temperature := _temperature f; _min_position := _min_position f;
     _max_position := _max_position f |}.

Definition set__focuser_status (v : info) (f : Focuser) : Focuser :=
  {| name := name f; model := model f; port := port f;
     _serial_port := _serial_port f; _focuser_number := _focuser_number f;
     _hub_info := _hub_info f; _focuser_config := _focuser_config f;
     _focuser_status := Some v; _position := _position f;
     _target_position := _target_position f; _is_moving := _is_moving f;
     _temperature := _temperature f; _min_position := _min_position f;
     _max_position := _max_position f |}.

Definition set__position (v : Z) (f : Focuser) : Focuser :=
  {| name := name f; model := model f; port := port f;
     _serial_port := _serial_port f; _focuser_number := _focuser_number f;
     _hub_info := _hub_info f; _focuser_config := _focuser_config f;
     _focuser_status := _focuser_status f; _position := Some v;
     _target_position := _target_position f; _is_moving := _is_moving f;
     _temperature := _temperature f; _min_position := _min_position f;
     _max_position := _max_position f |}.

Definition set__target_position (v : Z) (f : Focuser) : Focuser :=
  {| name := name f; model := model f; port := port f;
     _serial_port := _serial_port f; _focuser_number := _focuser_number f;
     _hub_info := _hub_info f; _focuser_config := _focuser_config f;
     _focuser_status := _focuser_status f; _position := _position f;
     _target_position := Some v; _is_moving := _is_moving f;
     _temperature := _temperature f; _min_position := _min_position f;
     _max_position := _max_position f |}.

Definition set__is_moving (v : bool) (f : Focuser) : Focuser :=
  {| name := name f; model := model f; port := port f;
     _serial_port := _serial_port f; _focuser_number := _focuser_number f;
     _hub_info := _hub_info f; _focuser_config := _focuser_config f;
     _focuser_status := _focuser_status f; _position := _position f;
     _target_position := _target_position f; _is_moving := Some v;
     _temperature := _temperature f; _min_position := _min_position f;
     _max_position := _max_position f |}.

Definition set__temperature (v : PyFloat E) (f : Focuser) : Focuser :=
  {| name := name f; model := model f; port := port f;
     _serial_port := _serial_port f; _focuser_number := _focuser_number f;
     _hub_info := _hub_info f; _focuser_config := _focuser_config f;
     _focuser_status := _focuser_status f; _position := _position f;
     _target_position := _target_position f; _is_moving := _is_moving f;
     _temperature := Some v; _min_position := _min_position f;
     _max_position := _max_position f |}.

Definition set__min_position (v : Z) (f : Focuser) : Focuser :=
  {| name := name f; model := model f; port := port f;
     _serial_port := _serial_port f; _focuser_number := _focuser_number f;
     _hub_info := _hub_info f; _focuser_config := _focuser_config f;
     _focuser_status := _focuser_status f; _position := _position f;
     _target_position := _target_position f; _is_moving := _is_moving f;
     _temperature := _temperature f; _min_position := Some v;
     _max_position := _max_position f |}.

Definition set__max_position (v : Z) (f : Focuser) : Focuser :=
  {| name := name f; model := model f; port := port f;
     _serial_port := _serial_port f; _focuser_number := _focuser_number f;
     _hub_info := _hub_info f; _focuser_config := _focuser_config f;
     _focuser_status := _focuser_status f; _position := _position f;
     _target_position := _target_position f; _is_moving := _is_moving f;
     _temperature := _temperature f; _min_position := _min_position f;
     _max_position := Some v |}.

(** [d[key]] on the result of an info query. *)
Definition subscript (d : info) (key : string) : M string :=
  match d with
  | None => raise (TypeError "'NoneType' object is not subscriptable")
  | Some d' =>
      match dict_get key d' with
      | Some v => ret v
      | None => raise (KeyError key)
      end
  end.

(** [self._serial_port.<method>(...)]; the attribute may hold [None]. *)
Definition port_call {A} (method : string)
           (f : Serial.port E -> A * Serial.port E) : M A :=
  sp <- getattr "_serial_port" _serial_port ;;
  match sp with
  | None => raise (AttributeError method)
  | Some p => let (a, p') := f p in modify (set__serial_port (Some p')) ;; ret a
  end.

(** [str(self._serial_port.readline(), encoding='ascii').strip()] *)
Definition readline_str : M string :=
  b <- port_call "readline" Serial.readline ;;
  s <- lift (decode_ascii b) ;;
  ret (strip s).

(** *** Private methods *)

(** [key, value = (item.strip() for item in response.split('='))] *)
Definition unpack2 (items : list string) : Res (string * string) :=
  match items with
  | [key; value] => Ok (key, value)
  | [] | [_] =>
      Raise (ValueError ("not enough values to unpack (expected 2, got "
                         ++ str_int (Z.of_nat (List.length items)) ++ ")"))
  | _ => Raise (ValueError "too many values to unpack (expected 2)")
  end.

Definition key_value (response : string) : Res (string * string) :=
  unpack2 (map strip (split "=" response)).

(** The loop [while response != 'END'] of [_send_command], run over the
    lines waiting in the port; it returns what is left of them.  When no
    line is left [readline()] times out with [b''], which is not ['END']
    and does not unpack into a key and a value. *)
Fixpoint info_loop (lines : list string) (response : string)
         (info : dict string) : Res (dict string) * list string :=
  if (response =? "END")%string then (Ok info, lines)
  else
    match key_value response with
    | Ok (key, value) =>
        let info := dict_set key value info in
        match lines with
        | l :: rest =>
            match decode_ascii l with
            | Ok s => info_loop rest (strip s) info
            | Raise e => (Raise e, rest)
            | Hang => (Hang, rest)
            end
        | [] =>
            match key_value (strip EmptyString) with
            | Raise e => (Raise e, [])
            | _ => (Hang, [])
            end
        end
    | Raise e => (Raise e, lines)
    | Hang => (Hang, lines)
    end.

Definition read_info (response : string) : M (dict string) :=
  r <- port_call "readline"
         (fun p => let (r, rest) := info_loop (Serial.in_waiting p) response [] in
                   (r, {| Serial.device := Serial.device p;
                          Serial.in_waiting := rest;
                          Serial.sent := Serial.sent p |})) ;;
  lift r.

(** [assert str(self._serial_port.readline(), encoding='ascii').strip() == expected] *)
Definition assert_line (expected : M string) : M unit :=
  line <- readline_str ;;
  e <- expected ;;
  if (line =? e)%string then ret tt else raise AssertionError.

(** [_send_command], lines 290 to 293: clear both buffers and write
    the command. *)
Definition transmit (command_str : string) : M unit :=
  port_call "reset_output_buffer" (fun p => (tt, Serial.reset_output_buffer p)) ;;
  port_call "reset_input_buffer" (fun p => (tt, Serial.reset_input_buffer p)) ;;
  b <- lift (encode_ascii command_str) ;;
  port_call "write" (fun p => (tt, Serial.write b p)).

(** [_send_command], lines 295 to 317: read the acknowledgment, then what
    the type of the command expects. *)
Definition receive (command_type : string) (header_str : option string) : M info :=
  response <- readline_str ;;
  if negb (response =? "!")%string then raise (RuntimeError response)
  else if (command_type =? "GET INFO")%string then
    assert_line (match header_str with
                 | Some h => ret h
                 | None => raise (KeyError "header_str")
                 end) ;;
    response <- readline_str ;;
    d <- read_info response ;;
    ret (Some d)
  else if (command_type =? "SET PARAM")%string then
    assert_line (ret "SET") ;; ret None
  else if (command_type =? "MOVE")%string then
    assert_line (ret "M") ;; ret None
  else if (command_type =? "HALT")%string then
    assert_line (ret "HALTED") ;; ret None
  else raise (ValueError ("Invalid command type " ++ command_type ++ "!")).

Definition _send_command (command_str command_type : string)
           (header_str : option string) : M info :=
  transmit command_str ;;
  receive command_type header_str.

Definition _get_info (command_str header_str : string) : M info :=
  try_except
    (_send_command command_str "GET INFO" (Some header_str))
    is_RuntimeError
    (fun err =>
       let message := ("Error setting parameter using command '" ++ command_str
                       ++ "': " ++ str_exn err)%string in
       logger ERROR message ;;
       warn message ;;
       ret None).

Definition _set_param (command_str : string) : M unit :=
  try_except
    (_send_command command_str "SET PARAM" None ;; ret tt)
    is_RuntimeError
    (fun err =>
       let message := ("Error setting parameter using command '" ++ command_str
                       ++ "': " ++ str_exn err)%string in
       logger ERROR message ;;
       warn message).

Definition _get_hub_info : M unit :=
  i <- _get_info "<FHGETHUBINFO>" "HUB INFO" ;;
  modify (set__hub_info i).

Definition _get_focuser_config : M unit :=
  n <- getattr "_focuser_number" _focuser_number ;;
  i <- _get_info ("<F" ++ format_1d n ++ "GETCONFIG>") ("CONFIG" ++ format_1d n) ;;
  modify (set__focuser_config i).

Definition _update_focuser_status : M unit :=
  n <- getattr "_focuser_number" _focuser_number ;;
  i <- _get_info ("<F" ++ format_1d n ++ "GETSTATUS>") ("STATUS" ++ format_1d n) ;;
  modify (set__focuser_status i) ;;
  st <- getattr "_focuser_status" _focuser_status ;;
  v <- subscript st "Curr Pos" ;;
  p <- lift (int v) ;;
  modify (set__position p) ;;
  st <- getattr "_focuser_status" _focuser_status ;;
  v <- subscript st "Targ Pos" ;;
  t <- lift (int v) ;;
  modify (set__target_position t) ;;
  st <- getattr "_focuser_status" _focuser_status ;;
  v <- subscript st "IsMoving" ;;
  m <- lift (int v) ;;
  modify (set__is_moving (negb (m =? 0))) ;;
  st <- getattr "_focuser_status" _focuser_status ;;
  v <- subscript st "Temp(C)" ;;
  c <- lift (float E v) ;;
  modify (set__temperature c).

(** *** Properties *)

(** [uid] getter *)
Definition uid : M string :=
  cfg <- getattr "_focuser_config" _focuser_config ;;
  subscript cfg "Nickname".

(** [uid] setter *)
Definition set_uid (nickname : string) : M unit :=
  nickname <-
    (if (16 <? String.length nickname)%nat then
       logger WARNING ("Truncated nickname " ++ nickname ++ " to "
                       ++ substring 0 16 nickname
                       ++ " (must be <= 16 characters)") ;;
       ret (substring 0 16 nickname)
     else ret nickname) ;;
  n <- getattr "_focuser_number" _focuser_number ;;
  _set_param ("<F" ++ format_1d n ++ "SCNN" ++ nickname ++ ">") ;;
  _get_focuser_config.

Definition position : M Z :=
  _update_focuser_status ;;
  getattr "_position" _position.

Definition min_position : M Z := getattr "_min_position" _min_position.

Definition max_position : M Z := getattr "_max_position" _max_position.

(** The first statement of the getter is the bare expression
    [self._update_focuser_status]: the bound method is looked up and
    dropped, it is not called. *)
Definition temperature : M (Quantity (PyFloat E)) :=
  ret _update_focuser_status ;;
  t <- getattr "_temperature" _temperature ;;
  ret (Celsius t).

Definition is_moving : M bool :=
  _update_focuser_status ;;
  getattr "_is_moving" _is_moving.

(** [__str__] *)
Definition __str__ : M string :=
  n <- getattr "_focuser_number" _focuser_number ;;
  u <- uid ;;
  nm <- attr name ;;
  p <- attr port ;;
  ret (nm ++ " " ++ str_int n ++ " (" ++ u ++ ") on " ++ p)%string.

(** *** Methods *)

Definition connect : M unit :=
  try_except
    (p <- attr port ;;
     match serial_Serial E p with
     | inr d => modify (set__serial_port (Some (Serial.open d)))
     | inl e => raise e
     end)
    is_SerialException
    (fun err =>
       modify (set__serial_port None) ;;
       p <- attr port ;;
       logger CRITICAL ("Could not open " ++ p ++ "!")%string ;;
       raise err) ;;
  nm <- attr name ;;
  p <- attr port ;;
  logger DEBUG ("Established serial connection to " ++ nm ++ " on " ++ p)%string.

(** [while self.is_moving: time.sleep(1)] *)
Fixpoint wait_while_moving (fuel : nat) : M unit :=
  match fuel with
  | O => hang
  | S fuel' =>
      moving <- is_moving ;;
      if moving then
        emit (Sleep 1) ;;
        port_call "sleep" (fun p => (tt, Serial.sleep p)) ;;
        wait_while_moving fuel'
      else ret tt
  end.

Definition move_cmd (focuser_number target : Z) : string :=
  "<F" ++ format_1d focuser_number ++ "MA" ++ format_0d 6 target ++ ">".

(** [move_to(position, blocking)]; [requested] is the argument
    [position] and [target] the same variable after the range check. *)
Definition move_to (fuel : nat) (requested : Z) (blocking : bool) : M Z :=
  lo <- getattr "_min_position" _min_position ;;
  target <-
    (if requested <? lo then
       let message := ("Requested position " ++ str_int requested
                       ++ " less than min position, moving to "
                       ++ str_int lo ++ "!")%string in
       logger ERROR message ;;
       warn message ;;
       getattr "_min_position" _min_position
     else
       hi <- getattr "_max_position" _max_position ;;
       if hi <? requested then
         let message := ("Requested position " ++ str_int requested
                         ++ " greater than max position, moving to "
                         ++ str_int hi ++ "!")%string in
         logger ERROR message ;;
         warn message ;;
         getattr "_max_position" _max_position
       else ret requested) ;;
  u <- uid ;;
  logger DEBUG ("Moving focuser " ++ u ++ " to " ++ str_int target)%string ;;
  n <- getattr "_focuser_number" _focuser_number ;;
  _send_command (move_cmd n target) "MOVE" None ;;
  if blocking then
    wait_while_moving fuel ;;
    pos <- position ;;
    tgt <- getattr "_target_position" _target_position ;;
    (if negb (pos =? tgt) then
       u <- uid ;;
       tgt <- getattr "_target_position" _target_position ;;
       pos <- getattr "_position" _position ;;
       let message := ("Focuser " ++ u ++ " did not reach target position "
                       ++ str_int tgt ++ ", now at " ++ str_int pos ++ "!")%string in
       logger WARNING message ;;
       warn message
     else ret tt) ;;
    getattr "_position" _position
  else ret target.

Definition halt_cmd (focuser_number : Z) : string :=
  "<F" ++ format_1d focuser_number ++ "HALT>".

Definition halt : M unit :=
  n <- getattr "_focuser_number" _focuser_number ;;
  _send_command (halt_cmd n) "HALT" None ;;
  u <- uid ;;
  logger WARNING ("Focuser " ++ u ++ " halted")%string.

Definition _initialise : M unit :=
  _get_hub_info ;;
  _get_focuser_config ;;
  _update_focuser_status ;;
  cfg <- getattr "_focuser_config" _focuser_config ;;
  v <- subscript cfg "Dev Typ" ;;
  modify (set_model v) ;;
  cfg <- getattr "_focuser_config" _focuser_config ;;
  v <- subscript cfg "Max Pos" ;;
  m <- lift (int v) ;;
  modify (set__max_position m) ;;
  s <- __str__ ;;
  logger INFO (s ++ " initialised")%string.

(** *** Construction *)

(** The arguments of [Focuser(...)]; [kw_port] is the [port] keyword that
    travels in [**kwargs] to the base class. *)
Record init_args : Type := {
  arg_name : string;
  arg_model : string;
  arg_initial_position : option Z;
  arg_focuser_number : Z;
  arg_min_position : Z;
  arg_max_position : option Z;
  kw_port : string
}.

Definition str_option (o : option Z) : string :=
  match o with
  | Some n => str_int n
  | None => "None"
  end.

(** The names that an expression in the body of [__init__] can load, with
    the text [str] gives for each: the parameters of the function and the
    names bound at module level by the imports and the class statement. *)
Definition init_names (a : init_args) : dict string :=
  [ ("self", "<Focuser>");
    ("name", arg_name a);
    ("model", arg_model a);
    ("initial_position", str_option (arg_initial_position a));
    ("focuser_number", str_int (arg_focuser_number a));
    ("min_position", str_int (arg_min_position a));
    ("max_position", str_option (arg_max_position a));
    ("args", "()");
    ("kwargs", "{'port': '" ++ kw_port a ++ "'}");
    ("serial", "<module 'serial'>");
    ("time", "<module 'time'>");
    ("warn", "<built-in function warn>");
    ("u", "<module 'astropy.units'>");
    ("AbstractFocuser", "<class 'pocs.focuser.AbstractFocuser'>");
    ("Focuser", "<class 'pocs.focuser.focuslynx.Focuser'>") ]%string.

(** Loading a name: [NameError] when nothing binds it. *)
Definition load_name (names : dict string) (x : string) : M string :=
  match dict_get x names with
  | Some v => ret v
  | None => raise (NameError x)
  end.

(** Modelled from the spec: the base class [AbstractFocuser] is not among
    the sources.  Its constructor is taken to store [name], [model] and
    the [port] keyword and to provide the logger, which is all that
    [Focuser] reads of it; no other attribute exists yet. *)
Definition AbstractFocuser__init__ (a : init_args) : Focuser :=
  {| name := arg_name a; model := arg_model a; port := kw_port a;
     _serial_port := None; _focuser_number := None;
     _hub_info := None; _focuser_config := None; _focuser_status := None;
     _position := None; _target_position := None; _is_moving := None;
     _temperature := None; _min_position := None; _max_position := None |}.

(** Modelled from the spec: the setter of [position] is inherited from
    [AbstractFocuser]; following the class docstring ("the focuser will
    drive to this encoder position") and the focuser's only positioning
    operation, it calls [move_to] with the default [blocking=True]. *)
Definition set_position (fuel : nat) (p : Z) : M unit :=
  move_to fuel p true ;; ret tt.

(** [__init__], lines 38 to 49, after the call of the base constructor:
    connect and initialise.  The [try] block yields [true]; the handler,
    when it gets as far as its [return], yields [false]. *)
Definition startup (a : init_args) : M bool :=
  logger DEBUG "Initialising FocusLynx focuser" ;;
  connected <-
    try_except
      (connect ;; ret true)
      is_SerialException
      (fun err =>
         nm <- attr name ;;
         p <- load_name (("err", str_exn err) :: init_names a) "port" ;;
         let message := ("Error connecting to " ++ nm ++ " on " ++ p ++ ": "
                         ++ str_exn err)%string in
         logger ERROR message ;;
         warn message ;;
         ret false) ;;
  if negb connected then ret false
  else
    modify (set__focuser_number (arg_focuser_number a)) ;;
    _initialise ;;
    ret true.

(** [__init__], lines 51 to 67: the limits of travel. *)
Definition set_bounds (a : init_args) : M unit :=
  (if 0 <=? arg_min_position a then
     modify (set__min_position (arg_min_position a))
   else
     modify (set__min_position 0) ;;
     warn ("Specified min_position " ++ str_int (arg_min_position a)
           ++ " less than zero, ignoring!")%string) ;;
  match arg_max_position a with
  | Some max_position =>
      hi <- getattr "_max_position" _max_position ;;
      if max_position <=? hi then
        lo <- getattr "_min_position" _min_position ;;
        if lo <? max_position then
          modify (set__max_position max_position)
        else raise (ValueError "Max position must be greater than min position!")
      else
        hi <- getattr "_max_position" _max_position ;;
        warn ("Specified max_position " ++ str_int max_position
              ++ " greater than focuser max " ++ str_int hi ++ "!")%string
  | None => ret tt
  end.

Definition __init__ (fuel : nat) (a : init_args) : M unit :=
  started <- startup a ;;
  if negb started then ret tt
  else
    set_bounds a ;;
    match arg_initial_position a with
    | Some p => set_position fuel p
    | None => ret tt
    end.

(** The world in which [__init__] starts. *)
Definition fresh (a : init_args) : World :=
  {| self := AbstractFocuser__init__ a; trace := [] |}.

(** The call [Focuser(...)]: the caller receives the object only when
    [__init__] returns; an exception leaves it with the exception. *)
Definition new (fuel : nat) (a : init_args) : Res Focuser * list event :=
  match __init__ fuel a (fresh a) with
  | (Ok _, w) => (Ok (self w), trace w)
  | (Raise e, w) => (Raise e, trace w)
  | (Hang, w) => (Hang, trace w)
  end.

End Focuser.

Arguments self {E} w.
Arguments trace {E} w.
Arguments name {E} f.
Arguments model {E} f.
Arguments port {E} f.
Arguments _serial_port {E} f.
Arguments _focuser_number {E} f.
Arguments _hub_info {E} f.
Arguments _focuser_config {E} f.
Arguments _focuser_status {E} f.
Arguments _position {E} f.
Arguments _target_position {E} f.
Arguments _is_moving {E} f.
Arguments _temperature {E} f.
Arguments _min_position {E} f.
Arguments _max_position {E} f.

End FocusLynx.

(* ================================================================== *)
(** ** panoptes/mount/mount.py *)
(* ================================================================== *)

Module Mount.

(** Values found in the configuration and in the attributes. *)
Inductive value : Type :=
| VNone
| VBool (b : bool)
| VStr (s : string).

Definition is_not_None (v : value) : bool :=
  match v with
  | VNone => false
  | _ => true
  end.

(** [d.get(k)] with [None] for a missing key. *)
Definition get (k : string) (d : dict value) : value :=
  dict_get_default k VNone d.

Inductive level : Type := DEBUG | WARN | ERROR.

Inductive event : Type :=
| Log (lvl : level) (message : string)
(** a transport has been opened on this address *)
| Opened (address : string).

(** Modelled from the spec: [panoptes.utils.serial.SerialData] is not
    among the sources.  It is the Transport of the spec, a byte channel:
    [write] puts the string on the wire, [read] yields the next response
    (the empty string when none has come). *)
Record SerialData : Type := {
  wire : list string;
  incoming : list string
}.

Definition SerialData_open (responses : list string) : SerialData :=
  {| wire := []; incoming := responses |}.

Definition SerialData_write (s : string) (d : SerialData) : SerialData :=
  {| wire := wire d ++ [s]; incoming := incoming d |}.

Definition SerialData_read (d : SerialData) : string * SerialData :=
  match incoming d with
  | [] => (EmptyString, d)
  | r :: rest => (r, {| wire := wire d; incoming := rest |})
  end.

(** The attributes of a mount instance, [None] until assigned. *)
Record AbstractMount : Type := {
  non_sidereal_available : option value;
  PEC_available : option value;
  serial_port : option value;
  commands : option (dict string);
  is_connected : option bool;
  is_initialized : option bool;
  is_slewing : option value;
  _pre_cmd : option string;
  _post_cmd : option string;
  serial : option SerialData
}.

Definition empty : AbstractMount :=
  {| non_sidereal_available := None; PEC_available := None;
     serial_port := None; commands := None; is_connected := None;
     is_initialized := None; is_slewing := None; _pre_cmd := None;
     _post_cmd := None; serial := None |}.

(** [line] answers of the hardware that a transport opened later would
    deliver; the object and the trace. *)
Record World : Type := {
  self : AbstractMount;
  trace : list event;
  line : list string
}.

Definition M (A : Type) : Type := Exec.M World A.

Definition logger (lvl : level) (message : string) : M unit :=
  fun w => (Ok tt, {| self := self w; trace := trace w ++ [Log lvl message];
                      line := line w |}).

Definition getattr {A} (attr : string) (proj : AbstractMount -> option A) : M A :=
  fun w =>
    match proj (self w) with
    | Some a => (Ok a, w)
    | None => (Raise (AttributeError attr), w)
    end.

Definition modify (f : AbstractMount -> AbstractMount) : M unit :=
  fun w => (Ok tt, {| self := f (self w); trace := trace w; line := line w |}).

Definition set_non_sidereal_available (v : value) (m : AbstractMount) :=
  {| non_sidereal_available := Some v; PEC_available := PEC_available m;
     serial_port := serial_port m; commands := commands m;
     is_connected := is_connected m; is_initialized := is_initialized m;
     is_slewing := is_slewing m; _pre_cmd := _pre_cmd m;
     _post_cmd := _post_cmd m; serial := serial m |}.

Definition set_PEC_available (v : value) (m : AbstractMount) :=
  {| non_sidereal_available := non_sidereal_available m; PEC_available := Some v;
     serial_port := serial_port m; commands := commands m;
     is_connected := is_connected m; is_initialized := is_initialized m;
     is_slewing := is_slewing m; _pre_cmd := _pre_cmd m;
     _post_cmd := _post_cmd m; serial := serial m |}.

Definition set_serial_port (v : value) (m : AbstractMount) :=
  {| non_sidereal_available := non_sidereal_available m;
     PEC_available := PEC_available m;
     serial_port := Some v; commands := commands m;
     is_connected := is_connected m; is_initialized := is_initialized m;
     is_slewing := is_slewing m; _pre_cmd := _pre_cmd m;
     _post_cmd := _post_cmd m; serial := serial m |}.

Definition set_commands (v : dict string) (m : AbstractMount) :=
  {| non_sidereal_available := non_sidereal_available m;
     PEC_available := PEC_available m;
     serial_port := serial_port m; commands := Some v;
     is_connected := is_connected m; is_initialized := is_initialized m;
     is_slewing := is_slewing m; _pre_cmd := _pre_cmd m;
     _post_cmd := _post_cmd m; serial := serial m |}.

Definition set_is_connected (v : bool) (m : AbstractMount) :=
  {| non_sidereal_available := non_sidereal_available m;
     PEC_available := PEC_available m;
     serial_port := serial_port m; commands := commands m;
     is_connected := Some v; is_initialized := is_initialized m;
     is_slewing := is_slewing m; _pre_cmd := _pre_cmd m;
     _post_cmd := _post_cmd m; serial := serial m |}.

Definition set_is_initialized (v : bool) (m : AbstractMount) :=
  {| non_sidereal_available := non_sidereal_available m;
     PEC_available := PEC_available m;
     serial_port := serial_port m; commands := commands m;
     is_connected := is_connected m; is_initialized := Some v;
     is_slewing := is_slewing m; _pre_cmd := _pre_cmd m;
     _post_cmd := _post_cmd m; serial := serial m |}.

Definition set_is_slewing (v : value) (m : AbstractMount) :=
  {| non_sidereal_available := non_sidereal_available m;
     PEC_available := PEC_available m;
     serial_port := serial_port m; commands := commands m;
     is_connected := is_connected m; is_initialized := is_initialized m;
     is_slewing := Some v; _pre_cmd := _pre_cmd m;
     _post_cmd := _post_cmd m; serial := serial m |}.

Definition set__pre_cmd (v : string) (m : AbstractMount) :=
  {| non_sidereal_available := non_sidereal_available m;
     PEC_available := PEC_available m;
     serial_port := serial_port m; commands := commands m;
     is_connected := is_connected m; is_initialized := is_initialized m;
     is_slewing := is_slewing m; _pre_cmd := Some v;
     _post_cmd := _post_cmd m; serial := serial m |}.

Definition set__post_cmd (v : string) (m : AbstractMount) :=
  {| non_sidereal_available := non_sidereal_available m;
     PEC_available := PEC_available m;
     serial_port := serial_port m; commands := commands m;
     is_connected := is_connected m; is_initialized := is_initialized m;
     is_slewing := is_slewing m; _pre_cmd := _pre_cmd m;
     _post_cmd := Some v; serial := serial m |}.

Definition set_serial (v : SerialData) (m : AbstractMount) :=
  {| non_sidereal_available := non_sidereal_available m;
     PEC_available := PEC_available m;
     serial_port := serial_port m; commands := commands m;
     is_connected := is_connected m; is_initialized := is_initialized m;
     is_slewing := is_slewing m; _pre_cmd := _pre_cmd m;
     _post_cmd := _post_cmd m; serial := Some v |}.

(** *** The class statement *)

(** The [def] statements of the class body, in the order of the file;
    the two definitions of [setup_commands] carry their line numbers. *)
Inductive def : Type :=
| def__init__
| def_setup_commands_61
| def_connect
| def_create_serial
| def_serial_query
| def_serial_send
| def_serial_read
| def_get_command
| def_setup_commands_118
| def_initialize_mount
| def_check_slewing
| def_check_coordinates
| def_sync_coordinates
| def_slew_to_coordinates
| def_slew_to_park
| def_echo
| def_ping.

Definition class_body : list (string * def) :=
  [ ("__init__", def__init__);
    ("setup_commands", def_setup_commands_61);
    ("connect", def_connect);
    ("create_serial", def_create_serial);
    ("serial_query", def_serial_query);
    ("serial_send", def_serial_send);
    ("serial_read", def_serial_read);
    ("get_command", def_get_command);
    ("setup_commands", def_setup_commands_118);
    ("initialize_mount", def_initialize_mount);
    ("check_slewing", def_check_slewing);
    ("check_coordinates", def_check_coordinates);
    ("sync_coordinates", def_sync_coordinates);
    ("slew_to_coordinates", def_slew_to_coordinates);
    ("slew_to_park", def_slew_to_park);
    ("echo", def_echo);
    ("ping", def_ping) ].

(** Executing the class body binds each name in turn in the class
    namespace; a name bound twice keeps the later function. *)
Definition namespace : dict def :=
  fold_left (fun ns kv => dict_set (fst kv) (snd kv) ns) class_body [].

(** *** Methods *)

(** [setup_commands(self, commands)], line 61 *)
Definition setup_commands_61 (commands : dict string) : M (dict string) :=
  modify (set__pre_cmd (dict_get_default "cmd_pre" ":" commands)) ;;
  modify (set__post_cmd (dict_get_default "cmd_post" "#" commands)) ;;
  match dict_get "slew" commands with
  | Some _ => ret tt
  | None => logger WARN "No slew command available" ;; raise AssertionError
  end ;;
  ret commands.

(** [setup_commands(self)], line 118 *)
Definition setup_commands_118 : M (dict string) := raise NotImplementedError.

(** The call [self.setup_commands(commands)]: the attribute is looked up
    in the class namespace and the function found is applied to [self]
    and [commands]. *)
Definition self_setup_commands (commands : dict string) : M (dict string) :=
  match dict_get "setup_commands" namespace with
  | Some def_setup_commands_61 => setup_commands_61 commands
  | Some def_setup_commands_118 =>
      raise (TypeError "setup_commands() takes 1 positional argument but 2 were given")
  | _ => raise (AttributeError "setup_commands")
  end.

Definition __init__ (config : option (dict value))
           (commands : option (dict string)) (connect : bool) : M unit :=
  match config with
  | None => logger ERROR "Mount requries a config" ;; raise AssertionError
  | Some config =>
      match commands with
      | None => logger ERROR "Mount requries commands" ;; raise AssertionError
      | Some commands =>
          if negb (is_not_None (get "serial_port" config)) then
            logger ERROR "No port specified, cannot create mount" ;;
            raise AssertionError
          else
            modify (set_non_sidereal_available
                      (dict_get_default "non_sidereal_available" (VBool false) config)) ;;
            modify (set_PEC_available
                      (dict_get_default "PEC_available" (VBool false) config)) ;;
            modify (set_serial_port (get "serial_port" config)) ;;
            c <- self_setup_commands commands ;;
            modify (set_commands c) ;;
            modify (set_is_connected false) ;;
            modify (set_is_initialized false) ;;
            modify (set_is_slewing (VBool false))
            (* self.create_serial() is commented out *)
      end
  end.

(** [Mount(...)]: the caller receives the object only when [__init__]
    returns. *)
Definition new (answers : list string) (config : option (dict value))
           (commands : option (dict string)) (connect : bool)
  : Res AbstractMount * World :=
  match __init__ config commands connect
                 {| self := empty; trace := []; line := answers |} with
  | (Ok _, w) => (Ok (self w), w)
  | (Raise e, w) => (Raise e, w)
  | (Hang, w) => (Hang, w)
  end.

Definition create_serial : M unit :=
  p <- getattr "serial_port" serial_port ;;
  fun w =>
    (Ok tt, {| self := set_serial (SerialData_open (line w)) (self w);
               trace := trace w ++ [Opened (match p with VStr s => s | _ => "" end)];
               line := line w |}).

Definition str_command (c : option string) : string :=
  match c with
  | Some token => token
  | None => "None"
  end.

(** ["{}{}{}".format(self._pre_cmd, self.commands.get(cmd), self._post_cmd)] *)
Definition get_command (cmd : string) : M string :=
  pre <- getattr "_pre_cmd" _pre_cmd ;;
  table <- getattr "commands" commands ;;
  post <- getattr "_post_cmd" _post_cmd ;;
  ret (pre ++ str_command (dict_get cmd table) ++ post)%string.

Definition serial_send (string_command : string) : M unit :=
  logger DEBUG ("Mount Send: " ++ string_command)%string ;;
  d <- getattr "serial" serial ;;
  modify (set_serial (SerialData_write string_command d)).

Definition serial_read : M string :=
  d <- getattr "serial" serial ;;
  let (response, d') := SerialData_read d in
  modify (set_serial d') ;;
  logger DEBUG ("Mount Read: " ++ response)%string ;;
  ret response.

Definition serial_query (cmd : string) : M string :=
  c <- get_command cmd ;;
  serial_send c ;;
  serial_read.

Definition check_slewing : M value :=
  r <- serial_query "slewing" ;;
  modify (set_is_slewing (VStr r)) ;;
  getattr "is_slewing" is_slewing.

Definition initialize_mount : M bool := raise NotImplementedError.

Definition connect : M bool :=
  c <- getattr "is_connected" is_connected ;;
  (if negb c then
     ok <- initialize_mount ;;
     if negb ok then logger ERROR "Cannot connect to mount"
     else modify (set_is_connected true)
   else ret tt) ;;
  getattr "is_connected" is_connected.

End Mount.

(* ================================================================== *)
(** ** A simulated FocusLynx hub, to run the model on *)
(* ================================================================== *)

Module Sim.

(** The simulated hardware: one focuser that reaches its target after
    [busy] more seconds and whose motor is warmer once it has driven,
    and a hub that acknowledges [healthy] more commands before it starts
    answering [X]. *)
Record dev : Type := {
  cur : Z;
  targ : Z;
  busy : nat;
  temp : string;
  nick : string;
  healthy : nat
}.

Definition crlf : string := String "013" (String "010" EmptyString).

Definition lines (l : list string) : list string :=
  map (fun s => (s ++ crlf)%string) l.

Definition device_max : Z := 7000.

Definition answer (d : dev) (cmd : string) : dev * list string :=
  match healthy d with
  | O => (d, lines ["X"])
  | S h =>
      let d := {| cur := cur d; targ := targ d; busy := busy d;
                  temp := temp d; nick := nick d; healthy := h |} in
      if (cmd =? "<FHGETHUBINFO>")%string then
        (d, lines ["!"; "HUB INFO"; "Hub FVer = 2.0.9"; "END"])
      else if (cmd =? "<F1GETCONFIG>")%string then
        (d, lines ["!"; "CONFIG1"; ("Nickname = " ++ nick d)%string;
                   ("Max Pos  = " ++ str_int device_max)%string;
                   "Dev Typ  = FA"; "END"])
      else if (cmd =? "<F1GETSTATUS>")%string then
        (d, lines ["!"; "STATUS1"; ("Temp(C)  = " ++ temp d)%string;
                   ("Curr Pos = " ++ str_int (cur d))%string;
                   ("Targ Pos = " ++ str_int (targ d))%string;
                   (match busy d with O => "IsMoving = 0" | S _ => "IsMoving = 1" end)%string;
                   "END"])
      else if (substring 0 5 cmd =? "<F1MA")%string then
        match int (substring 5 6 cmd) with
        | Ok t => ({| cur := cur d; targ := t; busy := 2; temp := "+22.3";
                      nick := nick d; healthy := h |}, lines ["!"; "M"])
        | _ => (d, lines ["!"; "ER=1"])
        end
      else if (cmd =? "<F1HALT>")%string then
        ({| cur := cur d; targ := targ d; busy := 0; temp := temp d;
            nick := nick d; healthy := h |}, lines ["!"; "HALTED"])
      else if (substring 0 7 cmd =? "<F1SCNN")%string then
        ({| cur := cur d; targ := targ d; busy := busy d; temp := temp d;
            nick := substring 7 (String.length cmd - 8) cmd; healthy := h |},
         lines ["!"; "SET"])
      else (d, lines ["!"; "ER=1"])
  end.

(** After one second a moving focuser is one second closer; it is at the
    target when no second is left. *)
Definition second (d : dev) : dev :=
  match busy d with
  | O => d
  | S O => {| cur := targ d; targ := targ d; busy := 0; temp := temp d;
             nick := nick d; healthy := healthy d |}
  | S b => {| cur := cur d; targ := targ d; busy := b; temp := temp d;
             nick := nick d; healthy := healthy d |}
  end.

Definition tty : string := "/dev/ttyUSB0".

(** The environment with device [d] on [/dev/ttyUSB0] and nothing on any
    other port.  Floating-point values are kept as their literals. *)
Definition env (d : dev) : Env :=
  {| Dev := dev;
     respond := answer;
     tick := second;
     serial_Serial := fun p =>
       if (p =? tty)%string then inr d
       else inl (SerialException ("could not open port " ++ p)%string);
     PyFloat := string;
     float := fun s => Ok (strip s) |}.

Definition hub (nickname : string) (n : nat) : dev :=
  {| cur := 3500; targ := 3500; busy := 0; temp := "+21.7";
     nick := nickname; healthy := n |}.

Definition args (port : string) (lo : Z) (hi : option Z) : FocusLynx.init_args :=
  {| FocusLynx.arg_name := "FocusLynx Focuser";
     FocusLynx.arg_model := "FA";
     FocusLynx.arg_initial_position := None;
     FocusLynx.arg_focuser_number := 1;
     FocusLynx.arg_min_position := lo;
     FocusLynx.arg_max_position := hi;
     FocusLynx.kw_port := port |}.

End Sim.

(* ================================================================== *)
(** ** Vocabulary of the focuser's properties *)
(* ================================================================== *)

Module FocusLynxProps.
Import FocusLynx.

Section Props.
Variable E : Env.

(** Everything written to the port of the object so far. *)
Definition sent_of (w : World E) : list string :=
  match _serial_port (self w) with
  | Some (Some p) => Serial.sent p
  | _ => []
  end.

(** [stable P m]: whatever the outcome of [m], it leaves [P] true. *)
Definition stable {A} (P : World E -> Prop) (m : M E A) : Prop :=
  forall w, P w -> P (snd (m w)).

(** [P] survives one more event on the trace. *)
Definition trace_closed (P : World E -> Prop) : Prop :=
  forall f t ev,
    P {| self := f; trace := t |} -> P {| self := f; trace := (t ++ [ev])%list |}.

(** [P] survives the assignment [g]. *)
Definition respects (g : Focuser E -> Focuser E) (P : World E -> Prop) : Prop :=
  forall f t, P {| self := f; trace := t |} -> P {| self := g f; trace := t |}.

(** [P] survives a change of the port from [p] to any [p'] with [R p p']. *)
Definition port_blind (R : Serial.port E -> Serial.port E -> Prop)
           (P : World E -> Prop) : Prop :=
  forall f t p p',
    _serial_port f = Some (Some p) -> R p p' ->
    P {| self := f; trace := t |} ->
    P {| self := set__serial_port E (Some p') f; trace := t |}.

Definition same_sent (p p' : Serial.port E) : Prop := Serial.sent p' = Serial.sent p.

Definition more_sent (p p' : Serial.port E) : Prop :=
  exists l, Serial.sent p' = (Serial.sent p ++ l)%list.

(** [P] survives events on the trace and what a status, configuration or
    hub query stores in the object. *)
Record quiet (P : World E -> Prop) : Prop := {
  quiet_trace : trace_closed P;
  quiet_hub_info : forall v, respects (set__hub_info E v) P;
  quiet_focuser_config : forall v, respects (set__focuser_config E v) P;
  quiet_focuser_status : forall v, respects (set__focuser_status E v) P;
  quiet_position : forall v, respects (set__position E v) P;
  quiet_target_position : forall v, respects (set__target_position E v) P;
  quiet_is_moving : forall v, respects (set__is_moving E v) P;
  quiet_temperature : forall v, respects (set__temperature E v) P
}.

(** The port right after the command [c] has been written to [p]. *)
Definition reply (c : string) (p : Serial.port E) : Serial.port E :=
  Serial.write c (Serial.reset_input_buffer p).

Definition with_port (p : Serial.port E) (w : World E) : World E :=
  {| self := set__serial_port E (Some p) (self w); trace := trace w |}.

Definition logged (evs : list event) (w : World E) : World E :=
  {| self := self w; trace := (trace w ++ evs)%list |}.

(** What [readline_str] yields on port [p]. *)
Definition line_read (p : Serial.port E) : Res string :=
  match decode_ascii (fst (Serial.readline p)) with
  | Ok s => Ok (strip s)
  | Raise e => Raise e
  | Hang => Hang
  end.

(** The hub does not acknowledge command [c] sent on port [p]: the
    first line read after the write is [line], not ["!"]. *)
Definition nack (p : Serial.port E) (c line : string) : Prop :=
  is_ascii c = true /\ line_read (reply c p) = Ok line /\ line <> "!".

(** The hub acknowledges [c] and confirms with [word]. *)
Definition acked (p : Serial.port E) (c word : string) : Prop :=
  is_ascii c = true /\ line_read (reply c p) = Ok "!" /\
  line_read (snd (Serial.readline (reply c p))) = Ok word.

Definition nack_message (c line : string) : string :=
  "Error setting parameter using command '" ++ c ++ "': " ++ line.

Definition status_cmd (n : Z) : string := "<F" ++ format_1d n ++ "GETSTATUS>".

(** The attributes that [move_to] and [halt] read are there. *)
Definition ready (w : World E) (p : Serial.port E) (n lo hi : Z) (u : string) : Prop :=
  _serial_port (self w) = Some (Some p) /\
  _focuser_number (self w) = Some n /\
  _min_position (self w) = Some lo /\
  _max_position (self w) = Some hi /\
  exists cfg, _focuser_config (self w) = Some (Some cfg) /\
              dict_get "Nickname" cfg = Some u.

(** The target that the range check of [move_to] leaves in [position]. *)
Definition clamp (lo hi requested : Z) : Z :=
  if requested <? lo then lo else if hi <? requested then hi else requested.

Definition too_low (lo requested : Z) : string :=
  "Requested position " ++ str_int requested
  ++ " less than min position, moving to " ++ str_int lo ++ "!".

Definition too_high (hi requested : Z) : string :=
  "Requested position " ++ str_int requested
  ++ " greater than max position, moving to " ++ str_int hi ++ "!".

(** What the range check logs and warns. *)
Definition range_events (lo hi requested : Z) : list event :=
  if requested <? lo then
    [Log ERROR (too_low lo requested); Warn (too_low lo requested)]
  else if hi <? requested then
    [Log ERROR (too_high hi requested); Warn (too_high hi requested)]
  else [].

Definition moving_events (lo hi requested : Z) (u : string) : list event :=
  range_events lo hi requested
  ++ [Log DEBUG ("Moving focuser " ++ u ++ " to "
                 ++ str_int (clamp lo hi requested))%string].

(** [move_to] after the move command has been exchanged (lines 208-219). *)
Definition arrive (fuel : nat) (blocking : bool) (target : Z) : M E Z :=
  if blocking then
    wait_while_moving E fuel ;;
    pos <- position E ;;
    tgt <- getattr E "_target_position" _target_position ;;
    (if negb (pos =? tgt) then
       u <- uid E ;;
       tgt <- getattr E "_target_position" _target_position ;;
       pos <- getattr E "_position" _position ;;
       let message := ("Focuser " ++ u ++ " did not reach target position "
                       ++ str_int tgt ++ ", now at " ++ str_int pos ++ "!")%string in
       logger E WARNING message ;;
       warn E message
     else ret tt) ;;
    getattr E "_position" _position
  else ret target.

(** The commands written so far start with [X]. *)
Definition sends (X : list string) (w : World E) : Prop :=
  exists more, sent_of w = (X ++ more)%list.

(** The trace so far starts with [T]. *)
Definition traced (T : list event) (w : World E) : Prop :=
  exists later, trace w = (T ++ later)%list.

(** *** Construction *)

(** The lower limit that [__init__] stores. *)
Definition lower_bound (a : init_args) : Z :=
  if 0 <=? arg_min_position a then arg_min_position a else 0.

Definition negative_min_events (a : init_args) : list event :=
  if 0 <=? arg_min_position a then []
  else [Warn ("Specified min_position " ++ str_int (arg_min_position a)
              ++ " less than zero, ignoring!")%string].

Definition widening_message (max_position device_max : Z) : string :=
  "Specified max_position " ++ str_int max_position
  ++ " greater than focuser max " ++ str_int device_max ++ "!".

Definition bounds_error : exn :=
  ValueError "Max position must be greater than min position!".

(** The world once [set_bounds] has stored the lower limit. *)
Definition with_min (a : init_args) (w : World E) : World E :=
  logged (negative_min_events a)
         {| self := set__min_position E (lower_bound a) (self w); trace := trace w |}.

Definition with_max (x : Z) (w : World E) : World E :=
  {| self := set__max_position E x (self w); trace := trace w |}.

(** No attribute that [__init__] assigns after connecting exists. *)
Definition uninitialised (f : Focuser E) : Prop :=
  _focuser_number f = None /\ _hub_info f = None /\
  _focuser_config f = None /\ _focuser_status f = None /\
  _position f = None /\ _target_position f = None /\
  _is_moving f = None /\ _temperature f = None /\
  _min_position f = None /\ _max_position f = None.

(** The object holds no open port. *)
Definition no_port (f : Focuser E) : Prop :=
  _serial_port f = None \/ _serial_port f = Some None.

(** The attributes that only a status query assigns, and the limits. *)
Definition same_state (f f' : Focuser E) : Prop :=
  _position f' = _position f /\
  _target_position f' = _target_position f /\
  _is_moving f' = _is_moving f /\
  _temperature f' = _temperature f /\
  _min_position f' = _min_position f /\
  _max_position f' = _max_position f.

(** The limits of travel. *)
Definition same_bounds (f f' : Focuser E) : Prop :=
  _min_position f' = _min_position f /\ _max_position f' = _max_position f.

End Props.

(** The body of an info block: the lines before the first ["END"]. *)
Fixpoint before_END (ls : list string) : list string :=
  match ls with
  | [] => []
  | l :: rest => if (l =? "END")%string then [] else l :: before_END rest
  end.

Definition all_ascii (ls : list string) : Prop :=
  Forall (fun l => is_ascii l = true) ls.

Arguments sent_of {E} w.
Arguments stable {E A} P m.
Arguments trace_closed {E} P.
Arguments respects {E} g P.
Arguments port_blind {E} R P.
Arguments same_sent {E} p p'.
Arguments more_sent {E} p p'.
Arguments quiet {E} P.
Arguments reply {E} c p.
Arguments with_port {E} p w.
Arguments logged {E} evs w.
Arguments line_read {E} p.
Arguments nack {E} p c line.
Arguments acked {E} p c word.
Arguments ready {E} w p n lo hi u.
Arguments with_min {E} a w.
Arguments with_max {E} x w.
Arguments uninitialised {E} f.
Arguments no_port {E} f.
Arguments same_state {E} f f'.
Arguments same_bounds {E} f f'.

End FocusLynxProps.

(* ================================================================== *)
(** ** Vocabulary of the mount's properties *)
(* ================================================================== *)

Module MountProps.
Import Mount.

(** No transport has been opened. *)
Definition closed (w : World) : Prop :=
  serial (self w) = None /\ forall address, ~ In (Opened address) (trace w).

End MountProps.

(* ================================================================== *)
(** ** Scenarios on the simulated hub *)
(* ================================================================== *)

Module Scenario.
Import FocusLynx.

(** A hub that acknowledges every command of the scenario. *)
Definition healthy : Env := Sim.env (Sim.hub "Sim" 100).

(** A hub that stops acknowledging after the three queries of
    initialisation. *)
Definition failing : Env := Sim.env (Sim.hub "Sim" 3).

(** A hub that acknowledges nothing. *)
Definition dead : Env := Sim.env (Sim.hub "Sim" 0).

(** A hub whose focuser has been given a nickname with an equals sign. *)
Definition renamed : Env := Sim.env (Sim.hub "a=b" 100).

(** The focuser that [Focuser(port=..., min_position=lo, max_position=hi)]
    leaves behind, with the trace of its construction. *)
Definition built (E : Env) (lo : Z) (hi : option Z) : World E :=
  snd (__init__ E 0 (Sim.args Sim.tty lo hi) (fresh E (Sim.args Sim.tty lo hi))).

(** The port of a simulated focuser. *)
Definition port_of {d : Sim.dev} (w : World (Sim.env d)) : Serial.port (Sim.env d) :=
  match _serial_port (self w) with
  | Some (Some p) => p
  | _ => @Serial.open (Sim.env d) d
  end.

Definition has_port {E : Env} (w : World E) : bool :=
  match _serial_port (self w) with
  | Some (Some _) => true
  | _ => false
  end.

(** The call has returned. *)
Definition returned {A : Type} (r : Res A) : bool :=
  match r with
  | Ok _ => true
  | _ => false
  end.

(** How a call ended, without the value it returned. *)
Definition outcome {A : Type} (r : Res A) : Res unit :=
  match r with
  | Ok _ => Ok tt
  | Raise e => Raise e
  | Hang => Hang
  end.

(** A command table with a slew command and no park command. *)
Definition table : dict string := [("slew", "MS"); ("slewing", "SE?")].

(** A mount as a subclass that keeps the first [setup_commands] would
    leave it: the wrapping tokens and the table stored, the transport
    opened, one answer of the hardware pending. *)
Definition mount : Mount.World :=
  snd ((Mount.modify (Mount.set_serial_port (Mount.VStr Sim.tty)) ;;
        c <- Mount.setup_commands_61 table ;;
        Mount.modify (Mount.set_commands c) ;;
        Mount.create_serial)
         {| Mount.self := Mount.empty; Mount.trace := []; Mount.line := ["0#"] |}).

End Scenario.

(* ================================================================== *)
(** ** pocs/focuser/focuslynx.py: the remaining properties *)
(* ================================================================== *)

Module FocusLynxInfo.
Import FocusLynx.

Section Info.
Variable E : Env.

(** [Serial.isOpen()]: a port of the model is open from [serial.Serial]
    on; only [__del__] closes it, when the object is already gone. *)
Definition isOpen (p : Serial.port E) : bool := true.

(** [is_connected]: [None] is false, a port object is true. *)
Definition is_connected : M E bool :=
  sp <- getattr E "_serial_port" _serial_port ;;
  match sp with
  | Some p => ret (isOpen p)
  | None => ret false
  end.

(** [firmware_version] *)
Definition firmware_version : M E string :=
  hub <- getattr E "_hub_info" _hub_info ;;
  subscript E hub "Hub FVer".

(** [hardware_version] *)
Definition hardware_version : M E string := attr E model.

End Info.
End FocusLynxInfo.

(* ================================================================== *)
(** ** Vocabulary of the focuser's wire protocol *)
(* ================================================================== *)

Module FocusLynxWire.
Import FocusLynx FocusLynxProps.

(** A body line of an info block, as the hub sends it. *)
Definition body_line (kv : string * string) : string :=
  (fst kv ++ String "=" (snd kv))%string.

(** Key and value hold no equals sign and only ASCII characters. *)
Definition well_formed (kv : string * string) : Prop :=
  contains "=" (fst kv) = false /\ contains "=" (snd kv) = false /\
  is_ascii (fst kv) = true /\ is_ascii (snd kv) = true.

(** One pass of the loop body: [info[key] = value] with both trimmed. *)
Definition store (info : dict string) (kv : string * string) : dict string :=
  dict_set (strip (fst kv)) (strip (snd kv)) info.

(** The record of the pairs [kvs], assigned in this order. *)
Definition of_pairs (kvs : list (string * string)) : dict string :=
  fold_left store kvs [].

(** The value of the last pair with key [k]. *)
Fixpoint last_value (k : string) (kvs : list (string * string)) : option string :=
  match kvs with
  | [] => None
  | kv :: rest =>
      match last_value k rest with
      | Some v => Some v
      | None => if (k =? strip (fst kv))%string then Some (strip (snd kv)) else None
      end
  end.

(** Reading the next line and going on with the loop of [_send_command]. *)
Definition next_line (lines : list string) (info : dict string)
  : Res (dict string) * list string :=
  match lines with
  | l :: rest =>
      match decode_ascii l with
      | Ok s => info_loop rest (strip s) info
      | Raise e => (Raise e, rest)
      | Hang => (Hang, rest)
      end
  | [] =>
      match key_value (strip EmptyString) with
      | Raise e => (Raise e, [])
      | _ => (Hang, [])
      end
  end.

Definition config_cmd (n : Z) : string := "<F" ++ format_1d n ++ "GETCONFIG>".

Definition hub_cmd : string := "<FHGETHUBINFO>".

(** The command of the [uid] setter. *)
Definition nickname_cmd (n : Z) (nickname : string) : string :=
  "<F" ++ format_1d n ++ "SCNN" ++ nickname ++ ">".

Definition truncation_message (nickname : string) : string :=
  "Truncated nickname " ++ nickname ++ " to " ++ substring 0 16 nickname
  ++ " (must be <= 16 characters)".

(** The four command types that [_send_command] knows. *)
Definition known_type (command_type : string) : bool :=
  (command_type =? "GET INFO")%string || (command_type =? "SET PARAM")%string ||
  (command_type =? "MOVE")%string || (command_type =? "HALT")%string.

(** The word that [_send_command] asserts after the acknowledgment. *)
Definition confirmation (ty : string) (h : option string) : option string :=
  if (ty =? "GET INFO")%string then h
  else if (ty =? "SET PARAM")%string then Some "SET"
  else if (ty =? "MOVE")%string then Some "M"
  else if (ty =? "HALT")%string then Some "HALTED"
  else None.

(** What the [uid] setter logs. *)
Definition nickname_events (nickname : string) : list event :=
  if (16 <? String.length nickname)%nat
  then [Log WARNING (truncation_message nickname)]
  else [].

Section Wire.
Variable E : Env.

(** The object holds an open port on which exactly [X] has been written. *)
Definition wrote (X : list string) (w : World E) : Prop :=
  exists p, _serial_port (self w) = Some (Some p) /\ Serial.sent p = X.

(** The object controls focuser number [n] of the hub. *)
Definition numbered (n : Z) (w : World E) : Prop :=
  _focuser_number (self w) = Some n.

(** Port [p] with the lines [unread] waiting in its input buffer. *)
Definition with_waiting (unread : list string) (p : Serial.port E) : Serial.port E :=
  {| Serial.device := Serial.device p;
     Serial.in_waiting := unread;
     Serial.sent := Serial.sent p |}.

(** The hub answers command [c] on port [p] with a complete info block:
    the acknowledgment, the header [h], the body lines of [kvs] and the
    terminator, each possibly with white space around it; [extra] is
    what it sends after the block. *)
Definition answers_block (p : Serial.port E) (c h : string)
           (kvs : list (string * string)) (extra : list string) : Prop :=
  is_ascii c = true /\
  exists ack hdr fin,
    Serial.in_waiting (reply c p) =
      (ack :: hdr :: map body_line kvs ++ fin :: extra)%list /\
    is_ascii ack = true /\ strip ack = "!" /\
    is_ascii hdr = true /\ strip hdr = h /\
    is_ascii fin = true /\ strip fin = "END" /\
    Forall well_formed kvs.

(** The world after a status query has stored [rec] and the four values
    read from it. *)
Definition with_status (rec : dict string) (pos tgt : Z) (moving : bool)
           (temp : PyFloat E) (w : World E) : World E :=
  {| self := set__temperature E temp
               (set__is_moving E moving
                  (set__target_position E tgt
                     (set__position E pos
                        (set__focuser_status E (Some rec) (self w)))));
     trace := trace w |}.

(** The number of one-second sleeps on a trace. *)
Fixpoint sleeps (t : list event) : nat :=
  match t with
  | [] => O
  | Sleep _ :: r => S (sleeps r)
  | _ :: r => sleeps r
  end.

End Wire.

Arguments wrote {E} X w.
Arguments numbered {E} n w.
Arguments with_waiting {E} unread p.
Arguments answers_block {E} p c h kvs extra.
Arguments with_status {E} rec pos tgt moving temp w.

End FocusLynxWire.

(* ================================================================== *)
(** ** Vocabulary of the mount's queries *)
(* ================================================================== *)

Module MountWire.
Import Mount.

(** The wrapping tokens, the command table and the transport are set. *)
Definition wired (w : World) (pre post : string) (tbl : dict string)
           (d : SerialData) : Prop :=
  _pre_cmd (self w) = Some pre /\ commands (self w) = Some tbl /\
  _post_cmd (self w) = Some post /\ serial (self w) = Some d.

(** What [get_command] makes of a command name. *)
Definition frame (pre post : string) (tbl : dict string) (cmd : string) : string :=
  (pre ++ str_command (dict_get cmd tbl) ++ post)%string.

(** A caller that puts one query after the other. *)
Fixpoint queries (cmds : list string) : M (list string) :=
  match cmds with
  | [] => ret []
  | cmd :: rest =>
      r <- serial_query cmd ;;
      rs <- queries rest ;;
      ret (r :: rs)
  end.

(** What [k] reads in a row yield: the pending responses in their order,
    then the empty string of a read that finds nothing. *)
Fixpoint responses (k : nat) (pending : list string) : list string :=
  match k with
  | O => []
  | S k' =>
      match pending with
      | [] => EmptyString :: responses k' []
      | r :: rest => r :: responses k' rest
      end
  end.

(** The transport after one more write and one more read. *)
Definition exchanged (s : string) (d : SerialData) : SerialData :=
  snd (SerialData_read (SerialData_write s d)).

(** The two records that one query logs. *)
Definition query_log (sent received : string) : list event :=
  [Log DEBUG ("Mount Send: " ++ sent)%string;
   Log DEBUG ("Mount Read: " ++ received)%string].

(** [bool(v)] *)
Definition truthy (v : value) : bool :=
  match v with
  | VNone => false
  | VBool b => b
  | VStr s => negb (s =? "")%string
  end.

End MountWire.

(* ================================================================== *)
(** ** scripts/pyro_name_server.py: the address to bind the server on *)
(* ================================================================== *)

Module NameServer.

(** How the search for the address can end without one. *)
Inductive failure : Type := IndexError | AssertionError.

(** [[address for address in addresses if address.split('.')[i] == b]]:
    the condition is evaluated address by address, and an address with
    too few dots ends the comprehension with [IndexError]. *)
Fixpoint filter_byte (i : nat) (b : string) (addresses : list string)
  : failure + list string :=
  match addresses with
  | [] => inr []
  | address :: rest =>
      match nth_error (split "." address) i with
      | None => inl IndexError
      | Some x =>
          match filter_byte i b rest with
          | inl e => inl e
          | inr kept => inr (if (x =? b)%string then address :: kept else kept)
          end
      end
  end.

(** Lines 26 to 33: with more than one address, keep those that start
    like the gateway, first on one byte and then on two. *)
Definition narrow (gateway_IP : string) (addresses : list string)
  : failure + list string :=
  if (1 <? List.length addresses)%nat then
    match nth_error (split "." gateway_IP) 0 with
    | None => inl IndexError
    | Some byte1 =>
        match filter_byte 0 byte1 addresses with
        | inl e => inl e
        | inr addresses =>
            if (1 <? List.length addresses)%nat then
              match nth_error (split "." gateway_IP) 1 with
              | None => inl IndexError
              | Some byte2 => filter_byte 1 byte2 addresses
              end
            else inr addresses
        end
    end
  else inr addresses.

(** Lines 26 to 36: [assert len(addresses) == 1; host = addresses[0]]. *)
Definition determine_host (gateway_IP : string) (addresses : list string)
  : failure + string :=
  match narrow gateway_IP addresses with
  | inl e => inl e
  | inr [host] => inr host
  | inr _ => inl AssertionError
  end.

(** [address.split('.')[i]], when there is such an item. *)
Definition byte (i : nat) (address : string) : option string :=
  nth_error (split "." address) i.

(** [address] has the text [b] as its item [i]. *)
Definition has_byte (i : nat) (b : string) (address : string) : bool :=
  match byte i address with
  | Some x => (x =? b)%string
  | None => false
  end.

End NameServer.

(* ================================================================== *)
(** ** panoptes/scheduler/observation.py *)
(* ================================================================== *)

Module Observation.

(** The exceptions of this module. *)
Inductive error : Type :=
| AttributeError (attr : string)
| IndexError (msg : string)
| ValueError (msg : string)
| InvalidCommand (msg : string)
| OtherError (msg : string).

(** [except error.InvalidCommand] *)
Definition is_InvalidCommand (e : error) : bool :=
  match e with
  | InvalidCommand _ => true
  | _ => false
  end.

(** [value * u.s] *)
Inductive Quantity : Type := seconds (value : Z).

(** What the module uses of a camera object. *)
Record Camera : Type := {
  cam_name : string;
  uid : string;
  is_primary : bool
}.

(** The [cameras] argument of an [Exposure]: [_create_exposures] passes a
    list, [expose] expects a mapping from names to cameras. *)
Inductive Cameras : Type :=
| CameraList (l : list Camera)
| CameraDict (d : list (string * Camera)).

(** What a logger of an exposure receives. *)
Inductive note : Type :=
| Info (cam_name img_file : string)
| AlreadyRunning (cam_name : string)
| Problem (e : error).

(** The attributes of an [Exposure].  [images] is an [OrderedDict], of
    which the module uses the keys in their order.  The class assigns no
    [logger]: the attribute is [None] unless the caller has attached
    one. *)
Record Exposure : Type := {
  exptime : Quantity;
  filter_type : option string;
  analyze : bool;
  cameras : Cameras;
  images : list string;
  _images_exist : bool;
  _is_exposing : bool;
  _exposed : bool;
  logger : option (list note)
}.

(** [Exposure.__init__] *)
Definition Exposure__init__ (exptime : Quantity) (filter_type : option string)
           (analyze : bool) (cameras : Cameras) : Exposure :=
  {| exptime := exptime; filter_type := filter_type; analyze := analyze;
     cameras := cameras; images := [];
     _images_exist := false; _is_exposing := false; _exposed := false;
     logger := None |}.

Definition set__exposed (v : bool) (x : Exposure) : Exposure :=
  {| exptime := exptime x; filter_type := filter_type x; analyze := analyze x;
     cameras := cameras x; images := images x;
     _images_exist := _images_exist x; _is_exposing := _is_exposing x;
     _exposed := v; logger := logger x |}.

Definition set__is_exposing (v : bool) (x : Exposure) : Exposure :=
  {| exptime := exptime x; filter_type := filter_type x; analyze := analyze x;
     cameras := cameras x; images := images x;
     _images_exist := _images_exist x; _is_exposing := v;
     _exposed := _exposed x; logger := logger x |}.

Definition set_logger (v : list note) (x : Exposure) : Exposure :=
  {| exptime := exptime x; filter_type := filter_type x; analyze := analyze x;
     cameras := cameras x; images := images x;
     _images_exist := _images_exist x; _is_exposing := _is_exposing x;
     _exposed := _exposed x; logger := Some v |}.

(** The cameras on which [take_exposure] has returned an image file, in
    the order of the calls. *)
Definition started : Type := list (Camera * Quantity).

(** What the logger of an observation receives. *)
Inductive record : Type :=
| Debug (message : string)
| DebugComplete (exp_type : string) (complete : bool)
| DebugExposures (exp_type : string) (count : nat)
| DebugDuration (duration : Quantity)
| Warning (e : error).

(** The attributes of an [Observation]; [exposures] is the dict with the
    keys ['primary'] and ['secondary'], in this order.  The four
    attributes that [estimate_duration] reads are [None] until somebody
    assigns them. *)
Record Observation : Type := {
  primary : list Exposure;
  secondary : list Exposure;
  _current_exposure : nat;
  log : list record;
  primary_exptime : option Quantity;
  primary_nexp : option Z;
  secondary_exptime : option Quantity;
  secondary_nexp : option Z
}.

(** The entries of [obs_config] that the module reads, when present. *)
Record obs_config : Type := {
  cfg_primary_exptime : option Z;
  cfg_primary_filter : option string;
  cfg_primary_nexp : option Z;
  cfg_primary_analyze : option bool;
  cfg_secondary_exptime : option Z;
  cfg_secondary_nexp : option Z;
  cfg_secondary_filter : option string
}.

(** [obs_config.get(key, default)] *)
Definition get {A} (v : option A) (default : A) : A :=
  match v with
  | Some a => a
  | None => default
  end.

(** [[item for n in range(k)]] with an item that does not use [n]. *)
Definition for_range {A} (k : Z) (item : A) : list A := repeat item (Z.to_nat k).

(** [[c for c in cameras.values() if <test>]]; [cameras] defaults to
    [None], which has no [values]. *)
Definition select (cameras : option (list (string * Camera)))
           (test : Camera -> bool) : error + list Camera :=
  match cameras with
  | None => inl (AttributeError "values")
  | Some d => inr (filter test (map snd d))
  end.

(** One list comprehension of [_create_exposures]: the [Exposure(...)]
    expression is evaluated once per item of the range, and not at all
    for an empty range. *)
Definition exposures_of (k : Z) (exptime : Quantity) (filter_type : option string)
           (analyze : bool) (cams : error + list Camera) : error + list Exposure :=
  if k <=? 0 then inr []
  else
    match cams with
    | inl e => inl e
    | inr l => inr (for_range k (Exposure__init__ exptime filter_type analyze
                                                  (CameraList l)))
    end.

(** The exposures of one type, as [_create_exposures] makes them. *)
Definition made (q : Quantity) (f : option string) (a : bool)
           (test : Camera -> bool) (cameras : option (list (string * Camera)))
           (x : Exposure) : Prop :=
  exptime x = q /\ filter_type x = f /\ analyze x = a /\
  images x = [] /\ _is_exposing x = false /\ logger x = None /\
  forall d, cameras = Some d ->
            Observation.cameras x = CameraList (filter test (map snd d)).

(** [_create_exposures] *)
Definition _create_exposures (c : obs_config)
           (cameras : option (list (string * Camera)))
  : (error + (list Exposure * list Exposure)) * list record :=
  let primary_exptime := seconds (get (cfg_primary_exptime c) 120) in
  let primary_filter := cfg_primary_filter c in
  let primary_nexp := get (cfg_primary_nexp c) 1 in
  let analyze := get (cfg_primary_analyze c) false in
  match exposures_of primary_nexp primary_exptime primary_filter analyze
                     (select cameras is_primary) with
  | inl e => (inl e, [Debug "Creating exposures"])
  | inr primary_exposures =>
      let secondary_exptime := seconds (get (cfg_secondary_exptime c) 120) in
      let secondary_nexp := get (cfg_secondary_nexp c) primary_nexp in
      let secondary_filter := cfg_secondary_filter c in
      match exposures_of secondary_nexp secondary_exptime secondary_filter false
                         (select cameras (fun cam => negb (is_primary cam))) with
      | inl e =>
          (inl e, [Debug "Creating exposures";
                   DebugExposures "Primary" (List.length primary_exposures)])
      | inr secondary_exposures =>
          (inr (primary_exposures, secondary_exposures),
           [Debug "Creating exposures";
            DebugExposures "Primary" (List.length primary_exposures);
            DebugExposures "Secondary" (List.length secondary_exposures)])
      end
  end.

(** [Observation.__init__]: the caller gets the object only when the
    exposures could be created. *)
Definition __init__ (c : obs_config) (cameras : option (list (string * Camera)))
  : error + Observation :=
  match _create_exposures c cameras with
  | (inl e, _) => inl e
  | (inr (p, s), l) =>
      inr {| primary := p; secondary := s; _current_exposure := 0; log := l;
             primary_exptime := None; primary_nexp := None;
             secondary_exptime := None; secondary_nexp := None |}
  end.

Definition set__current_exposure (v : nat) (o : Observation) : Observation :=
  {| primary := primary o; secondary := secondary o; _current_exposure := v;
     log := log o;
     primary_exptime := primary_exptime o; primary_nexp := primary_nexp o;
     secondary_exptime := secondary_exptime o;
     secondary_nexp := secondary_nexp o |}.

Definition obs_logger (r : record) (o : Observation) : Observation :=
  {| primary := primary o; secondary := secondary o;
     _current_exposure := _current_exposure o; log := log o ++ [r];
     primary_exptime := primary_exptime o; primary_nexp := primary_nexp o;
     secondary_exptime := secondary_exptime o;
     secondary_nexp := secondary_nexp o |}.

(** [current_exposure]: the list [[primary, secondary]]. *)
Definition current_exposure (o : Observation) : error + list Exposure :=
  match nth_error (primary o) (_current_exposure o) with
  | None => inl (IndexError "list index out of range")
  | Some p =>
      match nth_error (secondary o) (_current_exposure o) with
      | None => inl (IndexError "list index out of range")
      | Some s => inr [p; s]
      end
  end.

(** [get_next_exposure] is a generator function: it yields
    [self.current_exposure], and when it is resumed it advances the
    counter and ends.  Iterating it to its end gives the items yielded
    and the object it leaves. *)
Definition get_next_exposure (o : Observation)
  : (error + list (list Exposure)) * Observation :=
  match current_exposure o with
  | inl e => (inl e, o)
  | inr item => (inr [item], set__current_exposure (_current_exposure o + 1) o)
  end.

(** [a, b = <iterable>] *)
Definition unpack2 {A} (items : list A) : error + (A * A) :=
  match items with
  | [a; b] => inr (a, b)
  | [] => inl (ValueError "not enough values to unpack (expected 2, got 0)")
  | [_] => inl (ValueError "not enough values to unpack (expected 2, got 1)")
  | _ => inl (ValueError "too many values to unpack (expected 2)")
  end.

(** [take_exposure].  The assignment [primary, secondary =
    self.get_next_exposure()] iterates the generator: it asks for a
    second item after the first, which resumes the generator to its end.
    What it would bind are items of the generator, lists, and a list has
    no [expose]: the [try] block would end in its handler. *)
Definition take_exposure (o : Observation) : (error + unit) * Observation :=
  match get_next_exposure o with
  | (inl e, o') => (inl e, o')
  | (inr items, o') =>
      match unpack2 items with
      | inl e => (inl e, o')
      | inr (primary, secondary) =>
          (inr tt, obs_logger (Warning (AttributeError "expose")) o')
      end
  end.

(** [max([a, b])] on quantities: the first of the largest. *)
Definition max2 (a b : Quantity) : Quantity :=
  match a, b with
  | seconds x, seconds y => if x <? y then b else a
  end.

(** [estimate_duration] *)
Definition estimate_duration (o : Observation) (overhead : Quantity)
  : (error + Quantity) * Observation :=
  match primary_exptime o with
  | None => (inl (AttributeError "primary_exptime"), o)
  | Some (seconds pe) =>
      match primary_nexp o with
      | None => (inl (AttributeError "primary_nexp"), o)
      | Some pn =>
          match secondary_exptime o with
          | None => (inl (AttributeError "secondary_exptime"), o)
          | Some (seconds se) =>
              match secondary_nexp o with
              | None => (inl (AttributeError "secondary_nexp"), o)
              | Some sn =>
                  let ov := match overhead with seconds v => v end in
                  let duration := max2 (seconds ((pe + ov) * pn))
                                       (seconds ((se + ov) * sn)) in
                  (inr duration, obs_logger (DebugDuration duration) o)
              end
          end
      end
  end.

Section Files.
(** [os.path.exists] *)
Variable path_exists : string -> bool.
(** [cam.take_exposure(seconds=...)]: the image file, or an exception *)
Variable cam_take_exposure : Camera -> Quantity -> error + string.

(** [images_exist]: stores the answer in [_exposed] and returns it. *)
Definition images_exist (x : Exposure) : bool * Exposure :=
  let e := forallb path_exists (images x) in
  (e, set__exposed e x).

(** [exposed] *)
Definition exposed (x : Exposure) : bool * Exposure := images_exist x.

(** [is_exposing] *)
Definition is_exposing (x : Exposure) : bool := _is_exposing x.

(** [has_images] *)
Definition has_images (x : Exposure) : bool := (0 <? List.length (images x))%nat.

(** [complete]: [not self.images_exist and not self.is_exposing]. *)
Definition complete (x : Exposure) : bool * Exposure :=
  let (e, x') := images_exist x in
  if negb e then (negb (is_exposing x'), x') else (false, x').

(** The body of the [for] loop of [expose], lines 73 to 85, for one
    camera.  [self.images.append] ends it: an [OrderedDict] has no
    [append]. *)
Definition expose_one (name : string) (cam : Camera) (x : Exposure) (st : started)
  : (error + unit) * Exposure * started :=
  match cam_take_exposure cam (exptime x) with
  | inl e => (inl e, x, st)
  | inr img_file =>
      let x := set__is_exposing true x in
      let st := st ++ [(cam, exptime x)] in
      match logger x with
      | None => (inl (AttributeError "logger"), x, st)
      | Some l =>
          (inl (AttributeError "append"),
           set_logger (l ++ [Info name img_file]) x, st)
      end
  end.

Fixpoint for_cameras (items : list (string * Camera)) (x : Exposure) (st : started)
  : (error + unit) * Exposure * started :=
  match items with
  | [] => (inr tt, x, st)
  | (name, cam) :: rest =>
      match expose_one name cam x st with
      | (inr _, x', st') => for_cameras rest x' st'
      | r => r
      end
  end.

(** The [try] block of [expose], lines 66 to 85; [name] is the camera
    that the loop has reached. *)
Definition expose_body (x : Exposure) (st : started)
  : (error + unit) * Exposure * started :=
  match cameras x with
  | CameraList _ => (inl (AttributeError "items"), x, st)
  | CameraDict d => for_cameras d x st
  end.

(** [expose]: each handler calls [self.logger.warning] and then resets
    [_is_exposing]. *)
Definition expose (x : Exposure) (st : started)
  : (error + unit) * Exposure * started :=
  match expose_body x st with
  | (inr u, x', st') => (inr u, x', st')
  | (inl e, x', st') =>
      match logger x' with
      | None => (inl (AttributeError "logger"), x', st')
      | Some l =>
          let warning :=
            if is_InvalidCommand e
            then AlreadyRunning (match cameras x' with
                                 | CameraDict ((_, cam) :: _) => cam_name cam
                                 | _ => EmptyString
                                 end)
            else Problem e in
          (inr tt, set__is_exposing false (set_logger (l ++ [warning]) x'), st')
      end
  end.

(** The inner loop of [has_exposures] over the exposures of one type:
    [exp.complete] is read twice for each, once for the log record and
    once for the list. *)
Fixpoint completes (exp_type : string) (exps : list Exposure)
  : list bool * list Exposure * list record :=
  match exps with
  | [] => ([], [], [])
  | x :: rest =>
      let (c1, x1) := complete x in
      let (c2, x2) := complete x1 in
      let '(cs, rest', rs) := completes exp_type rest in
      (c2 :: cs, x2 :: rest', DebugComplete exp_type c1 :: rs)
  end.

(** [has_exposures] *)
Definition has_exposures (o : Observation) : bool * Observation :=
  let '(cp, p', rp) := completes "primary" (primary o) in
  let '(cs, s', rs) := completes "secondary" (secondary o) in
  let has_exposures := negb (forallb (fun b => b) (cp ++ cs)) in
  (has_exposures,
   {| primary := p'; secondary := s';
      _current_exposure := _current_exposure o;
      log := log o ++ [Debug "Checking if observation has exposures"]
                 ++ rp ++ rs
                 ++ [Debug ("Observation has exposures: "
                            ++ (if has_exposures then "True" else "False"))];
      primary_exptime := primary_exptime o; primary_nexp := primary_nexp o;
      secondary_exptime := secondary_exptime o;
      secondary_nexp := secondary_nexp o |}).

End Files.

End Observation.

(* ================================================================== *)
(** ** An observation to run the model on *)
(* ================================================================== *)

Module ObservationScenario.
Import Observation.

(** A camera that starts an exposure and names its image file. *)
Definition ready_camera (cam : Camera) (q : Quantity) : error + string :=
  inr ("/images/" ++ cam_name cam ++ ".cr2")%string.

Definition Cam00 : Camera :=
  {| cam_name := "Cam00"; uid := "83F011"; is_primary := true |}.

Definition Cam01 : Camera :=
  {| cam_name := "Cam01"; uid := "83F012"; is_primary := false |}.

(** Three primary exposures of 300 seconds, nothing said of the
    secondary ones. *)
Definition three_frames : obs_config :=
  {| cfg_primary_exptime := Some 300; cfg_primary_filter := None;
     cfg_primary_nexp := Some 3; cfg_primary_analyze := None;
     cfg_secondary_exptime := None; cfg_secondary_nexp := None;
     cfg_secondary_filter := None |}.

Definition no_config : obs_config :=
  {| cfg_primary_exptime := None; cfg_primary_filter := None;
     cfg_primary_nexp := None; cfg_primary_analyze := None;
     cfg_secondary_exptime := None; cfg_secondary_nexp := None;
     cfg_secondary_filter := None |}.

(** The observation of [three_frames] with the two cameras. *)
Definition session : Observation :=
  match __init__ three_frames (Some [("Cam00", Cam00); ("Cam01", Cam01)]) with
  | inr o => o
  | inl _ => {| primary := []; secondary := []; _current_exposure := 0; log := [];
                primary_exptime := None; primary_nexp := None;
                secondary_exptime := None; secondary_nexp := None |}
  end.

(** An exposure that finished: its image is on disk. *)
Definition finished : Exposure :=
  {| exptime := seconds 120; filter_type := None; analyze := false;
     cameras := CameraDict [("Cam00", Cam00)]; images := ["/images/Cam00.cr2"];
     _images_exist := false; _is_exposing := false; _exposed := false;
     logger := None |}.

End ObservationScenario.

(* ================================================================== *)
(** ** pocs/utils/hdr.py: building the array of imagers *)
(* ================================================================== *)

Module Hdr.

(** The exceptions of [create_imager_array]: those of the built-ins and
    of the constructors it calls, and the one a local name raises when
    it is read before any assignment. *)
Inductive error : Type :=
| Builtin (e : exn)
| UnboundLocalError (name : string).

(** The values of the entries of the performance file. *)
Inductive value : Type :=
| Str (s : string)
| Int (n : Z)
| Ints (l : list Z).

(** The keyword arguments of a constructor: one entry of
    [config['optics']], [config['cameras']], [config['filters']] or
    [config['psfs']]. *)
Definition info : Type := dict value.

(** One entry of [config['imagers']]; a key that is missing is [None]. *)
Record imager_info : Type := {
  i_name : option string;
  i_optic : option string;
  i_camera : option string;
  i_filter : option string;
  i_psf : option string;
  i_num_imagers : option Z;
  i_num_computer : option Z
}.

(** What [load_config('performance')] returns; a key that is missing is
    [None]. *)
Record Config : Type := {
  c_imagers : option (list imager_info);
  c_optics : option (dict info);
  c_cameras : option (dict info);
  c_filters : option (dict info);
  c_psfs : option (dict info)
}.

Definition set_c_cameras (v : dict info) (c : Config) : Config :=
  {| c_imagers := c_imagers c; c_optics := c_optics c; c_cameras := Some v;
     c_filters := c_filters c; c_psfs := c_psfs c |}.

Definition set_c_imagers (v : list imager_info) (c : Config) : Config :=
  {| c_imagers := Some v; c_optics := c_optics c; c_cameras := c_cameras c;
     c_filters := c_filters c; c_psfs := c_psfs c |}.

Definition set_i_camera (v : option string) (i : imager_info) : imager_info :=
  {| i_name := i_name i; i_optic := i_optic i; i_camera := v;
     i_filter := i_filter i; i_psf := i_psf i;
     i_num_imagers := i_num_imagers i; i_num_computer := i_num_computer i |}.

Definition bind {A B} (m : error + A) (k : A -> error + B) : error + B :=
  match m with
  | inl e => inl e
  | inr a => k a
  end.

Declare Scope hdr_scope.
Delimit Scope hdr_scope with hdr.
Notation "x <- m ;; k" := (bind m (fun x => k))
  (at level 61, m at next level, right associativity) : hdr_scope.
Notation "' p <- m ;; k" := (bind m (fun x => let p := x in k))
  (at level 61, p pattern, m at next level, right associativity) : hdr_scope.
Open Scope hdr_scope.

(** [d[k]] for a key of the file. *)
Definition key {A} (k : string) (entry : option A) : error + A :=
  match entry with
  | Some v => inr v
  | None => inl (Builtin (KeyError k))
  end.

(** [d[k]] for a name that is looked up. *)
Definition getitem {V} (k : string) (d : dict V) : error + V :=
  key k (dict_get k d).

(** What a constructor of [signal_to_noise] returns or raises. *)
Definition call {A} (r : exn + A) : error + A :=
  match r with
  | inl e => inl (Builtin e)
  | inr a => inr a
  end.

(** [[int(a) for a in l]] *)
Fixpoint ints (l : list string) : error + list Z :=
  match l with
  | [] => inr []
  | a :: rest =>
      match int a with
      | Ok n => t <- ints rest ;; inr (n :: t)
      | Raise e => inl (Builtin e)
      | Hang => inl (Builtin (ValueError a))
      end
  end.

(** The classes of [pocs.utils.signal_to_noise], of which the function
    uses the constructors only. *)
Record Snr : Type := {
  Optic : Type;
  Camera : Type;
  Filter : Type;
  Moffat_PSF : Type;
  Imager : Type;
  ImagerArray : Type;
  snr_Optic : info -> exn + Optic;
  snr_Camera : info -> exn + Camera;
  snr_Filter : info -> exn + Filter;
  snr_Moffat_PSF : info -> exn + Moffat_PSF;
  snr_Imager :
    Optic -> Camera -> Filter -> Z -> Z -> Moffat_PSF -> exn + Imager;
  snr_ImagerArray : list Imager -> exn + ImagerArray
}.

Section Create.

Variable snr : Snr.

(** The local names of [create_imager_array].  [camera_name] is unbound
    until line 34 has run.  [config] is here because line 42 assigns
    into one of its entries. *)
Record locals : Type := {
  config : Config;
  optics : dict (Optic snr);
  cameras : dict (Camera snr);
  filters : dict (Filter snr);
  psfs : dict (Moffat_PSF snr);
  imagers_list : list (Imager snr);
  camera_name : option string
}.

Definition set_optics (v : dict (Optic snr)) (s : locals) : locals :=
  {| config := config s; optics := v; cameras := cameras s;
     filters := filters s; psfs := psfs s; imagers_list := imagers_list s;
     camera_name := camera_name s |}.

Definition set_cameras (v : dict (Camera snr)) (s : locals) : locals :=
  {| config := config s; optics := optics s; cameras := v;
     filters := filters s; psfs := psfs s; imagers_list := imagers_list s;
     camera_name := camera_name s |}.

Definition set_filters (v : dict (Filter snr)) (s : locals) : locals :=
  {| config := config s; optics := optics s; cameras := cameras s;
     filters := v; psfs := psfs s; imagers_list := imagers_list s;
     camera_name := camera_name s |}.

Definition set_psfs (v : dict (Moffat_PSF snr)) (s : locals) : locals :=
  {| config := config s; optics := optics s; cameras := cameras s;
     filters := filters s; psfs := v; imagers_list := imagers_list s;
     camera_name := camera_name s |}.

Definition set_imagers_list (v : list (Imager snr)) (s : locals) : locals :=
  {| config := config s; optics := optics s; cameras := cameras s;
     filters := filters s; psfs := psfs s; imagers_list := v;
     camera_name := camera_name s |}.

Definition set_camera_name (v : string) (s : locals) : locals :=
  {| config := config s; optics := optics s; cameras := cameras s;
     filters := filters s; psfs := psfs s; imagers_list := imagers_list s;
     camera_name := Some v |}.

Definition set_config (v : Config) (s : locals) : locals :=
  {| config := v; optics := optics s; cameras := cameras s;
     filters := filters s; psfs := psfs s; imagers_list := imagers_list s;
     camera_name := camera_name s |}.

(** Lines 29 and 30. *)
Definition new_optic (c : Config) (optic_name : string)
  : error + (Optic snr) :=
  all <- key "optics" (c_optics c) ;;
  optic_info <- getitem optic_name all ;;
  call (snr_Optic snr optic_info).

(** Lines 41 and 42: a resolution given as a string is replaced, in the
    entry itself, by the list of its integers. *)
Definition resolved (camera_info : info) : error + info :=
  resolution <- getitem "resolution" camera_info ;;
  match resolution with
  | Str s =>
      l <- ints (split "," s) ;;
      inr (dict_set "resolution" (Ints l) camera_info)
  | _ => inr camera_info
  end.

(** Lines 40 to 43, with the configuration as line 42 leaves it. *)
Definition new_camera (c : Config) (camera_name : string)
  : error + (Camera snr * Config) :=
  all <- key "cameras" (c_cameras c) ;;
  camera_info <- getitem camera_name all ;;
  camera_info <- resolved camera_info ;;
  let c := set_c_cameras (dict_set camera_name camera_info all) c in
  camera <- call (snr_Camera snr camera_info) ;;
  inr (camera, c).

(** Lines 54 and 55. *)
Definition new_filter (c : Config) (filter_name : string)
  : error + (Filter snr) :=
  all <- key "filters" (c_filters c) ;;
  filter_info <- getitem filter_name all ;;
  call (snr_Filter snr filter_info).

(** Lines 66 and 67. *)
Definition new_psf (c : Config) (psf_name : string)
  : error + (Moffat_PSF snr) :=
  all <- key "psfs" (c_psfs c) ;;
  psf_info <- getitem psf_name all ;;
  call (snr_Moffat_PSF snr psf_info).

(** Lines 22 to 34.  The assignment to [camera_name] is the last
    statement of the handler: it runs only when the optic was not in the
    cache. *)
Definition the_optic (imager_info : imager_info) (s : locals)
  : error + (Optic snr * locals) :=
  name <- key "name" (i_name imager_info) ;;
  optic_name <- key "optic" (i_optic imager_info) ;;
  match dict_get optic_name (optics s) with
  | Some optic => inr (optic, s)
  | None =>
      optic <- new_optic (config s) optic_name ;;
      let s := set_optics (dict_set optic_name optic (optics s)) s in
      camera_name <- key "camera" (i_camera imager_info) ;;
      inr (optic, set_camera_name camera_name s)
  end.

(** Lines 35 to 46. *)
Definition the_camera (s : locals) : error + (Camera snr * locals) :=
  match camera_name s with
  | None => inl (UnboundLocalError "camera_name")
  | Some camera_name =>
      match dict_get camera_name (cameras s) with
      | Some camera => inr (camera, s)
      | None =>
          '(camera, c) <- new_camera (config s) camera_name ;;
          inr (camera,
               set_cameras (dict_set camera_name camera (cameras s))
                           (set_config c s))
      end
  end.

(** Lines 48 to 58. *)
Definition the_filter (imager_info : imager_info) (s : locals)
  : error + (Filter snr * locals) :=
  filter_name <- key "filter" (i_filter imager_info) ;;
  match dict_get filter_name (filters s) with
  | Some filter => inr (filter, s)
  | None =>
      filter <- new_filter (config s) filter_name ;;
      inr (filter, set_filters (dict_set filter_name filter (filters s)) s)
  end.

(** Lines 60 to 70. *)
Definition the_psf (imager_info : imager_info) (s : locals)
  : error + (Moffat_PSF snr * locals) :=
  psf_name <- key "psf" (i_psf imager_info) ;;
  match dict_get psf_name (psfs s) with
  | Some psf => inr (psf, s)
  | None =>
      psf <- new_psf (config s) psf_name ;;
      inr (psf, set_psfs (dict_set psf_name psf (psfs s)) s)
  end.

(** [imager_info.get(k, 1)] *)
Definition get (entry : option Z) (default : Z) : Z :=
  match entry with
  | Some v => v
  | None => default
  end.

(** The body of the loop, lines 22 to 74. *)
Definition for_imager (imager_info : imager_info) (s : locals)
  : error + locals :=
  '(optic, s) <- the_optic imager_info s ;;
  '(camera, s) <- the_camera s ;;
  '(filter, s) <- the_filter imager_info s ;;
  '(psf, s) <- the_psf imager_info s ;;
  imager <- call (snr_Imager snr optic camera filter
                             (get (i_num_imagers imager_info) 1)
                             (get (i_num_computer imager_info) 1) psf) ;;
  inr (set_imagers_list (imagers_list s ++ [imager]) s).

(** [for imager_info in config['imagers']] *)
Fixpoint for_imagers (l : list imager_info) (s : locals) : error + locals :=
  match l with
  | [] => inr s
  | imager_info :: rest =>
      s <- for_imager imager_info s ;;
      for_imagers rest s
  end.

(** Lines 14 to 18. *)
Definition start (c : Config) : locals :=
  {| config := c; optics := []; cameras := []; filters := []; psfs := [];
     imagers_list := []; camera_name := None |}.

(** [create_imager_array()], given what [load_config('performance')]
    returns. *)
Definition create_imager_array (c : Config) : error + (ImagerArray snr) :=
  l <- key "imagers" (c_imagers c) ;;
  s <- for_imagers l (start c) ;;
  call (snr_ImagerArray snr (imagers_list s)).

(** *** Vocabulary of the statements *)

(** The six arguments of one call of [snr.Imager]. *)
Record parts : Type := {
  p_optic : Optic snr;
  p_camera : Camera snr;
  p_filter : Filter snr;
  p_num_imagers : Z;
  p_num_computer : Z;
  p_psf : Moffat_PSF snr
}.

(** [imager] is what [snr.Imager] returned for these arguments. *)
Definition built (a : parts) (imager : Imager snr) : Prop :=
  snr_Imager snr (p_optic a) (p_camera a) (p_filter a)
             (p_num_imagers a) (p_num_computer a) (p_psf a) = inr imager.

(** The camera that the configuration describes under a name. *)
Definition camera_of (c : Config) (camera_name : string)
  : error + (Camera snr) :=
  '(camera, _) <- new_camera c camera_name ;; inr camera.

(** The optic, the filter and the point spread function of the call are
    those the configuration describes under the names the imager gives,
    and the two numbers are those of the imager, one by default. *)
Definition own_parts (c : Config) (i : imager_info) (a : parts) : Prop :=
  (exists optic_name,
      i_optic i = Some optic_name /\
      new_optic c optic_name = inr (p_optic a)) /\
  (exists filter_name,
      i_filter i = Some filter_name /\
      new_filter c filter_name = inr (p_filter a)) /\
  (exists psf_name,
      i_psf i = Some psf_name /\ new_psf c psf_name = inr (p_psf a)) /\
  p_num_imagers a = get (i_num_imagers i) 1 /\
  p_num_computer a = get (i_num_computer i) 1.

(** The imager names an optic that an earlier imager of the list has
    named. *)
Definition reuses_optic (earlier : list imager_info) (i : imager_info) : Prop :=
  In (i_optic i) (map i_optic earlier).

(** [args], the arguments of the calls of [snr.Imager] in their order,
    go with the imagers [l]: call for call, the optic, the filter, the
    point spread function and the numbers are the imager's own; the
    camera is the imager's own when no earlier imager has named its
    optic, and otherwise it is the camera of the call just before. *)
Definition assembled (c : Config) (l : list imager_info) (args : list parts)
  : Prop :=
  List.length args = List.length l /\
  forall earlier i later,
    l = earlier ++ i :: later ->
    exists before a after,
      args = before ++ a :: after /\
      List.length before = List.length earlier /\
      own_parts c i a /\
      (~ reuses_optic earlier i ->
       exists cn, i_camera i = Some cn /\ camera_of c cn = inr (p_camera a)) /\
      (reuses_optic earlier i ->
       exists before' b,
         before = before' ++ [b] /\ p_camera a = p_camera b).

End Create.

Arguments config {snr} _.
Arguments optics {snr} _.
Arguments cameras {snr} _.
Arguments filters {snr} _.
Arguments psfs {snr} _.
Arguments imagers_list {snr} _.
Arguments camera_name {snr} _.
Arguments p_optic {snr} _.
Arguments p_camera {snr} _.
Arguments p_filter {snr} _.
Arguments p_num_imagers {snr} _.
Arguments p_num_computer {snr} _.
Arguments p_psf {snr} _.

End Hdr.

(* ================================================================== *)
(** ** A performance file with two imagers on one optic *)
(* ================================================================== *)

Module HdrScenario.
Import Hdr.

(** Constructors that keep what they are given: an object is the
    keyword arguments, or the tuple of arguments, it was built from. *)
Definition recording : Snr :=
  {| Optic := info; Camera := info; Filter := info; Moffat_PSF := info;
     Imager := info * info * info * Z * Z * info;
     ImagerArray := list (info * info * info * Z * Z * info);
     snr_Optic := fun optic_info => inr optic_info;
     snr_Camera := fun camera_info => inr camera_info;
     snr_Filter := fun filter_info => inr filter_info;
     snr_Moffat_PSF := fun psf_info => inr psf_info;
     snr_Imager := fun optic camera band num_imagers num_computer psf =>
                     inr (optic, camera, band, num_imagers, num_computer, psf);
     snr_ImagerArray := fun imagers => inr imagers |}.

Definition canon_sbig_g : imager_info :=
  {| i_name := Some "canon_sbig_g"; i_optic := Some "canon";
     i_camera := Some "sbig"; i_filter := Some "g"; i_psf := Some "moffat";
     i_num_imagers := None; i_num_computer := None |}.

Definition canon_zwo_r : imager_info :=
  {| i_name := Some "canon_zwo_r"; i_optic := Some "canon";
     i_camera := Some "zwo"; i_filter := Some "r"; i_psf := Some "moffat";
     i_num_imagers := Some 4; i_num_computer := Some 2 |}.

Definition canon : info := [("aperture", Int 139); ("focal_length", Int 391)].
Definition sbig : info := [("bit_depth", Int 16); ("resolution", Str "3326,2504")].
Definition zwo : info := [("bit_depth", Int 12); ("resolution", Ints [5496; 3672])].
Definition g_band : info := [("band", Str "g")].
Definition r_band : info := [("band", Str "r")].
Definition moffat : info := [("FWHM", Int 2)].

Definition performance : Config :=
  {| c_imagers := Some [canon_sbig_g; canon_zwo_r];
     c_optics := Some [("canon", canon)];
     c_cameras := Some [("sbig", sbig); ("zwo", zwo)];
     c_filters := Some [("g", g_band); ("r", r_band)];
     c_psfs := Some [("moffat", moffat)] |}.

(** The same file without its optics. *)
Definition no_optics : Config :=
  {| c_imagers := c_imagers performance; c_optics := Some [];
     c_cameras := c_cameras performance; c_filters := c_filters performance;
     c_psfs := c_psfs performance |}.

(** The camera [sbig] as line 42 leaves it. *)
Definition sbig_resolved : info :=
  [("bit_depth", Int 16); ("resolution", Ints [3326; 2504])].

(** The array in which both imagers have the camera of the first. *)
Definition both_sbig : ImagerArray recording :=
  [(canon, sbig_resolved, g_band, 1, 1, moffat);
   (canon, sbig_resolved, r_band, 4, 2, moffat)].

(** The first imager with its two numbers written out. *)
Definition canon_sbig_g_1 : imager_info :=
  {| i_name := i_name canon_sbig_g; i_optic := i_optic canon_sbig_g;
     i_camera := i_camera canon_sbig_g; i_filter := i_filter canon_sbig_g;
     i_psf := i_psf canon_sbig_g;
     i_num_imagers := Some 1; i_num_computer := Some 1 |}.

Definition with_numbers : Config :=
  set_c_imagers [canon_sbig_g_1; canon_zwo_r] performance.

(** The array in which each imager has the camera it names. *)
Definition sbig_and_zwo : ImagerArray recording :=
  [(canon, sbig_resolved, g_band, 1, 1, moffat);
   (canon, zwo, r_band, 4, 2, moffat)].

(** [with_numbers] once the resolution of [sbig] has been read. *)
Definition resolved_file : Config :=
  set_c_cameras [("sbig", sbig_resolved); ("zwo", zwo)] with_numbers.

End HdrScenario.

(* ================================================================== *)
(** ** pocs/utils/HDR_module.py: the array of imagers, built on import *)
(* ================================================================== *)

Module HDR_module.
Import Hdr.

(** [try: x = cache[name]] with [except KeyError: x = ...; cache[name] = x]:
    the object and the cache afterwards.  The handler runs only when
    the name is not in the cache. *)
Definition cached {V} (cache : dict V) (name : string) (handler : error + V)
  : error + (V * dict V) :=
  match dict_get name cache with
  | Some x => inr (x, cache)
  | None => x <- handler ;; inr (x, dict_set name x cache)
  end.

Section Create.

Variable snr : Snr.

(** The module's [config] and the local names of
    [create_imager_array]. *)
Record locals : Type := {
  config : Config;
  optics : dict (Optic snr);
  cameras : dict (Camera snr);
  filters : dict (Filter snr);
  psfs : dict (Moffat_PSF snr);
  imagers : dict (Imager snr);
  imagers_list : list (Imager snr)
}.

(** Lines 31 to 43: the camera, the cache and the configuration
    afterwards. *)
Definition the_camera (camera_name : string) (s : locals)
  : error + (Camera snr * dict (Camera snr) * Config) :=
  match dict_get camera_name (cameras s) with
  | Some camera => inr (camera, cameras s, config s)
  | None =>
      '(camera, c) <- new_camera snr (config s) camera_name ;;
      inr (camera, dict_set camera_name camera (cameras s), c)
  end.

(** The body of the loop, lines 17 to 73.  The lines that build an
    optic, a camera, a filter and a point spread function are those of
    [hdr.py]; here the name of the camera is read on every turn, and
    [num_imagers] and [num_computer] have no default. *)
Definition for_imager (imager_info : imager_info) (s : locals)
  : error + locals :=
  name <- key "name" (i_name imager_info) ;;
  optic_name <- key "optic" (i_optic imager_info) ;;
  '(optic, optics) <-
    cached (optics s) optic_name (new_optic snr (config s) optic_name) ;;
  camera_name <- key "camera" (i_camera imager_info) ;;
  '(camera, cameras, config) <- the_camera camera_name s ;;
  filter_name <- key "filter" (i_filter imager_info) ;;
  '(filter, filters) <-
    cached (filters s) filter_name (new_filter snr config filter_name) ;;
  psf_name <- key "psf" (i_psf imager_info) ;;
  '(psf, psfs) <-
    cached (psfs s) psf_name (new_psf snr config psf_name) ;;
  num_imagers <- key "num_imagers" (i_num_imagers imager_info) ;;
  num_computer <- key "num_computer" (i_num_computer imager_info) ;;
  imager <- call (snr_Imager snr optic camera filter
                             num_imagers num_computer psf) ;;
  let imagers := dict_set name imager (imagers s) in
  imager <- getitem name imagers ;;
  inr {| config := config; optics := optics; cameras := cameras;
         filters := filters; psfs := psfs; imagers := imagers;
         imagers_list := imagers_list s ++ [imager] |}.

(** [for imager_info in config['imagers']] *)
Fixpoint for_imagers (l : list imager_info) (s : locals) : error + locals :=
  match l with
  | [] => inr s
  | imager_info :: rest =>
      s <- for_imager imager_info s ;;
      for_imagers rest s
  end.

(** Lines 8 to 13. *)
Definition start (c : Config) : locals :=
  {| config := c; optics := []; cameras := []; filters := []; psfs := [];
     imagers := []; imagers_list := [] |}.

(** [create_imager_array()], given the module's [config]: the array,
    and the [config] that the call leaves behind. *)
Definition create_imager_array (c : Config)
  : error + (ImagerArray snr * Config) :=
  l <- key "imagers" (c_imagers c) ;;
  s <- for_imagers l (start c) ;;
  imager_array <- call (snr_ImagerArray snr (imagers_list s)) ;;
  inr (imager_array, config s).

(** *** Vocabulary of the statements *)

(** Every part of the call is the imager's own: the optic, the filter
    and the point spread function as in [hdr.py], the camera that the
    configuration describes under the imager's ['camera'], and the two
    numbers that the imager gives. *)
Definition described (c : Config) (i : imager_info) (a : parts snr) : Prop :=
  own_parts snr c i a /\
  (exists cn, i_camera i = Some cn /\ camera_of snr c cn = inr (p_camera a)) /\
  i_num_imagers i = Some (p_num_imagers a) /\
  i_num_computer i = Some (p_num_computer a).

End Create.

Arguments config {snr} _.
Arguments optics {snr} _.
Arguments cameras {snr} _.
Arguments filters {snr} _.
Arguments psfs {snr} _.
Arguments imagers {snr} _.
Arguments imagers_list {snr} _.

End HDR_module.

(* ================================================================== *)
(** ** Facts about the built-ins *)
(* ================================================================== *)

Module PyFacts.

Lemma is_ascii_app (a b : string) :
  is_ascii (a ++ b) = is_ascii a && is_ascii b.
Proof.
  induction a as [|c a IH]; simpl.
  - reflexivity.
  - rewrite IH. now rewrite andb_assoc.
Qed.

Lemma is_ascii_uint (d : Decimal.uint) :
  is_ascii (NilEmpty.string_of_uint d) = true.
Proof. induction d; simpl; auto. Qed.

Lemma is_ascii_str_int (n : Z) : is_ascii (str_int n) = true.
Proof.
  unfold str_int, NilZero.string_of_int, NilZero.string_of_uint.
  destruct (Z.to_int n) as [d|d]; destruct d; simpl; auto using is_ascii_uint.
Qed.

Lemma is_ascii_zeros (k : nat) : is_ascii (zeros k) = true.
Proof. induction k; simpl; auto. Qed.

Lemma is_ascii_format_0d (w : nat) (n : Z) : is_ascii (format_0d w n) = true.
Proof.
  unfold format_0d.
  destruct (n <? 0); simpl; rewrite ?is_ascii_app, is_ascii_zeros, is_ascii_str_int;
    reflexivity.
Qed.

(** A string without the separator is a single item. *)
Lemma split_without (sep : ascii) (s : string) :
  contains sep s = false -> split sep s = [s].
Proof.
  induction s as [|c s IH]; simpl; intros H.
  - reflexivity.
  - apply orb_false_iff in H. destruct H as [Hc Hs].
    rewrite Hc, (IH Hs). reflexivity.
Qed.

(** The items are one more than the separators. *)
Lemma split_length (sep : ascii) (s : string) :
  List.length (split sep s) = S (count sep s).
Proof.
  induction s as [|c s IH]; simpl.
  - reflexivity.
  - destruct (Ascii.eqb c sep); simpl.
    + now rewrite IH.
    + destruct (split sep s); simpl in *; congruence.
Qed.

Lemma count_contains (sep : ascii) (s : string) :
  contains sep s = false <-> count sep s = O.
Proof.
  induction s as [|c s IH]; simpl.
  - tauto.
  - destruct (Ascii.eqb c sep); simpl.
    + split; discriminate.
    + exact IH.
Qed.

(** Cutting at the first separator: the head has none. *)
Lemma split_first (sep : ascii) (a b : string) :
  contains sep a = false ->
  split sep (a ++ String sep b) = a :: split sep b.
Proof.
  induction a as [|c a IH]; simpl; intros H.
  - now rewrite Ascii.eqb_refl.
  - apply orb_false_iff in H. destruct H as [Hc Ha].
    rewrite Hc, (IH Ha). reflexivity.
Qed.

Example strip_ex :
  strip (" Max Pos " ++ String "013" (String "010" "")) = "Max Pos".
Proof. reflexivity. Qed.

Example split_ex : split "=" "a=b=c" = ["a"; "b"; "c"].
Proof. reflexivity. Qed.

Example format_ex :
  format_0d 6 4200 = "004200" /\ format_0d 6 (-5) = "-00005" /\
  format_0d 6 1234567 = "1234567" /\ format_1d 1 = "1".
Proof. repeat split; reflexivity. Qed.

Example int_ex :
  int " 7000" = Ok 7000 /\ int "-12" = Ok (-12) /\ int "1_000" = Ok 1000 /\
  int "" = Raise (ValueError "invalid literal for int() with base 10: ''").
Proof. repeat split; reflexivity. Qed.

End PyFacts.

(* ================================================================== *)
(** ** The focuser: reasoning about method bodies *)
(* ================================================================== *)

Module FocusLynxFacts.
Import FocusLynx FocusLynxProps.

Section Facts.
Variable E : Env.
Implicit Type P : World E -> Prop.

(** *** Inversion of a run that returns *)

Lemma bind_ok {A B} (m : M E A) (k : A -> M E B) w b w' :
  bind m k w = (Ok b, w') ->
  exists a w1, m w = (Ok a, w1) /\ k a w1 = (Ok b, w').
Proof.
  unfold bind. destruct (m w) as [[a|e|] w1]; intros H; try discriminate.
  now exists a, w1.
Qed.

Lemma bind_run {A B} (m : M E A) (k : A -> M E B) w a w1 :
  m w = (Ok a, w1) -> bind m k w = k a w1.
Proof. unfold bind. now intros ->. Qed.

Lemma bind_raise {A B} (m : M E A) (k : A -> M E B) w e w1 :
  m w = (Raise e, w1) -> bind m k w = (Raise e, w1).
Proof. unfold bind. now intros ->. Qed.

Lemma getattr_ok {A} attr (proj : Focuser E -> option A) w a w' :
  getattr E attr proj w = (Ok a, w') -> proj (self w) = Some a /\ w' = w.
Proof.
  unfold getattr. destruct (proj (self w)); intros H; inversion H; auto.
Qed.

Lemma getattr_run {A} attr (proj : Focuser E -> option A) w a :
  proj (self w) = Some a -> getattr E attr proj w = (Ok a, w).
Proof. unfold getattr. now intros ->. Qed.

(** *** Properties of the world that a method keeps *)

Lemma stable_ret {A} P (a : A) : stable P (ret a).
Proof. intros w H; exact H. Qed.

Lemma stable_raise {A} P e : stable P (@raise _ A e).
Proof. intros w H; exact H. Qed.

Lemma stable_hang {A} P : stable P (@hang _ A).
Proof. intros w H; exact H. Qed.

Lemma stable_lift {A} P (r : Res A) : stable P (lift r).
Proof. intros w H; exact H. Qed.

Lemma stable_bind {A B} P (m : M E A) (k : A -> M E B) :
  stable P m -> (forall a, stable P (k a)) -> stable P (bind m k).
Proof.
  intros Hm Hk w Hw. unfold bind. specialize (Hm w Hw).
  destruct (m w) as [[a|e|] w1]; simpl in *; auto. now apply Hk.
Qed.

Lemma stable_try {A} P (body : M E A) catches handler :
  stable P body -> (forall e, stable P (handler e)) ->
  stable P (try_except body catches handler).
Proof.
  intros Hb Hh w Hw. unfold try_except. specialize (Hb w Hw).
  destruct (body w) as [[a|e|] w1]; simpl in *; auto.
  destruct (catches e); simpl; auto. now apply Hh.
Qed.

Lemma stable_getattr {A} P attr (proj : Focuser E -> option A) :
  stable P (getattr E attr proj).
Proof. intros w H. unfold getattr. now destruct (proj (self w)). Qed.

Lemma stable_attr {A} P (proj : Focuser E -> A) : stable P (attr E proj).
Proof. intros w H; exact H. Qed.

Lemma stable_emit P ev : trace_closed P -> stable P (emit E ev).
Proof. intros HP [f t] H. simpl. now apply HP. Qed.

Lemma stable_modify P g : respects g P -> stable P (modify E g).
Proof. intros HP [f t] H. simpl. now apply HP. Qed.

Lemma stable_port_call {A} P R method (g : Serial.port E -> A * Serial.port E) :
  port_blind R P -> (forall p, R p (snd (g p))) ->
  stable P (port_call E method g).
Proof.
  intros HP Hg [f t] H. unfold port_call, bind, getattr. simpl.
  destruct (_serial_port f) as [[p|]|] eqn:Hp; simpl; auto.
  specialize (Hg p). destruct (g p) as [a p']. simpl in *.
  now apply (HP f t p p').
Qed.

Section Keeps.
Variable R : Serial.port E -> Serial.port E -> Prop.
Hypothesis R_same : forall p p', same_sent p p' -> R p p'.
Variable P : World E -> Prop.
Hypothesis P_port : port_blind R P.

Ltac stable_step :=
  match goal with
  | |- stable _ (bind _ _) => apply stable_bind; [ | intro ]
  | |- stable _ (ret _) => apply stable_ret
  | |- stable _ (raise _) => apply stable_raise
  | |- stable _ hang => apply stable_hang
  | |- stable _ (lift _) => apply stable_lift
  | |- stable _ (getattr _ _ _) => apply stable_getattr
  | |- stable _ (attr _ _) => apply stable_attr
  | |- stable _ (if ?b then _ else _) => destruct b
  | |- stable _ (match ?x with _ => _ end) => destruct x
  end.

Lemma stable_readline_str : stable P (readline_str E).
Proof.
  unfold readline_str. repeat stable_step.
  apply (stable_port_call P R); auto.
  intros p. apply R_same. unfold same_sent, Serial.readline.
  now destruct (Serial.in_waiting p).
Qed.

Lemma stable_assert_line expected :
  stable P expected -> stable P (assert_line E expected).
Proof.
  intros H. unfold assert_line.
  apply stable_bind; [apply stable_readline_str|intro].
  apply stable_bind; [exact H|intro]. repeat stable_step.
Qed.

Lemma stable_read_info response : stable P (read_info E response).
Proof.
  unfold read_info. apply stable_bind; [|intro; apply stable_lift].
  apply (stable_port_call P R); auto.
  intros p. apply R_same. unfold same_sent.
  now destruct (info_loop (Serial.in_waiting p) response []).
Qed.

Lemma stable_receive command_type header_str :
  stable P (receive E command_type header_str).
Proof.
  unfold receive.
  apply stable_bind; [apply stable_readline_str|intro response].
  destruct (negb (response =? "!")%string); [apply stable_raise|].
  repeat match goal with
         | |- stable _ (if ?b then _ else _) => destruct b
         end;
    try (apply stable_bind; [apply stable_assert_line|intro]);
    repeat stable_step;
    try apply stable_readline_str; try apply stable_read_info.
Qed.

Hypothesis R_write : forall p b, R p (Serial.write b p).

Lemma stable_transmit command_str : stable P (transmit E command_str).
Proof.
  unfold transmit.
  apply stable_bind;
    [apply (stable_port_call P R); auto; intros p; now apply R_same|intro].
  apply stable_bind;
    [apply (stable_port_call P R); auto; intros p; now apply R_same|intro].
  apply stable_bind; [apply stable_lift|intro].
  apply (stable_port_call P R); auto. intros p. apply R_write.
Qed.

Lemma stable_send_command c ty h : stable P (_send_command E c ty h).
Proof.
  unfold _send_command.
  apply stable_bind; [apply stable_transmit|intro; apply stable_receive].
Qed.

End Keeps.

(** Methods that touch the port and the trace only. *)
Section KeepsTrace.
Variable R : Serial.port E -> Serial.port E -> Prop.
Hypothesis R_same : forall p p', same_sent p p' -> R p p'.
Hypothesis R_write : forall p b, R p (Serial.write b p).
Variable P : World E -> Prop.
Hypothesis P_port : port_blind R P.
Hypothesis P_trace : trace_closed P.

Ltac trace_step :=
  match goal with
  | |- stable _ (bind _ _) => apply stable_bind; [ | intro ]
  | |- stable _ (ret _) => apply stable_ret
  | |- stable _ (raise _) => apply stable_raise
  | |- stable _ (getattr _ _ _) => apply stable_getattr
  | |- stable _ (emit _ _) => apply stable_emit; exact P_trace
  | |- stable _ (warn _ _) => apply stable_emit; exact P_trace
  | |- stable _ (logger _ _ _) => apply stable_emit; exact P_trace
  | |- stable _ (subscript _ _ _) => unfold subscript
  | |- stable _ (_send_command _ _ _ _) =>
      apply (stable_send_command R R_same P P_port R_write)
  | |- stable _ (try_except _ _ _) => apply stable_try; [ | intro ]
  | |- stable _ (match ?x with _ => _ end) => destruct x
  end.

Lemma stable__get_info c h : stable P (_get_info E c h).
Proof. unfold _get_info. repeat trace_step. Qed.

Lemma stable__set_param c : stable P (_set_param E c).
Proof. unfold _set_param. repeat trace_step. Qed.

Lemma stable_uid : stable P (uid E).
Proof. unfold uid. repeat trace_step. Qed.

Lemma stable_halt : stable P (halt E).
Proof.
  unfold halt.
  apply stable_bind; [apply stable_getattr|intro].
  apply stable_bind; [trace_step|intro].
  apply stable_bind; [apply stable_uid|intro]. trace_step.
Qed.

End KeepsTrace.

Section KeepsQuiet.
Variable R : Serial.port E -> Serial.port E -> Prop.
Hypothesis R_same : forall p p', same_sent p p' -> R p p'.
Hypothesis R_write : forall p b, R p (Serial.write b p).
Variable P : World E -> Prop.
Hypothesis P_port : port_blind R P.
Hypothesis P_quiet : quiet P.

Let P_trace := quiet_trace E P P_quiet.

Ltac quiet_step :=
  match goal with
  | |- stable _ (bind _ _) => apply stable_bind; [ | intro ]
  | |- stable _ (ret _) => apply stable_ret
  | |- stable _ (raise _) => apply stable_raise
  | |- stable _ hang => apply stable_hang
  | |- stable _ (lift _) => apply stable_lift
  | |- stable _ (getattr _ _ _) => apply stable_getattr
  | |- stable _ (attr _ _) => apply stable_attr
  | |- stable _ (emit _ _) => apply stable_emit; exact P_trace
  | |- stable _ (warn _ _) => apply stable_emit; exact P_trace
  | |- stable _ (logger _ _ _) => apply stable_emit; exact P_trace
  | |- stable _ (modify _ _) => apply stable_modify; apply P_quiet
  | |- stable _ (subscript _ _ _) => unfold subscript
  | |- stable _ (_send_command _ _ _ _) =>
      apply (stable_send_command R R_same P P_port R_write)
  | |- stable _ (_get_info _ _ _) =>
      apply (stable__get_info R R_same R_write P P_port P_trace)
  | |- stable _ (_set_param _ _) =>
      apply (stable__set_param R R_same R_write P P_port P_trace)
  | |- stable _ (uid _) =>
      apply (stable_uid P)
  | |- stable _ (if ?b then _ else _) => destruct b
  | |- stable _ (match ?x with _ => _ end) => destruct x
  end.

Lemma stable__get_hub_info : stable P (_get_hub_info E).
Proof. unfold _get_hub_info. repeat quiet_step. Qed.

Lemma stable__get_focuser_config : stable P (_get_focuser_config E).
Proof. unfold _get_focuser_config. repeat quiet_step. Qed.

Lemma stable__update_focuser_status : stable P (_update_focuser_status E).
Proof. unfold _update_focuser_status. repeat quiet_step. Qed.

Lemma stable_set_uid nickname : stable P (set_uid E nickname).
Proof.
  unfold set_uid.
  apply stable_bind; [repeat quiet_step|intro].
  apply stable_bind; [apply stable_getattr|intro].
  apply stable_bind; [quiet_step|intro].
  apply stable__get_focuser_config.
Qed.

Lemma stable_position : stable P (position E).
Proof.
  unfold position.
  apply stable_bind; [apply stable__update_focuser_status|intro].
  apply stable_getattr.
Qed.

Lemma stable_is_moving : stable P (is_moving E).
Proof.
  unfold is_moving.
  apply stable_bind; [apply stable__update_focuser_status|intro].
  apply stable_getattr.
Qed.

Lemma stable_temperature : stable P (temperature E).
Proof. unfold temperature. repeat quiet_step. Qed.

Lemma stable_wait_while_moving fuel : stable P (wait_while_moving E fuel).
Proof.
  induction fuel as [|fuel IH]; simpl.
  - apply stable_hang.
  - apply stable_bind; [apply stable_is_moving|intros []].
    + apply stable_bind; [quiet_step|intro].
      apply stable_bind; [|intro; exact IH].
      apply (stable_port_call P R); auto.
      intros p. apply R_same. reflexivity.
    + apply stable_ret.
Qed.

Lemma stable_arrive fuel blocking target :
  stable P (arrive E fuel blocking target).
Proof.
  unfold arrive.
  destruct blocking; [|apply stable_ret].
  apply stable_bind; [apply stable_wait_while_moving|intro].
  apply stable_bind; [apply stable_position|intro].
  apply stable_bind; [apply stable_getattr|intro].
  apply stable_bind; [|intro; apply stable_getattr].
  destruct (negb _); [|apply stable_ret].
  repeat quiet_step.
Qed.

Lemma stable_move_to fuel requested blocking :
  stable P (move_to E fuel requested blocking).
Proof.
  unfold move_to.
  apply stable_bind; [apply stable_getattr|intro].
  apply stable_bind; [repeat quiet_step|intro].
  apply stable_bind; [quiet_step|intro].
  apply stable_bind; [quiet_step|intro].
  apply stable_bind; [apply stable_getattr|intro].
  apply stable_bind; [quiet_step|intro].
  destruct blocking; [|apply stable_ret].
  apply stable_bind; [apply stable_wait_while_moving|intro].
  apply stable_bind; [apply stable_position|intro].
  apply stable_bind; [apply stable_getattr|intro].
  apply stable_bind; [|intro; apply stable_getattr].
  destruct (negb _); [|apply stable_ret].
  repeat quiet_step.
Qed.

End KeepsQuiet.

End Facts.
End FocusLynxFacts.

Module FocusLynxRuns.
Import PyFacts FocusLynx FocusLynxProps FocusLynxFacts.
Section Runs.
Variable E : Env.
Implicit Types (p : Serial.port E) (w : World E).

Lemma transmit_run w p c :
  _serial_port (self w) = Some (Some p) -> is_ascii c = true ->
  transmit E c w = (Ok tt, with_port (reply c p) w).
Proof.
  intros Hp Hc.
  unfold transmit, port_call, bind, getattr, modify, lift, encode_ascii, ret.
  simpl. rewrite Hp. simpl. rewrite Hc. reflexivity.
Qed.

Lemma transmit_not_ascii w p c :
  _serial_port (self w) = Some (Some p) -> is_ascii c = false ->
  transmit E c w =
    (Raise UnicodeEncodeError, with_port (Serial.reset_input_buffer p) w).
Proof.
  intros Hp Hc.
  unfold transmit, port_call, bind, getattr, modify, lift, encode_ascii, ret.
  simpl. rewrite Hp. simpl. rewrite Hc. reflexivity.
Qed.

Lemma readline_str_run w p :
  _serial_port (self w) = Some (Some p) ->
  readline_str E w = (line_read p, with_port (snd (Serial.readline p)) w).
Proof.
  intros Hp.
  unfold readline_str, port_call, bind, getattr, modify, lift, ret, line_read.
  rewrite Hp. destruct (Serial.readline p) as [l p']. simpl.
  destruct (decode_ascii l); reflexivity.
Qed.

Lemma readline_str_ok w p line :
  _serial_port (self w) = Some (Some p) -> line_read p = Ok line ->
  readline_str E w = (Ok line, with_port (snd (Serial.readline p)) w).
Proof. intros Hp Hl. now rewrite (readline_str_run w p Hp), Hl. Qed.

Lemma receive_nack w p line ty h :
  _serial_port (self w) = Some (Some p) ->
  line_read p = Ok line -> line <> "!" ->
  receive E ty h w = (Raise (RuntimeError line), with_port (snd (Serial.readline p)) w).
Proof.
  intros Hp Hl Hne. unfold receive.
  rewrite (bind_run E _ _ _ _ _ (readline_str_ok w p line Hp Hl)).
  destruct (String.eqb_spec line "!"); [contradiction|reflexivity].
Qed.

Lemma send_command_nack w p c line ty h :
  _serial_port (self w) = Some (Some p) -> nack p c line ->
  _send_command E c ty h w =
    (Raise (RuntimeError line), with_port (snd (Serial.readline (reply c p))) w).
Proof.
  intros Hp (Hc & Hl & Hne). unfold _send_command.
  rewrite (bind_run E _ _ _ _ _ (transmit_run w p c Hp Hc)).
  now rewrite (receive_nack (with_port (reply c p) w) (reply c p) line).
Qed.

Lemma get_info_nack w p c line h :
  _serial_port (self w) = Some (Some p) -> nack p c line ->
  _get_info E c h w =
    (Ok None,
     logged [Log ERROR (nack_message c line); Warn (nack_message c line)]
            (with_port (snd (Serial.readline (reply c p))) w)).
Proof.
  intros Hp Hn. unfold _get_info, try_except.
  rewrite (send_command_nack w p c line _ _ Hp Hn).
  unfold logged, bind, logger, warn, emit. simpl.
  now rewrite <- app_assoc.
Qed.

Lemma set_param_nack w p c line :
  _serial_port (self w) = Some (Some p) -> nack p c line ->
  _set_param E c w =
    (Ok tt,
     logged [Log ERROR (nack_message c line); Warn (nack_message c line)]
            (with_port (snd (Serial.readline (reply c p))) w)).
Proof.
  intros Hp Hn. unfold _set_param, try_except.
  rewrite (bind_raise E _ _ _ _ _ (send_command_nack w p c line _ _ Hp Hn)).
  unfold logged, bind, logger, warn, emit. simpl.
  now rewrite <- app_assoc.
Qed.

Lemma update_status_nack w p n line :
  _serial_port (self w) = Some (Some p) ->
  _focuser_number (self w) = Some n ->
  nack p (status_cmd n) line ->
  fst (_update_focuser_status E w) =
    Raise (TypeError "'NoneType' object is not subscriptable").
Proof.
  intros Hp Hn Hk. unfold _update_focuser_status.
  rewrite (bind_run E _ _ _ _ _ (getattr_run E _ _ w n Hn)).
  rewrite (bind_run E _ _ _ _ _ (get_info_nack w p _ line _ Hp Hk)).
  reflexivity.
Qed.

Lemma assert_line_run w p word expected :
  _serial_port (self w) = Some (Some p) -> line_read p = Ok word ->
  assert_line E (ret expected) w =
    (if (word =? expected)%string then Ok tt else Raise AssertionError,
     with_port (snd (Serial.readline p)) w).
Proof.
  intros Hp Hl. unfold assert_line.
  rewrite (bind_run E _ _ _ _ _ (readline_str_ok w p word Hp Hl)).
  unfold bind, ret. now destruct (word =? expected)%string.
Qed.

Lemma receive_move_ok w p h :
  _serial_port (self w) = Some (Some p) ->
  line_read p = Ok "!" -> line_read (snd (Serial.readline p)) = Ok "M" ->
  receive E "MOVE" h w =
    (Ok None, with_port (snd (Serial.readline (snd (Serial.readline p)))) w).
Proof.
  intros Hp H1 H2. unfold receive.
  rewrite (bind_run E _ _ _ _ _ (readline_str_ok w p "!" Hp H1)).
  simpl.
  now rewrite (bind_run E _ _ _ _ _
                 (assert_line_run (with_port (snd (Serial.readline p)) w)
                                  (snd (Serial.readline p)) "M" "M" eq_refl H2)).
Qed.

Lemma send_command_move_ok w p c :
  _serial_port (self w) = Some (Some p) -> acked p c "M" ->
  fst (_send_command E c "MOVE" None w) = Ok None.
Proof.
  intros Hp (Hc & H1 & H2). unfold _send_command.
  rewrite (bind_run E _ _ _ _ _ (transmit_run w p c Hp Hc)).
  now rewrite (receive_move_ok (with_port (reply c p) w) (reply c p)).
Qed.

(** *** Stepping through a body *)

Lemma bind_bind {A B C} (m : M E A) (k1 : A -> M E B) (k2 : B -> M E C) w :
  bind (bind m k1) k2 w = bind m (fun a => bind (k1 a) k2) w.
Proof. unfold bind. now destruct (m w) as [[a|e|] w1]. Qed.

Lemma bind_logger {B} lvl message (k : unit -> M E B) w :
  bind (logger E lvl message) k w = k tt (logged [Log lvl message] w).
Proof. reflexivity. Qed.

Lemma bind_warn {B} message (k : unit -> M E B) w :
  bind (warn E message) k w = k tt (logged [Warn message] w).
Proof. reflexivity. Qed.

Lemma bind_ret {A B} (a : A) (k : A -> M E B) w : bind (ret a) k w = k a w.
Proof. reflexivity. Qed.

Lemma logged_logged evs evs' (w : World E) :
  logged evs' (logged evs w) = logged (evs ++ evs') w.
Proof. unfold logged. simpl. now rewrite app_assoc. Qed.

Lemma logged_nil (w : World E) : logged [] w = w.
Proof. destruct w. unfold logged. simpl. now rewrite app_nil_r. Qed.

Lemma uid_run w cfg u :
  _focuser_config (self w) = Some (Some cfg) ->
  dict_get "Nickname" cfg = Some u ->
  uid E w = (Ok u, w).
Proof.
  intros Hc Hu. unfold uid.
  rewrite (bind_run E _ _ _ _ _ (getattr_run E _ _ w _ Hc)).
  unfold subscript. now rewrite Hu.
Qed.

Ltac run_getattr H :=
  match goal with
  | |- context [bind (getattr E ?a ?proj) ?k ?w0] =>
      rewrite (bind_run E (getattr E a proj) k w0 _ w0
                        (getattr_run E a proj w0 _ H))
  end.

Ltac run_uid Hc Hu :=
  match goal with
  | |- context [bind (uid E) ?k ?w0] =>
      rewrite (bind_run E (uid E) k w0 _ w0 (uid_run w0 _ _ Hc Hu))
  end.

(** *** [move_to] on an initialised focuser *)

Lemma move_to_run w p n lo hi u fuel requested blocking :
  ready w p n lo hi u ->
  move_to E fuel requested blocking w =
    bind (_send_command E (move_cmd n (clamp lo hi requested)) "MOVE" None)
         (fun _ => arrive E fuel blocking (clamp lo hi requested))
         (logged (moving_events lo hi requested u) w).
Proof.
  intros (Hp & Hn & Hlo & Hhi & cfg & Hcfg & Hu).
  unfold move_to, moving_events, range_events, clamp, too_low, too_high.
  run_getattr Hlo.
  destruct (requested <? lo).
  - rewrite bind_bind, bind_logger, bind_bind, bind_warn.
    run_getattr Hlo. run_uid Hcfg Hu. rewrite bind_logger. run_getattr Hn.
    now rewrite !logged_logged.
  - rewrite bind_bind. run_getattr Hhi.
    destruct (hi <? requested).
    + rewrite bind_bind, bind_logger, bind_bind, bind_warn.
      run_getattr Hhi. run_uid Hcfg Hu. rewrite bind_logger. run_getattr Hn.
      now rewrite !logged_logged.
    + rewrite bind_ret. run_uid Hcfg Hu. rewrite bind_logger. run_getattr Hn.
      reflexivity.
Qed.

(** *** What stays true of the port and of the trace *)

Lemma more_sent_same p (p' : Serial.port E) : same_sent p p' -> more_sent p p'.
Proof. intros H. exists []. now rewrite app_nil_r. Qed.

Lemma more_sent_write p b : more_sent p (Serial.write b p).
Proof. now exists [b]. Qed.

Lemma sends_port X : port_blind (more_sent) (sends E X).
Proof.
  intros f t p p' Hp [l Hl] [more H]. unfold sends, sent_of in *. simpl in *.
  rewrite Hp in H. rewrite Hl, H. exists (more ++ l)%list. now rewrite app_assoc.
Qed.

Lemma sends_quiet X : quiet (sends E X).
Proof.
  split; repeat intro;
    match goal with H : sends _ _ _ |- _ => exact H end.
Qed.

Lemma traced_port T R : port_blind R (traced E T).
Proof. intros f t p p' _ _ H. exact H. Qed.

Lemma traced_quiet T : quiet (traced E T).
Proof.
  split; try (intros v f t H; exact H).
  intros f t ev [later H]. exists (later ++ [ev])%list. simpl in *.
  now rewrite H, app_assoc.
Qed.

Lemma sent_exact_port X :
  port_blind (same_sent) (fun w : World E => sent_of w = X).
Proof.
  intros f t p p' Hp Hs H. unfold sent_of in *. simpl in *.
  rewrite Hp in H. now rewrite Hs.
Qed.

Lemma is_ascii_move_cmd n t : is_ascii (move_cmd n t) = true.
Proof.
  unfold move_cmd, format_1d.
  rewrite !is_ascii_app, is_ascii_str_int, is_ascii_format_0d. reflexivity.
Qed.

Lemma is_ascii_halt_cmd n : is_ascii (halt_cmd n) = true.
Proof.
  unfold halt_cmd, format_1d. rewrite !is_ascii_app, is_ascii_str_int. reflexivity.
Qed.

Lemma clamp_low lo hi x : x < lo -> clamp lo hi x = lo.
Proof. unfold clamp. intros H. destruct (Z.ltb_spec x lo); [reflexivity|lia]. Qed.

Lemma clamp_high lo hi x : lo <= hi -> hi < x -> clamp lo hi x = hi.
Proof.
  unfold clamp. intros H1 H2.
  destruct (Z.ltb_spec x lo); [lia|]. destruct (Z.ltb_spec hi x); [reflexivity|lia].
Qed.

Lemma clamp_inside lo hi x : lo <= x <= hi -> clamp lo hi x = x.
Proof.
  unfold clamp. intros H.
  destruct (Z.ltb_spec x lo); [lia|]. destruct (Z.ltb_spec hi x); [lia|reflexivity].
Qed.

Lemma clamp_range lo hi x : lo <= hi -> lo <= clamp lo hi x <= hi.
Proof.
  unfold clamp. intros H.
  destruct (Z.ltb_spec x lo); [lia|]. destruct (Z.ltb_spec hi x); lia.
Qed.

Lemma range_events_warn lo hi x :
  clamp lo hi x <> x -> exists m, In (Warn m) (range_events lo hi x).
Proof.
  unfold clamp, range_events. intros H.
  destruct (x <? lo); [eexists; right; left; reflexivity|].
  destruct (hi <? x); [eexists; right; left; reflexivity|]. congruence.
Qed.

Lemma range_events_none lo hi x :
  clamp lo hi x = x -> lo <= hi -> range_events lo hi x = [].
Proof.
  unfold clamp, range_events. intros H Hle.
  destruct (Z.ltb_spec x lo); [lia|]. destruct (Z.ltb_spec hi x); [lia|reflexivity].
Qed.

Lemma send_command_acked w p c :
  _serial_port (self w) = Some (Some p) -> acked p c "M" ->
  _send_command E c "MOVE" None w =
    (Ok None,
     with_port (snd (Serial.readline (snd (Serial.readline (reply c p))))) w).
Proof.
  intros Hp (Hc & H1 & H2). unfold _send_command.
  rewrite (bind_run E _ _ _ _ _ (transmit_run w p c Hp Hc)).
  now rewrite (receive_move_ok (with_port (reply c p) w) (reply c p)).
Qed.

End Runs.
End FocusLynxRuns.

(* ================================================================== *)
(** ** The focuser: the claims *)
(* ================================================================== *)

Module FocusLynxSpec.
Import PyFacts FocusLynx FocusLynxProps FocusLynxFacts FocusLynxRuns.

Section Claims.
Variable E : Env.
Implicit Types (p : Serial.port E) (w : World E).

Lemma move_to_sent w p n lo hi u fuel requested blocking :
  ready w p n lo hi u ->
  exists more,
    sent_of (snd (move_to E fuel requested blocking w)) =
      (Serial.sent p ++ move_cmd n (clamp lo hi requested) :: more)%list /\
    (blocking = false -> more = []).
Proof.
  intros Hr. rewrite (move_to_run E w p n lo hi u _ _ _ Hr).
  destruct Hr as (Hp & _).
  set (c := move_cmd n (clamp lo hi requested)).
  set (w1 := logged (moving_events lo hi requested u) w).
  unfold _send_command. rewrite bind_bind.
  rewrite (bind_run E _ _ _ _ _ (transmit_run E w1 p c Hp (is_ascii_move_cmd _ _))).
  destruct blocking.
  - destruct (stable_bind E (sends E (Serial.sent p ++ [c]))
                (receive E "MOVE" None) (fun _ => arrive E fuel true (clamp lo hi requested)))
      with (w := with_port (reply c p) w1) as [more Hm].
    + apply stable_receive with (R := more_sent);
        auto using more_sent_same, sends_port.
    + intro. apply stable_arrive with (R := more_sent);
        auto using more_sent_same, more_sent_write, sends_port, sends_quiet.
    + exists []. now rewrite app_nil_r.
    + exists more. split; [|discriminate].
      rewrite Hm. now rewrite <- app_assoc.
  - exists []. split; [|reflexivity].
    apply (stable_bind E (fun w : World E => sent_of w = Serial.sent p ++ [c])%list
             (receive E "MOVE" None) (fun _ => ret (clamp lo hi requested))).
    + apply stable_receive with (R := same_sent); auto using sent_exact_port.
    + intro. apply stable_ret.
    + reflexivity.
Qed.

Lemma move_to_trace w p n lo hi u fuel requested blocking :
  ready w p n lo hi u ->
  exists later,
    trace (snd (move_to E fuel requested blocking w)) =
      (trace w ++ range_events lo hi requested ++ later)%list.
Proof.
  intros Hr. rewrite (move_to_run E w p n lo hi u _ _ _ Hr).
  destruct (stable_bind E (traced E (trace w ++ moving_events lo hi requested u))
              (_send_command E (move_cmd n (clamp lo hi requested)) "MOVE" None)
              (fun _ => arrive E fuel blocking (clamp lo hi requested)))
    with (w := logged (moving_events lo hi requested u) w) as [later Hl].
  - apply stable_send_command with (R := more_sent);
      auto using more_sent_same, more_sent_write, traced_port.
  - intro. apply stable_arrive with (R := more_sent);
      auto using more_sent_same, more_sent_write, traced_port, traced_quiet.
  - exists []. now rewrite app_nil_r.
  - rewrite Hl. unfold moving_events. rewrite <- !app_assoc. eauto.
Qed.

Lemma move_to_returns_target w p n lo hi u fuel requested :
  ready w p n lo hi u ->
  acked p (move_cmd n (clamp lo hi requested)) "M" ->
  fst (move_to E fuel requested false w) = Ok (clamp lo hi requested).
Proof.
  intros Hr Ha. rewrite (move_to_run E w p n lo hi u _ _ _ Hr).
  destruct Hr as (Hp & _).
  now rewrite (bind_run E _ _ _ _ _
                 (send_command_acked E (logged (moving_events lo hi requested u) w)
                                     p _ Hp Ha)).
Qed.

Lemma move_to_returns_position w p n lo hi u fuel requested v :
  ready w p n lo hi u ->
  fst (move_to E fuel requested true w) = Ok v ->
  _position (self (snd (move_to E fuel requested true w))) = Some v.
Proof.
  intros Hr. rewrite (move_to_run E w p n lo hi u _ _ _ Hr).
  destruct (bind _ _ _) as [r w'] eqn:Hb. simpl. intros ->.
  apply bind_ok in Hb. destruct Hb as (? & w1 & _ & Hb).
  unfold arrive in Hb.
  apply bind_ok in Hb. destruct Hb as (? & w2 & _ & Hb).
  apply bind_ok in Hb. destruct Hb as (? & w3 & _ & Hb).
  apply bind_ok in Hb. destruct Hb as (? & w4 & _ & Hb).
  apply bind_ok in Hb. destruct Hb as (? & w5 & _ & Hb).
  apply getattr_ok in Hb. now destruct Hb as [Hv ->].
Qed.

(** *** A command that is not acknowledged *)

Lemma move_to_nack w p n lo hi u fuel requested blocking line :
  ready w p n lo hi u ->
  nack p (move_cmd n (clamp lo hi requested)) line ->
  fst (move_to E fuel requested blocking w) = Raise (RuntimeError line).
Proof.
  intros Hr Hk. rewrite (move_to_run E w p n lo hi u _ _ _ Hr).
  destruct Hr as (Hp & _).
  now rewrite (bind_raise E _ _ _ _ _
                 (send_command_nack E (logged (moving_events lo hi requested u) w)
                                    p _ line "MOVE" None Hp Hk)).
Qed.

Lemma halt_nack w p n line :
  _serial_port (self w) = Some (Some p) ->
  _focuser_number (self w) = Some n ->
  nack p (halt_cmd n) line ->
  fst (halt E w) = Raise (RuntimeError line).
Proof.
  intros Hp Hn Hk. unfold halt.
  rewrite (bind_run E _ _ _ _ _ (getattr_run E _ _ w n Hn)).
  now rewrite (bind_raise E _ _ _ _ _
                 (send_command_nack E w p _ line "HALT" None Hp Hk)).
Qed.

Lemma position_nack w p n line :
  _serial_port (self w) = Some (Some p) ->
  _focuser_number (self w) = Some n ->
  nack p (status_cmd n) line ->
  fst (position E w) = Raise (TypeError "'NoneType' object is not subscriptable") /\
  fst (is_moving E w) = Raise (TypeError "'NoneType' object is not subscriptable").
Proof.
  intros Hp Hn Hk.
  pose proof (update_status_nack E w p n line Hp Hn Hk) as H.
  unfold position, is_moving, bind.
  destruct (_update_focuser_status E w) as [r w1]. simpl in H. subst r. auto.
Qed.

(** *** [halt] *)

Lemma same_state_port f R :
  port_blind R (fun w' : World E => same_state f (self w')).
Proof. intros f0 t p p' _ _ H. exact H. Qed.

Lemma same_state_trace f :
  trace_closed (fun w' : World E => same_state f (self w')).
Proof. intros f0 t ev H. exact H. Qed.

Lemma halt_state w : same_state (self w) (self (snd (halt E w))).
Proof.
  apply (stable_halt E more_sent (more_sent_same E) (more_sent_write E)
           (fun w' => same_state (self w) (self w'))
           (same_state_port _ _) (same_state_trace _)).
  repeat split.
Qed.

Lemma trace_port T R : port_blind R (fun w' : World E => trace w' = T).
Proof. intros f0 t p p' _ _ H. exact H. Qed.

Lemma send_command_trace w c ty h :
  trace (snd (_send_command E c ty h w)) = trace w.
Proof.
  apply (stable_send_command E more_sent (more_sent_same E)
           (fun w' => trace w' = trace w) (trace_port _ _) (more_sent_write E)).
  reflexivity.
Qed.

Lemma uid_readonly w : snd (uid E w) = w.
Proof.
  unfold uid, bind, getattr, subscript.
  destruct (_focuser_config (self w)) as [[cfg|]|]; simpl; auto.
  destruct (dict_get "Nickname" cfg); reflexivity.
Qed.

Lemma halt_trace w :
  trace (snd (halt E w)) = trace w \/
  exists u, trace (snd (halt E w)) = (trace w ++ [Log WARNING ("Focuser " ++ u ++ " halted")])%list.
Proof.
  unfold halt, bind, getattr.
  destruct (_focuser_number (self w)) as [n|]; [|now left].
  pose proof (send_command_trace w (halt_cmd n) "HALT" None) as Ht.
  destruct (_send_command E (halt_cmd n) "HALT" None w) as [[r|e|] w1];
    simpl in Ht; auto.
  pose proof (uid_readonly w1) as Hu.
  destruct (uid E w1) as [[u|e|] w2]; simpl in Hu; subst w2; auto.
  right. exists u. simpl. now rewrite Ht.
Qed.

Lemma send_command_sent w c ty h :
  sent_of (snd (_send_command E c ty h w)) = sent_of w \/
  sent_of (snd (_send_command E c ty h w)) = (sent_of w ++ [c])%list.
Proof.
  destruct (_serial_port (self w)) as [[p|]|] eqn:Hp.
  - assert (Hs : sent_of w = Serial.sent p) by (unfold sent_of; now rewrite Hp).
    rewrite Hs. unfold _send_command.
    destruct (is_ascii c) eqn:Hc.
    + right.
      rewrite (bind_run E _ _ _ _ _ (transmit_run E w p c Hp Hc)).
      apply (stable_receive E same_sent (fun _ _ H => H)
               (fun w' => sent_of w' = Serial.sent p ++ [c])%list).
      * apply sent_exact_port.
      * reflexivity.
    + left.
      now rewrite (bind_raise E _ _ _ _ _ (transmit_not_ascii E w p c Hp Hc)).
  - left. unfold _send_command, transmit, port_call, bind, getattr. now rewrite Hp.
  - left. unfold _send_command, transmit, port_call, bind, getattr. now rewrite Hp.
Qed.

Lemma halt_sent w :
  sent_of (snd (halt E w)) = sent_of w \/
  exists n, _focuser_number (self w) = Some n /\
            sent_of (snd (halt E w)) = (sent_of w ++ [halt_cmd n])%list.
Proof.
  unfold halt, bind, getattr.
  destruct (_focuser_number (self w)) as [n|] eqn:Hn; [|now left].
  pose proof (send_command_sent w (halt_cmd n) "HALT" None) as Hs.
  destruct (_send_command E (halt_cmd n) "HALT" None w) as [[r|e|] w1];
    simpl in Hs; try (destruct Hs; [left|right; exists n]; now auto).
  pose proof (uid_readonly w1) as Hu.
  destruct (uid E w1) as [[u|e|] w2]; simpl in Hu; subst w2; simpl;
    (destruct Hs; [left|right; exists n]; now auto).
Qed.

(** *** [temperature] *)

Lemma temperature_run w :
  temperature E w =
    (match _temperature (self w) with
     | Some t => Ok (Celsius t)
     | None => Raise (AttributeError "_temperature")
     end, w).
Proof.
  unfold temperature, bind, ret, getattr.
  now destruct (_temperature (self w)).
Qed.

(** *** Info blocks *)

Lemma key_value_pair k v :
  contains "=" k = false -> contains "=" v = false ->
  key_value (k ++ String "=" v) = Ok (strip k, strip v).
Proof.
  intros Hk Hv. unfold key_value.
  now rewrite (split_first "=" k v Hk), (split_without "=" v Hv).
Qed.

Lemma key_value_none l :
  contains "=" l = false ->
  key_value l = Raise (ValueError "not enough values to unpack (expected 2, got 1)").
Proof. intros H. unfold key_value. now rewrite (split_without "=" l H). Qed.

Lemma key_value_many l :
  (2 <= count "=" l)%nat ->
  key_value l = Raise (ValueError "too many values to unpack (expected 2)").
Proof.
  intros H. unfold key_value.
  pose proof (split_length "=" l) as Hl.
  destruct (split "=" l) as [|a [|b [|c r]]]; simpl in Hl; try lia.
  reflexivity.
Qed.

Lemma key_value_raises response :
  count "=" response <> 1%nat ->
  exists msg, key_value response = Raise (ValueError msg).
Proof.
  intros H. destruct (count "=" response) as [|[|n]] eqn:Hc; [|congruence|].
  - eexists. apply key_value_none. now apply count_contains.
  - eexists. apply key_value_many. lia.
Qed.

Lemma key_value_outcome response :
  (exists k v, key_value response = Ok (k, v)) \/
  (exists msg, key_value response = Raise (ValueError msg)).
Proof.
  unfold key_value, unpack2.
  destruct (map strip (split "=" response)) as [|a [|b [|c r]]]; eauto.
Qed.

Lemma info_loop_malformed lines response info :
  (exists l, In l (before_END (response :: map strip lines)) /\
             count "=" l <> 1%nat) ->
  (exists e rest, info_loop lines response info = (Raise e, rest)) /\
  (all_ascii lines ->
   exists msg rest, info_loop lines response info = (Raise (ValueError msg), rest)).
Proof.
  revert response info.
  induction lines as [|l0 rest IH]; intros response info (l & Hin & Hl).
  - simpl in *. destruct (response =? "END")%string; [contradiction|].
    destruct Hin as [<-|[]].
    destruct (key_value_raises response Hl) as [msg ->].
    split; [|intros _]; eauto.
  - simpl in Hin. simpl.
    destruct (response =? "END")%string; [contradiction|].
    destruct Hin as [<-|Hin].
    + destruct (key_value_raises response Hl) as [msg ->].
      split; [|intros _]; eauto.
    + destruct (key_value_outcome response) as [(k & v & ->)|(msg & ->)];
        [|split; [|intros _]; eauto].
      unfold decode_ascii.
      destruct (is_ascii l0) eqn:Ha.
      * destruct (IH (strip l0) (dict_set k v info)) as [H1 H2]; [now exists l|].
        split; [exact H1|]. intros Hall. apply H2. now inversion Hall.
      * split; [eauto|]. intros Hall. inversion Hall; congruence.
Qed.

Lemma read_info_run w p response :
  _serial_port (self w) = Some (Some p) ->
  fst (read_info E response w) = fst (info_loop (Serial.in_waiting p) response []).
Proof.
  intros Hp. unfold read_info, port_call, bind, getattr, modify, lift.
  rewrite Hp. now destruct (info_loop (Serial.in_waiting p) response []) as [[d|e|] r].
Qed.

Lemma get_info_passes w c h e :
  fst (_send_command E c "GET INFO" (Some h) w) = Raise e ->
  is_RuntimeError e = false ->
  _get_info E c h w = _send_command E c "GET INFO" (Some h) w.
Proof.
  intros H He. unfold _get_info, try_except.
  destruct (_send_command E c "GET INFO" (Some h) w) as [r w1].
  simpl in H. subst r. now rewrite He.
Qed.

End Claims.
End FocusLynxSpec.

(* ================================================================== *)
(** ** The focuser: construction *)
(* ================================================================== *)

Module FocusLynxInit.
Import PyFacts FocusLynx FocusLynxProps FocusLynxFacts FocusLynxRuns FocusLynxSpec.

Section Init.
Variable E : Env.
Implicit Types (p : Serial.port E) (w : World E) (a : init_args).

Ltac run_getattr H :=
  match goal with
  | |- context [bind (getattr E ?a ?proj) ?k ?w0] =>
      rewrite (bind_run E (getattr E a proj) k w0 _ w0
                        (getattr_run E a proj w0 _ H))
  end.

(** *** Inversion of primitive steps *)

Lemma subscript_ok (d : info) key w v w' :
  subscript E d key w = (Ok v, w') ->
  exists d', d = Some d' /\ dict_get key d' = Some v /\ w' = w.
Proof.
  unfold subscript. destruct d as [d'|]; [|discriminate].
  destruct (dict_get key d') as [v'|] eqn:Hv; intros H; inversion H; subst.
  now exists d'.
Qed.

Lemma lift_ok {A} (r : Res A) w b w' :
  lift r w = (Ok b, w') -> r = Ok b /\ w' = w.
Proof. unfold lift. intros H. inversion H. auto. Qed.

Lemma modify_ok g w u w' :
  modify E g w = (Ok u, w') -> w' = {| self := g (self w); trace := trace w |}.
Proof. unfold modify. intros H. now inversion H. Qed.

Lemma logger_ok lvl m w u w' :
  logger E lvl m w = (Ok u, w') -> w' = logged [Log lvl m] w.
Proof. unfold logger, emit. intros H. now inversion H. Qed.

Lemma str_readonly w : snd (__str__ E w) = w.
Proof.
  unfold __str__, bind, getattr, attr, ret.
  destruct (_focuser_number (self w)); simpl; auto.
  pose proof (uid_readonly E w) as Hu.
  destruct (uid E w) as [[u|e|] w1]; simpl in Hu; subst; reflexivity.
Qed.

(** *** [_initialise] *)

Lemma initialise_ok w w' :
  _initialise E w = (Ok tt, w') ->
  exists cfg v D,
    _focuser_config (self w') = Some (Some cfg) /\
    dict_get "Max Pos" cfg = Some v /\
    int v = Ok D /\
    _max_position (self w') = Some D.
Proof.
  unfold _initialise. intros H.
  apply bind_ok in H. destruct H as (? & w1 & _ & H).
  apply bind_ok in H. destruct H as (? & w2 & _ & H).
  apply bind_ok in H. destruct H as (? & w3 & _ & H).
  apply bind_ok in H. destruct H as (c1 & w4 & H1 & H).
  apply getattr_ok in H1. destruct H1 as [Hc1 ->].
  apply bind_ok in H. destruct H as (v1 & w5 & H1 & H).
  apply subscript_ok in H1. destruct H1 as (cfg & -> & _ & ->).
  apply bind_ok in H. destruct H as (? & w6 & H1 & H).
  apply modify_ok in H1. subst w6.
  apply bind_ok in H. destruct H as (c2 & w7 & H1 & H).
  apply getattr_ok in H1. destruct H1 as [Hc2 ->]. simpl in Hc2.
  rewrite Hc1 in Hc2. inversion Hc2; subst c2; clear Hc2.
  apply bind_ok in H. destruct H as (v & w8 & H1 & H).
  apply subscript_ok in H1. destruct H1 as (cfg' & Heq & Hv & ->).
  inversion Heq; subst cfg'; clear Heq.
  apply bind_ok in H. destruct H as (D & w9 & H1 & H).
  apply lift_ok in H1. destruct H1 as [HD ->].
  apply bind_ok in H. destruct H as (? & w10 & H1 & H).
  apply modify_ok in H1. subst w10.
  apply bind_ok in H. destruct H as (s & w11 & H1 & H).
  pose proof (str_readonly {| self := set__max_position E D (set_model E v1 (self w3));
                              trace := trace w3 |}) as Hs.
  simpl in H1. rewrite H1 in Hs. simpl in Hs. subst w11.
  apply logger_ok in H. subst w'.
  exists cfg, v, D. simpl. auto.
Qed.

(** *** [connect] and [startup] *)

Lemma connect_fail w e :
  serial_Serial E (port (self w)) = inl e ->
  exists w',
    connect E w = (Raise e, w') /\
    (no_port (self w) -> no_port (self w')) /\
    (uninitialised (self w) -> uninitialised (self w')).
Proof.
  intros He. unfold connect, try_except, bind, attr, raise, modify, logger, emit.
  simpl. rewrite He.
  destruct (is_SerialException e); eexists; (split; [reflexivity|]); simpl.
  - split; [now right|auto].
  - auto.
Qed.

Lemma port_unbound a e : dict_get "port" (("err", str_exn e) :: init_names a) = None.
Proof. reflexivity. Qed.

Lemma fresh_uninitialised a :
  no_port (self (fresh E a)) /\ uninitialised (self (fresh E a)).
Proof. split; [now left|repeat split]. Qed.

Lemma startup_fail a e :
  serial_Serial E (kw_port a) = inl e ->
  exists w',
    startup E a (fresh E a) =
      (Raise (if is_SerialException e then NameError "port" else e), w') /\
    no_port (self w') /\ uninitialised (self w').
Proof.
  intros He. unfold startup. rewrite bind_logger.
  destruct (connect_fail (logged [Log DEBUG "Initialising FocusLynx focuser"] (fresh E a))
                         e He) as (w1 & Hc & Hp & Hu).
  destruct (fresh_uninitialised a) as [Hp0 Hu0].
  specialize (Hp Hp0). specialize (Hu Hu0).
  exists w1. split; [|auto].
  unfold bind at 1. unfold try_except.
  rewrite (bind_raise E _ _ _ _ _ Hc).
  destruct (is_SerialException e); [|reflexivity].
  unfold bind, attr, load_name. now rewrite port_unbound.
Qed.

Lemma startup_true a w started w' :
  startup E a w = (Ok started, w') -> started = true.
Proof.
  unfold startup. rewrite bind_logger. intros H.
  apply bind_ok in H. destruct H as (connected & w1 & Hc & H).
  destruct connected; simpl in H.
  - apply bind_ok in H. destruct H as (? & w2 & _ & H).
    apply bind_ok in H. destruct H as (? & w3 & _ & H).
    now inversion H.
  - exfalso. unfold try_except in Hc.
    destruct (bind (connect E) (fun _ => ret true) _) as [[b|e|] w2] eqn:Hb;
      try discriminate.
    + inversion Hc; subst. apply bind_ok in Hb. destruct Hb as (? & ? & _ & Hb).
      discriminate.
    + destruct (is_SerialException e); [|discriminate].
      unfold bind, attr, load_name in Hc. rewrite port_unbound in Hc. discriminate.
Qed.

Lemma startup_ok a w w' :
  startup E a w = (Ok true, w') ->
  exists cfg v D,
    _focuser_config (self w') = Some (Some cfg) /\
    dict_get "Max Pos" cfg = Some v /\
    int v = Ok D /\
    _max_position (self w') = Some D.
Proof.
  unfold startup. rewrite bind_logger. intros H.
  apply bind_ok in H. destruct H as (connected & w1 & Hc & H).
  destruct connected; simpl in H.
  - apply bind_ok in H. destruct H as (? & w2 & _ & H).
    apply bind_ok in H. destruct H as ([] & w3 & Hi & H).
    inversion H; subst. now apply initialise_ok in Hi.
  - discriminate.
Qed.

(** *** [set_bounds] *)

Lemma set_bounds_run a w D :
  _max_position (self w) = Some D ->
  set_bounds E a w =
    match arg_max_position a with
    | None => (Ok tt, with_min a w)
    | Some x =>
        if x <=? D then
          if lower_bound a <? x then (Ok tt, with_max x (with_min a w))
          else (Raise bounds_error, with_min a w)
        else (Ok tt, logged [Warn (widening_message x D)] (with_min a w))
    end.
Proof.
  intros HD. unfold set_bounds, with_min, lower_bound, negative_min_events.
  assert (Hlo : forall lo t,
             _min_position (self {| self := set__min_position E lo (self w);
                                    trace := t |}) = Some lo) by reflexivity.
  destruct (0 <=? arg_min_position a).
  - unfold bind at 1. unfold modify at 1. rewrite logged_nil.
    destruct (arg_max_position a) as [x|]; [|reflexivity].
    run_getattr HD.
    destruct (x <=? D).
    + run_getattr (Hlo (arg_min_position a) (trace w)).
      destruct (arg_min_position a <? x); reflexivity.
    + run_getattr HD. reflexivity.
  - rewrite bind_bind. unfold bind at 1. unfold modify at 1. rewrite bind_warn.
    destruct (arg_max_position a) as [x|]; [|reflexivity].
    run_getattr HD.
    destruct (x <=? D).
    + match goal with
      | |- context [bind (getattr E ?nm ?proj) ?k ?w0] =>
          rewrite (bind_run E (getattr E nm proj) k w0 0 w0 eq_refl)
      end.
      destruct (0 <? x); reflexivity.
    + run_getattr HD. reflexivity.
Qed.

(** *** [__init__] *)

Lemma bounds_port f R :
  port_blind R (fun w' : World E => same_bounds f (self w')).
Proof. intros f0 t p p' _ _ H. exact H. Qed.

Lemma bounds_quiet f : quiet (fun w' : World E => same_bounds f (self w')).
Proof. split; repeat intro; match goal with H : same_bounds _ _ |- _ => exact H end. Qed.

Lemma move_to_bounds w fuel requested blocking :
  same_bounds (self w) (self (snd (move_to E fuel requested blocking w))).
Proof.
  apply (stable_move_to E more_sent (more_sent_same E) (more_sent_write E)
           (fun w' => same_bounds (self w) (self w'))
           (bounds_port _ _) (bounds_quiet _)).
  now split.
Qed.

Lemma move_to_traced w fuel requested blocking :
  traced E (trace w) (snd (move_to E fuel requested blocking w)).
Proof.
  apply (stable_move_to E more_sent (more_sent_same E) (more_sent_write E)
           (traced E (trace w)) (traced_port E _ _) (traced_quiet E _)).
  exists []. now rewrite app_nil_r.
Qed.

(** What follows [startup] in [__init__]. *)
Lemma init_run a fuel w w1 :
  startup E a w = (Ok true, w1) ->
  __init__ E fuel a w =
    bind (set_bounds E a)
         (fun _ => match arg_initial_position a with
                   | Some p => set_position E fuel p
                   | None => ret tt
                   end) w1.
Proof. intros H. unfold __init__. now rewrite (bind_run E _ _ _ _ _ H). Qed.

Lemma init_ok a fuel w :
  __init__ E fuel a (fresh E a) = (Ok tt, w) ->
  exists w1 w2,
    startup E a (fresh E a) = (Ok true, w1) /\
    set_bounds E a w1 = (Ok tt, w2) /\
    same_bounds (self w2) (self w) /\
    traced E (trace w2) w.
Proof.
  intros H. pose proof H as H0. unfold __init__ in H0.
  apply bind_ok in H0. destruct H0 as (started & w1 & Hs & _).
  pose proof (startup_true _ _ _ _ Hs); subst started.
  rewrite (init_run a fuel _ w1 Hs) in H.
  apply bind_ok in H. destruct H as ([] & w2 & Hb & H).
  exists w1, w2. repeat split; auto.
  - destruct (arg_initial_position a) as [p|].
    + unfold set_position in H. apply bind_ok in H.
      destruct H as (? & w3 & Hm & H). inversion H; subst.
      pose proof (move_to_bounds w2 fuel p true) as Hk. rewrite Hm in Hk. apply Hk.
    + inversion H. reflexivity.
  - destruct (arg_initial_position a) as [p|].
    + unfold set_position in H. apply bind_ok in H.
      destruct H as (? & w3 & Hm & H). inversion H; subst.
      pose proof (move_to_bounds w2 fuel p true) as Hk. rewrite Hm in Hk. apply Hk.
    + inversion H. reflexivity.
  - destruct (arg_initial_position a) as [p|].
    + unfold set_position in H. apply bind_ok in H.
      destruct H as (? & w3 & Hm & H). inversion H; subst.
      pose proof (move_to_traced w2 fuel p true) as Hk. now rewrite Hm in Hk.
    + inversion H. exists []. now rewrite app_nil_r.
Qed.

Lemma new_ok a fuel f tr :
  new E fuel a = (Ok f, tr) ->
  exists w, __init__ E fuel a (fresh E a) = (Ok tt, w) /\ f = self w /\ tr = trace w.
Proof.
  unfold new. destruct (__init__ E fuel a (fresh E a)) as [[[]|e|] w];
    intros H; inversion H. now exists w.
Qed.

Lemma new_without_initial_position a fuel w1 w2 :
  startup E a (fresh E a) = (Ok true, w1) ->
  set_bounds E a w1 = (Ok tt, w2) ->
  arg_initial_position a = None ->
  new E fuel a = (Ok (self w2), trace w2).
Proof.
  intros Hs Hb Hi. unfold new. rewrite (init_run a fuel _ w1 Hs).
  rewrite (bind_run E _ _ _ _ _ Hb), Hi. reflexivity.
Qed.

Lemma new_bounds_error a fuel w1 w2 e :
  startup E a (fresh E a) = (Ok true, w1) ->
  set_bounds E a w1 = (Raise e, w2) ->
  new E fuel a = (Raise e, trace w2).
Proof.
  intros Hs Hb. unfold new. rewrite (init_run a fuel _ w1 Hs).
  now rewrite (bind_raise E _ _ _ _ _ Hb).
Qed.

Lemma lower_bound_nonneg a : 0 <= lower_bound a.
Proof. unfold lower_bound. destruct (Z.leb_spec 0 (arg_min_position a)); lia. Qed.

End Init.
End FocusLynxInit.

(* ================================================================== *)
(** ** The claims about the focuser *)
(* ================================================================== *)

Module FocusLynxClaims.
Import PyFacts FocusLynx FocusLynxProps FocusLynxFacts FocusLynxRuns FocusLynxSpec.
Import FocusLynxInit.

(** Splits conjunctions only: equations between runs of the model are
    left for the virtual machine. *)
Ltac splits := repeat match goal with |- _ /\ _ => split end.

Ltac run := vm_compute; reflexivity.

Lemma port_of_spec (d : Sim.dev) (w : World (Sim.env d)) :
  Scenario.has_port w = true ->
  _serial_port (self w) = Some (Some (Scenario.port_of w)).
Proof.
  unfold Scenario.has_port, Scenario.port_of.
  destruct (_serial_port (self w)) as [[p|]|]; intros H; try discriminate.
  reflexivity.
Qed.

Lemma returned_ok {A S : Type} (r : Res A * S) :
  Scenario.returned (fst r) = true -> exists a, r = (Ok a, snd r).
Proof. destruct r as [[a|e|] s]; intros H; try discriminate. now exists a. Qed.

Lemma run_pair {A S : Type} (r : Res A * S) (x : Res A) :
  fst r = x -> r = (x, snd r).
Proof. destruct r. simpl. now intros ->. Qed.

Lemma ready_built (d : Sim.dev) (w : World (Sim.env d)) n lo hi u :
  Scenario.has_port w = true ->
  _focuser_number (self w) = Some n ->
  _min_position (self w) = Some lo ->
  _max_position (self w) = Some hi ->
  option_map (dict_get "Nickname") (match _focuser_config (self w) with
                                    | Some c => c
                                    | None => None
                                    end) = Some (Some u) ->
  ready w (Scenario.port_of w) n lo hi u.
Proof.
  intros Hp Hn Hlo Hhi Hu. unfold ready.
  split; [now apply port_of_spec|]. repeat (split; [assumption|]).
  destruct (_focuser_config (self w)) as [[cfg|]|]; try discriminate.
  exists cfg. split; [reflexivity|]. simpl in Hu. now inversion Hu.
Qed.



(** C1.  The target can leave the limits.  [Focuser(min_position=8000)]
    on a device whose maximum is 7000 is built, with its lower limit
    above its upper limit: without an explicit [max_position] the
    constructor never compares the two.  Asked for 7500, which is above
    [max_position], this focuser sends the lower limit 8000, which is
    above [max_position] too, and returns it. *)
Lemma move_to_target_above_max :
  Scenario.returned (fst (new Scenario.healthy 0 (Sim.args Sim.tty 8000 None))) = true /\
  _min_position (self (Scenario.built Scenario.healthy 8000 None)) = Some 8000 /\
  _max_position (self (Scenario.built Scenario.healthy 8000 None)) = Some 7000 /\
  fst (move_to Scenario.healthy 0 7500 false (Scenario.built Scenario.healthy 8000 None)) =
    Ok 8000 /\
  sent_of (snd (move_to Scenario.healthy 0 7500 false
                        (Scenario.built Scenario.healthy 8000 None))) =
    ["<FHGETHUBINFO>"; "<F1GETCONFIG>"; "<F1GETSTATUS>"; "<F1MA008000>"] /\
  7000 < 7500 /\
  move_cmd 1 8000 = "<F1MA008000>" /\
  move_cmd 1 8000 <> move_cmd 1 7000 /\
  ~ (8000 <= 8000 <= 7000).
Proof. splits; try run; try lia. vm_compute. discriminate. Qed.

(** The scenario of a blocking move beyond the upper limit: the simulated
    focuser drives to 7000 and stops, the call returns 7000 and has warned
    about the range. *)
Example blocking_move_beyond_max :
  fst (move_to Scenario.healthy 3 8000 true (Scenario.built Scenario.healthy 0 None)) =
    Ok 7000 /\
  nth_error (trace (snd (move_to Scenario.healthy 3 8000 true
                                 (Scenario.built Scenario.healthy 0 None)))) 4 =
    Some (Warn (too_high 7000 8000)) /\
  fst (move_to Scenario.healthy 1 8000 true (Scenario.built Scenario.healthy 0 None)) =
    Hang.
Proof. splits; run. Qed.




(** C3: the getter of [temperature] sends nothing and changes nothing; it
    returns the value that the last status query left in the object.  After
    a non-blocking move the simulated motor is at 22.3 degrees, the read of
    [temperature] still yields the 21.7 of initialisation and writes no
    command, while the read of [position] does query the hub. *)
Theorem temperature_read_is_cached :
  (forall (E : Env) (w : World E),
      temperature E w =
        (match _temperature (self w) with
         | Some t => Ok (Celsius t)
         | None => Raise (AttributeError "_temperature")
         end, w)) /\
  fst (temperature Scenario.healthy
         (snd (move_to Scenario.healthy 0 4000 false
                       (Scenario.built Scenario.healthy 0 None)))) =
    Ok (Celsius "+21.7") /\
  _temperature
    (self (snd (position Scenario.healthy
                  (snd (move_to Scenario.healthy 0 4000 false
                                (Scenario.built Scenario.healthy 0 None)))))) =
    Some "+22.3" /\
  sent_of (snd (position Scenario.healthy
                  (snd (move_to Scenario.healthy 0 4000 false
                                (Scenario.built Scenario.healthy 0 None))))) =
    ["<FHGETHUBINFO>"; "<F1GETCONFIG>"; "<F1GETSTATUS>"; "<F1MA004000>";
     "<F1GETSTATUS>"].
Proof.
  split; [exact temperature_run|].
  splits; run.
Qed.




(** C6.  When [serial.Serial] raises, [Focuser(...)] ends with an
    exception, so the caller receives no object: a [SerialException] is
    caught by [__init__], whose handler loads the unbound name [port] and
    raises [NameError] before it reaches its [return]; any other exception
    passes through.  The object that is dropped holds no open port and none
    of the attributes that [__init__] assigns after connecting. *)
Theorem failed_connection_aborts_construction
        (E : Env) (a : init_args) (fuel : nat) (e : exn) :
  serial_Serial E (kw_port a) = inl e ->
  (exists tr,
      new E fuel a =
        (Raise (if is_SerialException e then NameError "port" else e), tr)) /\
  no_port (self (snd (__init__ E fuel a (fresh E a)))) /\
  uninitialised (self (snd (__init__ E fuel a (fresh E a)))).
Proof.
  intros He. destruct (startup_fail E a e He) as (w' & Hs & Hp & Hu).
  unfold new, __init__. rewrite (bind_raise E _ _ _ _ _ Hs). simpl. eauto.
Qed.

Lemma failed_connection_aborts_construction_witness :
  Scenario.outcome (fst (new Scenario.healthy 0 (Sim.args "/dev/null" 0 None))) =
    Raise (NameError "port").
Proof.
  destruct (failed_connection_aborts_construction
              Scenario.healthy (Sim.args "/dev/null" 0 None) 0
              (SerialException "could not open port /dev/null") eq_refl)
    as ((tr & Hn) & _ & _).
  rewrite Hn. reflexivity.
Defined.

(** X28.  What the constructor does with [max_position].  After
    connecting and initialising, [_max_position] is the integer that the
    device reports as [Max Pos].  On a focuser whose [min_position] does
    not exceed that value, a configured [max_position] above it is set
    aside: the device value stays and a warning is emitted.  A
    configured [max_position] that is not above the device value and
    not above the stored [min_position] makes construction fail with
    [ValueError].  One that is above [min_position] and not above the
    device value replaces the device value. *)
Theorem init_max_position
        (E : Env) (a : init_args) (fuel : nat) (w1 : World E) :
  startup E a (fresh E a) = (Ok true, w1) ->
  exists cfg v D,
    _focuser_config (self w1) = Some (Some cfg) /\
    dict_get "Max Pos" cfg = Some v /\
    int v = Ok D /\
    _max_position (self w1) = Some D /\
    match arg_max_position a with
    | None =>
        forall f tr, new E fuel a = (Ok f, tr) -> _max_position f = Some D
    | Some x =>
        (lower_bound a <= D -> D < x ->
         exists w2,
           set_bounds E a w1 = (Ok tt, w2) /\
           _max_position (self w2) = Some D /\
           In (Warn (widening_message x D)) (trace w2) /\
           (arg_initial_position a = None ->
            new E fuel a = (Ok (self w2), trace w2)) /\
           forall f tr, new E fuel a = (Ok f, tr) ->
                        _max_position f = Some D /\
                        In (Warn (widening_message x D)) tr) /\
        (x <= D -> x <= lower_bound a ->
         exists tr, new E fuel a = (Raise bounds_error, tr)) /\
        (lower_bound a < x <= D ->
         exists w2,
           set_bounds E a w1 = (Ok tt, w2) /\
           _max_position (self w2) = Some x /\
           (arg_initial_position a = None ->
            new E fuel a = (Ok (self w2), trace w2)) /\
           forall f tr, new E fuel a = (Ok f, tr) -> _max_position f = Some x)
    end.
Proof.
  intros Hs. destruct (startup_ok E a _ _ Hs) as (cfg & v & D & Hc & Hv & HD & Hmax).
  exists cfg, v, D. repeat (split; [assumption|]).
  pose proof (set_bounds_run E a w1 D Hmax) as Hb.
  assert (Hfinal : forall f tr,
             new E fuel a = (Ok f, tr) ->
             exists w2, set_bounds E a w1 = (Ok tt, w2) /\
                        _max_position f = _max_position (self w2) /\
                        traced E (trace w2) {| self := f; trace := tr |}).
  { intros f tr Hn. apply new_ok in Hn. destruct Hn as (w & Hi & -> & ->).
    apply init_ok in Hi. destruct Hi as (w1' & w2 & Hs' & Hb' & [_ Hk] & Ht).
    rewrite Hs in Hs'. inversion Hs'; subst w1'.
    exists w2. split; [assumption|]. split; [assumption|]. now destruct w. }
  destruct (arg_max_position a) as [x|].
  - split; [|split].
    + intros _ Hx. destruct (Z.leb_spec x D); [lia|].
      eexists. split; [exact Hb|]. split; [exact Hmax|].
      split; [simpl; apply in_or_app; right; now left|].
      split; [intros Hi; now apply new_without_initial_position with (w1 := w1)|].
      intros f tr Hn. destruct (Hfinal f tr Hn) as (w2 & Hb2 & Hm & later & Ht).
      rewrite Hb in Hb2. inversion Hb2; subst w2. split; [now rewrite Hm|].
      simpl in Ht. rewrite Ht. apply in_or_app. left. apply in_or_app. right. now left.
    + intros Hx Hlo. destruct (Z.leb_spec x D); [|lia].
      destruct (Z.ltb_spec (lower_bound a) x); [lia|].
      eexists. now apply new_bounds_error with (w1 := w1) (w2 := with_min a w1).
    + intros [Hlo Hx]. destruct (Z.leb_spec x D); [|lia].
      destruct (Z.ltb_spec (lower_bound a) x); [|lia].
      eexists. split; [exact Hb|]. split; [reflexivity|].
      split; [intros Hi; now apply new_without_initial_position with (w1 := w1)|].
      intros f tr Hn. destruct (Hfinal f tr Hn) as (w2 & Hb2 & Hm & _).
      rewrite Hb in Hb2. inversion Hb2; subst w2. now rewrite Hm.
  - intros f tr Hn. destruct (Hfinal f tr Hn) as (w2 & Hb2 & Hm & _).
    rewrite Hb in Hb2. inversion Hb2; subst w2. now rewrite Hm.
Qed.

Lemma init_max_position_witness :
  exists f tr,
    new Scenario.healthy 0 (Sim.args Sim.tty 0 (Some 5000)) = (Ok f, tr) /\
    _max_position f = Some 5000.
Proof.
  destruct (returned_ok (new Scenario.healthy 0 (Sim.args Sim.tty 0 (Some 5000))))
    as [f Hf]; [run|].
  exists f, (snd (new Scenario.healthy 0 (Sim.args Sim.tty 0 (Some 5000)))).
  split; [exact Hf|].
  destruct (init_max_position
              Scenario.healthy (Sim.args Sim.tty 0 (Some 5000)) 0 _
              (run_pair (startup Scenario.healthy (Sim.args Sim.tty 0 (Some 5000))
                                 (fresh Scenario.healthy (Sim.args Sim.tty 0 (Some 5000))))
                        (Ok true) ltac:(run)))
    as (cfg & v & D & Hc & Hv & HD & _ & _ & _ & Hin).
  vm_compute in Hc. inversion Hc; subst cfg; clear Hc.
  vm_compute in Hv. inversion Hv; subst v; clear Hv.
  vm_compute in HD. inversion HD; subst D; clear HD.
  destruct (Hin ltac:(vm_compute; split; [reflexivity|discriminate]))
    as (w2 & _ & _ & _ & Hmax).
  exact (Hmax f _ Hf).
Defined.

(** C7.  A [max_position] below [min_position] can pass.  With
    [min_position=8000] on a device whose maximum is 7000, the
    configured [max_position=7500] is below [min_position], yet
    construction completes: the value is above the device maximum, so
    it is set aside with a warning before it is ever compared with
    [min_position], and the object is left with its lower limit above
    its upper limit.  With [max_position=7000] the same construction
    fails with [ValueError]. *)
Lemma max_below_min_does_not_fail :
  match fst (new Scenario.healthy 0 (Sim.args Sim.tty 8000 (Some 7000))) with
  | Raise e => e = bounds_error
  | _ => False
  end /\
  Scenario.returned
    (fst (new Scenario.healthy 0 (Sim.args Sim.tty 8000 (Some 7500)))) = true /\
  _min_position (self (Scenario.built Scenario.healthy 8000 (Some 7500))) = Some 8000 /\
  _max_position (self (Scenario.built Scenario.healthy 8000 (Some 7500))) = Some 7000 /\
  nth_error (trace (Scenario.built Scenario.healthy 8000 (Some 7500))) 3 =
    Some (Warn (widening_message 7500 7000)).
Proof. splits; run. Qed.

(** C9.  After a construction that completes, [min_position] is not
    negative; an explicit [max_position] has either been accepted, and is
    then the stored upper limit and above [min_position], or been set aside
    with a warning because it is above the device maximum.  None of
    [move_to], [halt], the reads of [position], [is_moving], [temperature]
    and [uid], and the setting of [uid] changes either limit, however the
    call ends. *)
Theorem bounds_invariant (E : Env) :
  (forall a fuel f tr,
      new E fuel a = (Ok f, tr) ->
      exists lo hi,
        _min_position f = Some lo /\ _max_position f = Some hi /\ 0 <= lo /\
        forall x, arg_max_position a = Some x ->
                  (hi = x /\ lo < hi) \/
                  (hi < x /\ In (Warn (widening_message x hi)) tr)) /\
  (forall (w : World E) fuel requested blocking,
      same_bounds (self w) (self (snd (move_to E fuel requested blocking w)))) /\
  (forall w : World E, same_bounds (self w) (self (snd (halt E w)))) /\
  (forall w : World E, same_bounds (self w) (self (snd (position E w)))) /\
  (forall w : World E, same_bounds (self w) (self (snd (is_moving E w)))) /\
  (forall w : World E, same_bounds (self w) (self (snd (temperature E w)))) /\
  (forall w : World E, same_bounds (self w) (self (snd (uid E w)))) /\
  (forall (w : World E) nickname,
      same_bounds (self w) (self (snd (set_uid E nickname w)))).
Proof.
  split.
  { intros a fuel f tr Hn. apply new_ok in Hn. destruct Hn as (w & Hi & -> & ->).
    apply init_ok in Hi. destruct Hi as (w1 & w2 & Hs & Hb & [Hlo Hhi] & later & Ht).
    destruct (startup_ok E a _ _ Hs) as (cfg & v & D & _ & _ & _ & Hmax).
    rewrite (set_bounds_run E a w1 D Hmax) in Hb.
    exists (lower_bound a).
    destruct (arg_max_position a) as [x|].
    - destruct (Z.leb_spec x D).
      + destruct (Z.ltb_spec (lower_bound a) x); [|discriminate].
        inversion Hb; subst w2. exists x.
        split; [now rewrite Hlo|]. split; [now rewrite Hhi|].
        split; [apply lower_bound_nonneg|].
        intros x' Hx. inversion Hx; subst x'. now left.
      + inversion Hb; subst w2. exists D.
        split; [now rewrite Hlo|]. split; [now rewrite Hhi|].
        split; [apply lower_bound_nonneg|].
        intros x' Hx. inversion Hx; subst x'. right. split; [assumption|].
        rewrite Ht. simpl. apply in_or_app. left. apply in_or_app. right. now left.
    - inversion Hb; subst w2. exists D.
      split; [now rewrite Hlo|]. split; [now rewrite Hhi|].
      split; [apply lower_bound_nonneg|]. discriminate. }
  split; [intros; apply move_to_bounds|].
  split.
  { intros w.
    apply (stable_halt E more_sent (more_sent_same E) (more_sent_write E)
             (fun w' => same_bounds (self w) (self w'))
             (bounds_port E _ _) (quiet_trace E _ (bounds_quiet E _))).
    now split. }
  split.
  { intros w.
    apply (stable_position E more_sent (more_sent_same E) (more_sent_write E)
             (fun w' => same_bounds (self w) (self w'))
             (bounds_port E _ _) (bounds_quiet E _)).
    now split. }
  split.
  { intros w.
    apply (stable_is_moving E more_sent (more_sent_same E) (more_sent_write E)
             (fun w' => same_bounds (self w) (self w'))
             (bounds_port E _ _) (bounds_quiet E _)).
    now split. }
  split; [intros w; rewrite temperature_run; now split|].
  split; [intros w; rewrite uid_readonly; now split|].
  intros w nickname.
  apply (stable_set_uid E more_sent (more_sent_same E) (more_sent_write E)
           (fun w' => same_bounds (self w) (self w'))
           (bounds_port E _ _) (bounds_quiet E _)).
  now split.
Qed.

Lemma bounds_invariant_witness :
  exists f tr lo hi,
    new Scenario.healthy 0 (Sim.args Sim.tty (-5) (Some 5000)) = (Ok f, tr) /\
    _min_position f = Some lo /\ _max_position f = Some hi /\ 0 <= lo.
Proof.
  destruct (returned_ok (new Scenario.healthy 0 (Sim.args Sim.tty (-5) (Some 5000))))
    as [f Hf]; [run|].
  destruct (proj1 (bounds_invariant Scenario.healthy) _ _ _ _ Hf)
    as (lo & hi & Hlo & Hhi & Hnn & _).
  exists f, (snd (new Scenario.healthy 0 (Sim.args Sim.tty (-5) (Some 5000)))), lo, hi.
  auto.
Defined.

(** C10.  [halt] leaves [_position], [_target_position], [_is_moving],
    [_temperature], [_min_position] and [_max_position] as they were,
    however it ends; it writes at most the one halt command to the port,
    and adds at most its warning-level log record to the trace. *)
Theorem halt_leaves_state (E : Env) (w : World E) :
  same_state (self w) (self (snd (halt E w))) /\
  (sent_of (snd (halt E w)) = sent_of w \/
   exists n, _focuser_number (self w) = Some n /\
             sent_of (snd (halt E w)) = (sent_of w ++ [halt_cmd n])%list) /\
  (trace (snd (halt E w)) = trace w \/
   exists u, trace (snd (halt E w)) =
             (trace w ++ [Log WARNING ("Focuser " ++ u ++ " halted")])%list).
Proof.
  split; [apply halt_state|]. split; [apply halt_sent|apply halt_trace].
Qed.

End FocusLynxClaims.

(* ================================================================== *)
(** ** The claims about the mount *)
(* ================================================================== *)

Module MountClaims.
Import Mount MountProps.

Lemma setup_commands_rebound :
  dict_get "setup_commands" namespace = Some def_setup_commands_118.
Proof. reflexivity. Qed.

Lemma self_setup_commands_run (commands : dict string) (w : World) :
  self_setup_commands commands w =
    (Raise (TypeError "setup_commands() takes 1 positional argument but 2 were given"), w).
Proof. unfold self_setup_commands. rewrite setup_commands_rebound. reflexivity. Qed.

Lemma closed_logged (m : AbstractMount) (l : list string) (lvl : level) (msg : string) :
  serial m = None ->
  closed {| self := m; trace := [] ++ [Log lvl msg]; line := l |}.
Proof.
  intros H. split; [exact H|]. intros address [Hin|[]]. discriminate.
Qed.

(** The constructor of [AbstractMount] never returns: whatever the table,
    the call of [setup_commands] reaches the second definition. *)
Lemma abstract_mount_is_never_built
      (answers : list string) (config : option (dict value))
      (commands : option (dict string)) (connect : bool) :
  exists e w, new answers config commands connect = (Raise e, w) /\ closed w.
Proof.
  unfold new, __init__.
  destruct config as [config|].
  - destruct commands as [commands|].
    + destruct (is_not_None (get "serial_port" config)); cbv [negb].
      * unfold bind at 1 2 3. unfold modify at 1 2 3. unfold bind at 1.
        rewrite self_setup_commands_run.
        do 2 eexists. split; [reflexivity|]. split; [reflexivity|].
        intros address [].
      * do 2 eexists. split; [reflexivity|]. now apply closed_logged.
    + do 2 eexists. split; [reflexivity|]. now apply closed_logged.
  - do 2 eexists. split; [reflexivity|]. now apply closed_logged.
Qed.

(** C5.  With a command table that has no [slew] entry the construction
    of a mount ends with an exception, and at that point no transport has
    been opened: the object has no [serial] attribute and the trace records
    no opening.  The body of the first [setup_commands] fails its assertion
    on such a table. *)
Theorem mount_without_slew_is_not_built
        (answers : list string) (config : option (dict value))
        (commands : dict string) (connect : bool) :
  dict_get "slew" commands = None ->
  (exists e w,
      new answers config (Some commands) connect = (Raise e, w) /\
      serial (self w) = None /\
      forall address, ~ In (Opened address) (trace w)) /\
  (forall w, fst (setup_commands_61 commands w) = Raise AssertionError).
Proof.
  intros Hslew. split.
  - destruct (abstract_mount_is_never_built answers config (Some commands) connect)
      as (e & w & Hn & Hs & Ht).
    now exists e, w.
  - intros w. unfold setup_commands_61, bind, modify. simpl. now rewrite Hslew.
Qed.

Lemma mount_without_slew_is_not_built_witness :
  exists e w,
    new [] (Some [("serial_port", VStr "/dev/ttyUSB0")])
        (Some [("cmd_pre", ":"); ("cmd_post", "#"); ("park", "MP")]) false =
      (Raise e, w) /\
    serial (self w) = None.
Proof.
  destruct (mount_without_slew_is_not_built
              [] (Some [("serial_port", VStr "/dev/ttyUSB0")])
              [("cmd_pre", ":"); ("cmd_post", "#"); ("park", "MP")] false eq_refl)
    as [(e & w & Hn & Hs & _) _].
  now exists e, w.
Defined.

(** C8, as amended.  For a command name that is not in the table, on a
    mount whose wrapping tokens, table and transport are set,
    [get_command] formats the missing token as [None]; [serial_query]
    writes the pre-token, ["None"] and the post-token to the transport and
    returns the response it reads.  No error is raised. *)
Theorem unknown_command_is_transmitted
        (w : World) (pre post : string) (tbl : dict string)
        (d : SerialData) (cmd : string) :
  _pre_cmd (self w) = Some pre ->
  commands (self w) = Some tbl ->
  _post_cmd (self w) = Some post ->
  serial (self w) = Some d ->
  dict_get cmd tbl = None ->
  fst (get_command cmd w) = Ok (pre ++ "None" ++ post)%string /\
  fst (serial_query cmd w) =
    Ok (fst (SerialData_read (SerialData_write (pre ++ "None" ++ post)%string d))) /\
  option_map wire (serial (self (snd (serial_query cmd w)))) =
    Some (wire d ++ [(pre ++ "None" ++ post)%string])%list.
Proof.
  intros Hpre Htbl Hpost Hd Hcmd.
  assert (Hg : get_command cmd w = (Ok (pre ++ "None" ++ post)%string, w)).
  { unfold get_command, bind, getattr, ret.
    rewrite Hpre, Htbl, Hpost, Hcmd. reflexivity. }
  split; [now rewrite Hg|].
  assert (Hq : exists tr,
             serial_query cmd w =
               (Ok (fst (SerialData_read
                           (SerialData_write (pre ++ "None" ++ post)%string d))),
                {| self := set_serial
                             (snd (SerialData_read
                                     (SerialData_write (pre ++ "None" ++ post)%string d)))
                             (self w);
                   trace := tr; line := line w |})).
  { unfold serial_query. unfold bind at 1. rewrite Hg.
    unfold bind at 1. unfold serial_send, bind, logger, getattr, modify. simpl.
    rewrite Hd. unfold serial_read, bind, getattr. simpl.
    match goal with
    | |- context [SerialData_read ?x] => destruct (SerialData_read x) as [response d']
    end.
    simpl. eexists. reflexivity. }
  destruct Hq as [tr Hq]. rewrite Hq. simpl. split; [reflexivity|].
  f_equal. unfold SerialData_read. simpl. now destruct (incoming d).
Qed.

Lemma unknown_command_is_transmitted_witness :
  fst (serial_query "park" Scenario.mount) = Ok "0#" /\
  option_map wire (serial (self (snd (serial_query "park" Scenario.mount)))) =
    Some [":None#"].
Proof.
  destruct (unknown_command_is_transmitted
              Scenario.mount ":" "#" Scenario.table
              {| wire := []; incoming := ["0#"] |} "park"
              eq_refl eq_refl eq_refl eq_refl eq_refl)
    as (_ & Hq & Hw).
  split; [exact Hq|exact Hw].
Defined.

(** C8, the claim as stated fails: [park] is not in the table, and
    [serial_query "park"] raises nothing; it puts [:None#] on the wire
    and returns the answer of the hardware. *)
Lemma unknown_command_reaches_the_wire :
  dict_get "park" Scenario.table = None /\
  fst (get_command "park" Scenario.mount) = Ok ":None#" /\
  fst (serial_query "park" Scenario.mount) = Ok "0#" /\
  option_map wire (serial (self (snd (serial_query "park" Scenario.mount)))) =
    Some [":None#"].
Proof. repeat split. Qed.

End MountClaims.

(* ================================================================== *)
(** ** More facts about the built-ins: trimming and integer literals *)
(* ================================================================== *)

Module PyStrings.

(** No character of the string is white space. *)
Fixpoint no_space (s : string) : bool :=
  match s with
  | EmptyString => true
  | String c r => negb (is_space c) && no_space r
  end.

Lemma app_not_empty (a : string) (c : ascii) (b : string) :
  (a ++ String c b)%string <> EmptyString.
Proof. destruct a; discriminate. Qed.

Lemma lstrip_app (a : string) (c : ascii) (b : string) :
  is_space c = false ->
  lstrip (a ++ String c b) = (lstrip a ++ String c b)%string.
Proof.
  intros Hc. induction a as [|x a IH]; simpl.
  - now rewrite Hc.
  - destruct (is_space x); [exact IH|reflexivity].
Qed.

Lemma rstrip_cons (c : ascii) (b : string) :
  is_space c = false -> rstrip (String c b) = String c (rstrip b).
Proof. intros Hc. simpl. rewrite Hc. now destruct (rstrip b). Qed.

Lemma rstrip_app (a : string) (c : ascii) (b : string) :
  is_space c = false ->
  rstrip (a ++ String c b) = (a ++ String c (rstrip b))%string.
Proof.
  intros Hc. induction a as [|x a IH].
  - now apply rstrip_cons.
  - change (rstrip (String x (a ++ String c b)) =
            String x (a ++ String c (rstrip b))).
    simpl. rewrite IH.
    destruct (a ++ String c (rstrip b))%string eqn:Hs; [|reflexivity].
    now apply app_not_empty in Hs.
Qed.

(** Trimming a line around a character that is not white space. *)
Lemma strip_app (a : string) (c : ascii) (b : string) :
  is_space c = false ->
  strip (a ++ String c b) = (lstrip a ++ String c (rstrip b))%string.
Proof.
  intros Hc. unfold strip. now rewrite lstrip_app, rstrip_app.
Qed.

Lemma lstrip_idem (s : string) : lstrip (lstrip s) = lstrip s.
Proof.
  induction s as [|c s IH]; simpl; [reflexivity|].
  destruct (is_space c) eqn:Hc; [exact IH|]. simpl. now rewrite Hc.
Qed.

Lemma rstrip_idem (s : string) : rstrip (rstrip s) = rstrip s.
Proof.
  induction s as [|c s IH]; simpl; [reflexivity|].
  destruct (rstrip s) as [|x y] eqn:Hr.
  - destruct (is_space c) eqn:Hc; simpl; [reflexivity|now rewrite Hc].
  - change (rstrip (String c (String x y)) = String c (String x y)).
    simpl. simpl in IH. rewrite IH. reflexivity.
Qed.

Lemma lstrip_rstrip (s : string) : lstrip (rstrip s) = rstrip (lstrip s).
Proof.
  induction s as [|c s IH]; [reflexivity|].
  destruct (is_space c) eqn:Hc.
  - simpl. rewrite Hc. rewrite <- IH.
    destruct (rstrip s) as [|x y]; [reflexivity|]. simpl. now rewrite Hc.
  - rewrite (rstrip_cons c s Hc). simpl lstrip. rewrite Hc.
    now rewrite (rstrip_cons c s Hc).
Qed.

Lemma strip_lstrip (s : string) : strip (lstrip s) = strip s.
Proof. unfold strip. now rewrite lstrip_idem. Qed.

Lemma strip_rstrip (s : string) : strip (rstrip s) = strip s.
Proof. unfold strip. now rewrite lstrip_rstrip, rstrip_idem. Qed.

(** [s.strip().strip() == s.strip()] *)
Lemma strip_idem (s : string) : strip (strip s) = strip s.
Proof. unfold strip at 2. now rewrite strip_rstrip, strip_lstrip. Qed.

Lemma contains_lstrip (c : ascii) (s : string) :
  contains c s = false -> contains c (lstrip s) = false.
Proof.
  induction s as [|x s IH]; simpl; [reflexivity|]. intros H.
  apply orb_false_iff in H. destruct H as [Hx Hs].
  destruct (is_space x); [now apply IH|]. simpl. now rewrite Hx, Hs.
Qed.

Lemma contains_rstrip (c : ascii) (s : string) :
  contains c s = false -> contains c (rstrip s) = false.
Proof.
  induction s as [|x s IH]; simpl; [reflexivity|]. intros H.
  apply orb_false_iff in H. destruct H as [Hx Hs]. specialize (IH Hs).
  destruct (rstrip s) as [|y r].
  - destruct (is_space x); simpl; [reflexivity|now rewrite Hx].
  - simpl in *. now rewrite Hx, IH.
Qed.

Lemma contains_app (c : ascii) (a b : string) :
  contains c (a ++ b) = contains c a || contains c b.
Proof.
  induction a as [|x a IH]; simpl; [reflexivity|].
  now rewrite IH, orb_assoc.
Qed.

Lemma lstrip_no_space (s : string) : no_space s = true -> lstrip s = s.
Proof.
  destruct s as [|c s]; simpl; [reflexivity|]. intros H.
  apply andb_true_iff in H. destruct H as [Hc _].
  apply negb_true_iff in Hc. now rewrite Hc.
Qed.

Lemma rstrip_no_space (s : string) : no_space s = true -> rstrip s = s.
Proof.
  induction s as [|c s IH]; [reflexivity|]. simpl no_space. intros H.
  apply andb_true_iff in H. destruct H as [Hc Hs].
  apply negb_true_iff in Hc. now rewrite (rstrip_cons c s Hc), (IH Hs).
Qed.

Lemma strip_no_space (s : string) : no_space s = true -> strip s = s.
Proof.
  intros H. unfold strip. now rewrite (lstrip_no_space s H), (rstrip_no_space s H).
Qed.

Lemma no_space_app (a b : string) :
  no_space (a ++ b) = no_space a && no_space b.
Proof.
  induction a as [|c a IH]; simpl; [reflexivity|].
  now rewrite IH, andb_assoc.
Qed.

(** [s[:n]] is at most [n] characters long and is [s] when [s] is short. *)
Lemma substring_length (n : nat) (s : string) :
  (String.length (substring 0 n s) <= n)%nat.
Proof.
  revert s. induction n as [|n IH]; intros [|c s]; simpl; try lia.
  specialize (IH s). lia.
Qed.

Lemma substring_short (n : nat) (s : string) :
  (String.length s <= n)%nat -> substring 0 n s = s.
Proof.
  revert s. induction n as [|n IH]; intros [|c s]; simpl; intros H;
    try reflexivity; try lia.
  rewrite IH; [reflexivity|lia].
Qed.

Lemma is_ascii_substring (n : nat) (s : string) :
  is_ascii s = true -> is_ascii (substring 0 n s) = true.
Proof.
  revert s. induction n as [|n IH]; intros [|c s]; simpl; intros H;
    try reflexivity.
  apply andb_true_iff in H. destruct H as [Hc Hs].
  now rewrite Hc, (IH s Hs).
Qed.

End PyStrings.

Module PyInts.
Import PyStrings.

Lemma length_app (a b : string) :
  String.length (a ++ b) = (String.length a + String.length b)%nat.
Proof. induction a as [|c a IH]; simpl; [reflexivity|now rewrite IH]. Qed.

Lemma length_zeros (k : nat) : String.length (zeros k) = k.
Proof. induction k as [|k IH]; simpl; [reflexivity|now rewrite IH]. Qed.

Lemma no_space_zeros (k : nat) : no_space (zeros k) = true.
Proof. induction k as [|k IH]; simpl; [reflexivity|exact IH]. Qed.

Lemma no_space_uint (d : Decimal.uint) :
  no_space (NilEmpty.string_of_uint d) = true.
Proof. induction d; simpl; auto. Qed.

Lemma no_space_str_int (n : Z) : no_space (str_int n) = true.
Proof.
  unfold str_int, NilZero.string_of_int, NilZero.string_of_uint.
  destruct (Z.to_int n) as [d|d]; destruct d; simpl; auto using no_space_uint.
Qed.

Lemma digits_acc_digit (c : ascii) (r : string) (acc : Z) :
  is_digit c = true ->
  digits_acc (String c r) acc false = digits_acc r (10 * acc + digit_val c) false.
Proof. simpl. now intros ->. Qed.

Ltac digit_step :=
  rewrite digits_acc_digit by reflexivity;
  match goal with
  | |- context [digit_val ?c] =>
      let v := eval vm_compute in (digit_val c) in change (digit_val c) with v
  end.

(** The digits of a decimal numeral, read with a carry that is positive. *)
Lemma digits_acc_pos (d : Decimal.uint) (acc : positive) :
  digits_acc (NilEmpty.string_of_uint d) (Z.pos acc) false =
    Some (Z.pos (Pos.of_uint_acc d acc)).
Proof.
  revert acc.
  induction d; intros acc;
    cbn [NilEmpty.string_of_uint Pos.of_uint_acc]; [reflexivity| ..];
    digit_step; rewrite <- IHd; f_equal; lia.
Qed.

Lemma digits_acc_zero (d : Decimal.uint) :
  digits_acc (NilEmpty.string_of_uint d) 0 false = Some (Z.of_N (Pos.of_uint d)).
Proof.
  induction d; cbn [NilEmpty.string_of_uint Pos.of_uint]; [reflexivity| ..];
    digit_step; [exact IHd| ..];
    cbn [Z.of_N]; rewrite <- digits_acc_pos; f_equal.
Qed.

Lemma digits_acc_zeros (k : nat) (s : string) :
  digits_acc (zeros k ++ s) 0 false = digits_acc s 0 false.
Proof. induction k as [|k IH]; simpl; [reflexivity|exact IH]. Qed.

(** The first character of a string, when it is a digit. *)
Definition starts_with_digit (s : string) : bool :=
  match s with
  | String c _ => is_digit c
  | EmptyString => false
  end.

Lemma parse_digits_start (s : string) :
  starts_with_digit s = true -> parse_digits s = digits_acc s 0 false.
Proof. destruct s as [|c s]; simpl; [discriminate|]. now intros ->. Qed.

Lemma starts_with_digit_uint (d : Decimal.uint) :
  d <> Decimal.Nil -> starts_with_digit (NilEmpty.string_of_uint d) = true.
Proof. destruct d; intros H; [congruence|reflexivity ..]. Qed.

Lemma starts_with_digit_zeros (k : nat) (s : string) :
  starts_with_digit s = true -> starts_with_digit (zeros k ++ s) = true.
Proof. destruct k; simpl; auto. Qed.

Lemma str_int_pos (p : positive) :
  str_int (Z.pos p) = NilEmpty.string_of_uint (Pos.to_uint p).
Proof.
  unfold str_int, NilZero.string_of_int, NilZero.string_of_uint. simpl.
  destruct (Pos.to_uint p) eqn:H; try reflexivity.
  now apply DecimalPos.Unsigned.to_uint_nonnil in H.
Qed.

Lemma str_int_neg (p : positive) :
  str_int (Z.neg p) = String "-" (str_int (Z.pos p)).
Proof.
  rewrite str_int_pos.
  unfold str_int, NilZero.string_of_int, NilZero.string_of_uint. simpl.
  destruct (Pos.to_uint p) eqn:H; try reflexivity.
  now apply DecimalPos.Unsigned.to_uint_nonnil in H.
Qed.

Lemma starts_with_digit_str_int (n : Z) :
  0 <= n -> starts_with_digit (str_int n) = true.
Proof.
  destruct n as [|p|p]; intros H; [reflexivity| |lia].
  rewrite str_int_pos. apply starts_with_digit_uint.
  apply DecimalPos.Unsigned.to_uint_nonnil.
Qed.

Lemma digits_str_int (n : Z) :
  0 <= n -> digits_acc (str_int n) 0 false = Some n.
Proof.
  destruct n as [|p|p]; intros H; [reflexivity| |lia].
  rewrite str_int_pos, digits_acc_zero.
  now rewrite DecimalPos.Unsigned.of_to.
Qed.

(** [int] on a literal that starts with a digit and has no white space. *)
Lemma int_digits (s : string) (n : Z) :
  starts_with_digit s = true -> no_space s = true ->
  digits_acc s 0 false = Some n -> int s = Ok n.
Proof.
  intros Hd Hs Hn. unfold int. rewrite (strip_no_space s Hs).
  assert (Hp : parse_digits s = Some n) by now rewrite parse_digits_start.
  destruct s as [|c r]; [discriminate|].
  destruct c as [[] [] [] [] [] [] [] []]; try discriminate Hd;
    now rewrite Hp.
Qed.

Lemma int_minus (s : string) (n : Z) :
  starts_with_digit s = true -> no_space s = true ->
  digits_acc s 0 false = Some n -> int (String "-" s) = Ok (- n).
Proof.
  intros Hd Hs Hn. unfold int.
  rewrite (strip_no_space (String "-" s)) by exact Hs.
  now rewrite (parse_digits_start s Hd), Hn.
Qed.

(** [int(str(n)) == n] *)
Lemma int_str_int (n : Z) : int (str_int n) = Ok n.
Proof.
  destruct n as [|p|p].
  - reflexivity.
  - apply int_digits.
    + now apply starts_with_digit_str_int.
    + apply no_space_str_int.
    + now apply digits_str_int.
  - rewrite str_int_neg.
    apply (int_minus (str_int (Z.pos p)) (Z.pos p)).
    + now apply starts_with_digit_str_int.
    + apply no_space_str_int.
    + now apply digits_str_int.
Qed.

(** [int('{:0<w>d}'.format(n)) == n] *)
Lemma int_format_0d (w : nat) (n : Z) : int (format_0d w n) = Ok n.
Proof.
  unfold format_0d. destruct (Z.ltb_spec n 0) as [Hneg|Hpos].
  - replace n with (- Z.abs n) at 3 by lia.
    apply (int_minus (zeros _ ++ str_int (Z.abs n)) (Z.abs n)).
    + apply starts_with_digit_zeros, starts_with_digit_str_int. lia.
    + now rewrite no_space_app, no_space_zeros, no_space_str_int.
    + rewrite digits_acc_zeros. apply digits_str_int. lia.
  - rewrite Z.abs_eq by exact Hpos.
    apply int_digits.
    + now apply starts_with_digit_zeros, starts_with_digit_str_int.
    + now rewrite no_space_app, no_space_zeros, no_space_str_int.
    + rewrite digits_acc_zeros. now apply digits_str_int.
Qed.

(** The field is never shorter than its width. *)
Lemma length_format_0d (w : nat) (n : Z) :
  (w <= String.length (format_0d w n))%nat.
Proof.
  unfold format_0d. destruct (n <? 0).
  - change ("-" ++ ?s)%string with (String "-" s). simpl String.length.
    rewrite length_app, length_zeros. lia.
  - rewrite length_app, length_zeros. lia.
Qed.

(** *** The number of digits *)

Lemma of_uint_acc_ge (d : Decimal.uint) (acc : positive) :
  Z.pos acc * 10 ^ Z.of_nat (String.length (NilEmpty.string_of_uint d))
  <= Z.pos (Pos.of_uint_acc d acc).
Proof.
  revert acc. induction d; intros acc;
    cbn [NilEmpty.string_of_uint Pos.of_uint_acc String.length];
    [rewrite Z.pow_0_r; lia| ..];
    rewrite Nat2Z.inj_succ, Z.pow_succ_r by lia;
    match goal with
    | |- _ <= Z.pos (Pos.of_uint_acc _ ?q) =>
        specialize (IHd q);
        assert (0 < 10 ^ Z.of_nat (String.length (NilEmpty.string_of_uint d)))
          by (apply Z.pow_pos_nonneg; lia);
        nia
    end.
Qed.

(** The numeral does not start with a zero. *)
Definition nonzero_start (d : Decimal.uint) : Prop :=
  match d with
  | Decimal.Nil | Decimal.D0 _ => False
  | _ => True
  end.

Lemma nzhead_start (d : Decimal.uint) :
  Decimal.nzhead d = Decimal.Nil \/ nonzero_start (Decimal.nzhead d).
Proof. induction d; simpl; auto. Qed.

Lemma to_uint_start (p : positive) : nonzero_start (Pos.to_uint p).
Proof.
  assert (H : Pos.to_uint p = Decimal.unorm (Pos.to_uint p)).
  { pose proof (DecimalPos.Unsigned.to_of (Pos.to_uint p)) as H.
    rewrite DecimalPos.Unsigned.of_to in H. exact H. }
  unfold Decimal.unorm in H.
  destruct (nzhead_start (Pos.to_uint p)) as [Hnil|Hs].
  - exfalso. rewrite Hnil in H.
    now apply DecimalPos.Unsigned.to_uint_nonzero in H.
  - destruct (Decimal.nzhead (Pos.to_uint p)) eqn:Hz; simpl in Hs;
      try contradiction; rewrite H; exact I.
Qed.

Lemma length_uint_bound (d : Decimal.uint) (k : nat) :
  nonzero_start d -> Z.of_N (Pos.of_uint d) < 10 ^ Z.of_nat k ->
  (String.length (NilEmpty.string_of_uint d) <= k)%nat.
Proof.
  intros Hs Hlt.
  destruct d; try contradiction;
    cbn [Pos.of_uint NilEmpty.string_of_uint String.length Z.of_N] in *;
    match type of Hlt with
    | Z.pos (Pos.of_uint_acc ?l ?q) < _ =>
        pose proof (of_uint_acc_ge l q) as Hge;
        assert (Hpow : 10 ^ Z.of_nat (String.length (NilEmpty.string_of_uint l))
                       < 10 ^ Z.of_nat k)
          by (assert (0 < 10 ^ Z.of_nat (String.length (NilEmpty.string_of_uint l)))
                by (apply Z.pow_pos_nonneg; lia); nia);
        apply Z.pow_lt_mono_r_iff in Hpow; lia
    end.
Qed.

(** A number below [10^k] has at most [k] digits. *)
Lemma length_str_int (n : Z) (k : nat) :
  0 <= n < 10 ^ Z.of_nat k -> (1 <= k)%nat ->
  (String.length (str_int n) <= k)%nat.
Proof.
  intros [Hlo Hhi] Hk. destruct n as [|p|p]; [exact Hk| |lia].
  rewrite str_int_pos. apply length_uint_bound.
  - apply to_uint_start.
  - now rewrite DecimalPos.Unsigned.of_to.
Qed.

Lemma length_format_0d_exact (w : nat) (n : Z) :
  0 <= n < 10 ^ Z.of_nat w -> (1 <= w)%nat ->
  String.length (format_0d w n) = w.
Proof.
  intros Hn Hw. unfold format_0d.
  destruct (Z.ltb_spec n 0); [lia|].
  rewrite length_app, length_zeros, Z.abs_eq by lia.
  pose proof (length_str_int n w Hn Hw). lia.
Qed.

(** A single digit is one character. *)
Lemma length_str_digit (n : Z) : 0 <= n <= 9 -> String.length (str_int n) = 1%nat.
Proof.
  intros H. rewrite <- (Z2Nat.id n) by lia.
  assert (Hk : (Z.to_nat n <= 9)%nat) by lia.
  revert Hk. generalize (Z.to_nat n). intros k Hk.
  do 10 (destruct k as [|k]; [reflexivity|]). lia.
Qed.

End PyInts.

(* ================================================================== *)
(** ** The focuser: the exchange with the hub *)
(* ================================================================== *)

Module FocusLynxWireFacts.
Import PyFacts PyStrings PyInts.
Import FocusLynx FocusLynxProps FocusLynxFacts FocusLynxRuns FocusLynxSpec.
Import FocusLynxInit FocusLynxInfo FocusLynxWire.

(** *** Decoding an info block *)

Lemma dict_get_set {V} (k k' : string) (v : V) (d : dict V) :
  dict_get k (dict_set k' v d) =
    if (k =? k')%string then Some v else dict_get k d.
Proof.
  induction d as [|[k0 v0] d IH]; simpl.
  - reflexivity.
  - destruct (String.eqb_spec k' k0) as [->|Hne]; simpl.
    + now destruct (k =? k0)%string.
    + destruct (String.eqb_spec k k0) as [->|Hne'].
      * destruct (String.eqb_spec k0 k'); [congruence|reflexivity].
      * exact IH.
Qed.

Lemma dict_get_fold (k : string) (kvs : list (string * string)) (d : dict string) :
  dict_get k (fold_left store kvs d) =
    match last_value k kvs with
    | Some v => Some v
    | None => dict_get k d
    end.
Proof.
  revert d. induction kvs as [|kv kvs IH]; intros d; simpl.
  - reflexivity.
  - rewrite IH. destruct (last_value k kvs); [reflexivity|].
    unfold store. rewrite dict_get_set.
    now destruct (k =? strip (fst kv))%string.
Qed.

Lemma dict_get_of_pairs (k : string) (kvs : list (string * string)) :
  dict_get k (of_pairs kvs) = last_value k kvs.
Proof.
  unfold of_pairs. rewrite dict_get_fold. now destruct (last_value k kvs).
Qed.

Lemma is_ascii_body_line (kv : string * string) :
  well_formed kv -> is_ascii (body_line kv) = true.
Proof.
  intros (_ & _ & Hk & Hv). unfold body_line.
  rewrite is_ascii_app. simpl. now rewrite Hk, Hv.
Qed.

(** A body line, with whatever white space around it, gives its key and
    its value, trimmed. *)
Lemma key_value_body_line (kv : string * string) :
  well_formed kv ->
  key_value (strip (body_line kv)) = Ok (strip (fst kv), strip (snd kv)).
Proof.
  intros (Hk & Hv & _). unfold body_line.
  rewrite strip_app by reflexivity.
  rewrite key_value_pair by auto using contains_lstrip, contains_rstrip.
  now rewrite strip_lstrip, strip_rstrip.
Qed.

Lemma body_line_not_END (kv : string * string) :
  (strip (body_line kv) =? "END")%string = false.
Proof.
  unfold body_line. rewrite strip_app by reflexivity.
  destruct (String.eqb_spec (lstrip (fst kv) ++ String "=" (rstrip (snd kv))) "END")
    as [H|]; [|reflexivity].
  apply (f_equal (contains "=")) in H.
  rewrite contains_app in H. simpl in H.
  now rewrite orb_true_r in H.
Qed.

Lemma info_loop_step (lines : list string) (response key value : string)
      (info : dict string) :
  (response =? "END")%string = false ->
  key_value response = Ok (key, value) ->
  info_loop lines response info = next_line lines (dict_set key value info).
Proof.
  intros Hne Hkv. destruct lines as [|l rest]; simpl; now rewrite Hne, Hkv.
Qed.

Lemma info_loop_END (lines : list string) (info : dict string) :
  info_loop lines "END" info = (Ok info, lines).
Proof. now destruct lines. Qed.

Lemma next_line_block (kvs : list (string * string)) (fin : string)
      (extra : list string) (info : dict string) :
  Forall well_formed kvs -> is_ascii fin = true -> strip fin = "END" ->
  next_line (map body_line kvs ++ fin :: extra) info =
    (Ok (fold_left store kvs info), extra).
Proof.
  intros Hwf Hfin Hend. revert info.
  induction Hwf as [|kv kvs Hkv _ IH]; intros info; simpl.
  - unfold decode_ascii. rewrite Hfin, Hend. apply info_loop_END.
  - unfold decode_ascii. rewrite (is_ascii_body_line kv Hkv).
    rewrite (info_loop_step _ _ _ _ _ (body_line_not_END kv)
                            (key_value_body_line kv Hkv)).
    apply IH.
Qed.

Section Wire.
Variable E : Env.
Implicit Types (p : Serial.port E) (w : World E).

Lemma read_info_full w p response :
  _serial_port (self w) = Some (Some p) ->
  read_info E response w =
    (fst (info_loop (Serial.in_waiting p) response []),
     with_port (with_waiting (snd (info_loop (Serial.in_waiting p) response [])) p) w).
Proof.
  intros Hp. unfold read_info, port_call, bind, getattr, modify, lift, ret.
  rewrite Hp.
  destruct (info_loop (Serial.in_waiting p) response []) as [[d|e|] rest];
    reflexivity.
Qed.

Lemma read_info_ok w p response d rest :
  _serial_port (self w) = Some (Some p) ->
  info_loop (Serial.in_waiting p) response [] = (Ok d, rest) ->
  read_info E response w = (Ok d, with_port (with_waiting rest p) w).
Proof. intros Hp H. now rewrite (read_info_full w p response Hp), H. Qed.

Lemma with_port_port p w : _serial_port (self (with_port p w)) = Some (Some p).
Proof. reflexivity. Qed.

Lemma line_read_cons p l rest :
  Serial.in_waiting p = l :: rest -> is_ascii l = true ->
  line_read p = Ok (strip l) /\
  snd (Serial.readline p) = with_waiting rest p.
Proof.
  intros Hw Hl. unfold line_read, Serial.readline, with_waiting, decode_ascii.
  rewrite Hw. simpl. now rewrite Hl.
Qed.

Lemma assert_line_ok w p expected :
  _serial_port (self w) = Some (Some p) -> line_read p = Ok expected ->
  assert_line E (ret expected) w = (Ok tt, with_port (snd (Serial.readline p)) w).
Proof.
  intros Hp Hl. rewrite (assert_line_run E w p expected expected Hp Hl).
  now rewrite String.eqb_refl.
Qed.

Lemma assert_line_fail w p word expected :
  _serial_port (self w) = Some (Some p) -> line_read p = Ok word ->
  word <> expected ->
  assert_line E (ret expected) w =
    (Raise AssertionError, with_port (snd (Serial.readline p)) w).
Proof.
  intros Hp Hl Hne. rewrite (assert_line_run E w p word expected Hp Hl).
  destruct (String.eqb_spec word expected); [contradiction|reflexivity].
Qed.

(** The lines of a block, read by [receive]. *)
Lemma receive_block w p h kvs ack hdr fin extra :
  _serial_port (self w) = Some (Some p) ->
  Serial.in_waiting p = ack :: hdr :: map body_line kvs ++ fin :: extra ->
  is_ascii ack = true -> strip ack = "!" ->
  is_ascii hdr = true -> strip hdr = h ->
  is_ascii fin = true -> strip fin = "END" ->
  Forall well_formed kvs ->
  receive E "GET INFO" (Some h) w =
    (Ok (Some (of_pairs kvs)), with_port (with_waiting extra p) w).
Proof.
  intros Hp Hw Hack Hbang Hhdr Hh Hfin Hend Hwf.
  destruct (line_read_cons p _ _ Hw Hack) as [H1 Hp1].
  unfold receive.
  rewrite (bind_run E _ _ _ _ _ (readline_str_ok E w p _ Hp H1)).
  rewrite Hbang. cbn [String.eqb Ascii.eqb Bool.eqb negb].
  rewrite Hp1.
  set (p1 := with_waiting (hdr :: map body_line kvs ++ fin :: extra) p).
  assert (Hw1 : Serial.in_waiting p1 = hdr :: map body_line kvs ++ fin :: extra)
    by reflexivity.
  destruct (line_read_cons p1 _ _ Hw1 Hhdr) as [H2 Hp2].
  rewrite Hh in H2.
  rewrite (bind_run E _ _ _ _ _
             (assert_line_ok (with_port p1 w) p1 h (with_port_port p1 w) H2)).
  rewrite Hp2.
  set (p2 := with_waiting (map body_line kvs ++ fin :: extra) p1).
  destruct kvs as [|kv kvs].
  - assert (Hw2 : Serial.in_waiting p2 = fin :: extra) by reflexivity.
    destruct (line_read_cons p2 _ _ Hw2 Hfin) as [H3 Hp3].
    rewrite (bind_run E _ _ _ _ _
               (readline_str_ok E (with_port p2 (with_port p1 w)) p2 _
                                (with_port_port p2 _) H3)).
    rewrite Hend, Hp3.
    now rewrite (bind_run E _ _ _ _ _
                   (read_info_ok _ (with_waiting extra p2) "END" [] extra
                                 (with_port_port _ _) (info_loop_END _ _))).
  - inversion Hwf as [|? ? Hkv Hwf']; subst.
    assert (Hw2 : Serial.in_waiting p2 =
                    body_line kv :: (map body_line kvs ++ fin :: extra))
      by reflexivity.
    destruct (line_read_cons p2 _ _ Hw2 (is_ascii_body_line kv Hkv)) as [H3 Hp3].
    rewrite (bind_run E _ _ _ _ _
               (readline_str_ok E (with_port p2 (with_port p1 w)) p2 _
                                (with_port_port p2 _) H3)).
    rewrite Hp3.
    assert (Hloop : info_loop (map body_line kvs ++ fin :: extra)
                              (strip (body_line kv)) [] =
                      (Ok (of_pairs (kv :: kvs)), extra)).
    { rewrite (info_loop_step _ _ _ _ _ (body_line_not_END kv)
                              (key_value_body_line kv Hkv)).
      apply (next_line_block kvs fin extra _ Hwf' Hfin Hend). }
    now rewrite (bind_run E _ _ _ _ _
                   (read_info_ok _ (with_waiting _ p2) _ _ _
                                 (with_port_port _ _) Hloop)).
Qed.

Lemma send_command_block w p c h kvs extra :
  _serial_port (self w) = Some (Some p) ->
  answers_block p c h kvs extra ->
  _send_command E c "GET INFO" (Some h) w =
    (Ok (Some (of_pairs kvs)), with_port (with_waiting extra (reply c p)) w).
Proof.
  intros Hp (Hc & ack & hdr & fin & Hw & Hack & Hbang & Hhdr & Hh & Hfin & Hend & Hwf).
  unfold _send_command.
  rewrite (bind_run E _ _ _ _ _ (transmit_run E w p c Hp Hc)).
  now rewrite (receive_block (with_port (reply c p) w) (reply c p) h kvs
                             ack hdr fin extra (with_port_port _ _) Hw).
Qed.

Lemma try_except_ok {A} (body : M E A) catches handler w a w' :
  body w = (Ok a, w') -> try_except body catches handler w = (Ok a, w').
Proof. unfold try_except. now intros ->. Qed.

Lemma try_except_pass {A} (body : M E A) catches handler w e w' :
  body w = (Raise e, w') -> catches e = false ->
  try_except body catches handler w = (Raise e, w').
Proof. unfold try_except. now intros -> ->. Qed.

Lemma get_info_block w p c h kvs extra :
  _serial_port (self w) = Some (Some p) ->
  answers_block p c h kvs extra ->
  _get_info E c h w =
    (Ok (Some (of_pairs kvs)), with_port (with_waiting extra (reply c p)) w).
Proof.
  intros Hp Hb. unfold _get_info.
  apply try_except_ok. now apply send_command_block.
Qed.

(** *** What the call expects after the acknowledgment *)

Lemma sent_readline p : Serial.sent (snd (Serial.readline p)) = Serial.sent p.
Proof. unfold Serial.readline. now destruct (Serial.in_waiting p). Qed.

Lemma sent_reply c p : Serial.sent (reply c p) = (Serial.sent p ++ [c])%list.
Proof. reflexivity. Qed.

Lemma sent_of_with_port p w : sent_of (with_port p w) = Serial.sent p.
Proof. reflexivity. Qed.

Lemma receive_acked w p ty h :
  _serial_port (self w) = Some (Some p) -> line_read p = Ok "!" ->
  receive E ty h w =
    (if (ty =? "GET INFO")%string then
       assert_line E (match h with
                      | Some h => ret h
                      | None => raise (KeyError "header_str")
                      end) ;;
       response <- readline_str E ;;
       d <- read_info E response ;;
       ret (Some d)
     else if (ty =? "SET PARAM")%string then assert_line E (ret "SET") ;; ret None
     else if (ty =? "MOVE")%string then assert_line E (ret "M") ;; ret None
     else if (ty =? "HALT")%string then assert_line E (ret "HALTED") ;; ret None
     else raise (ValueError ("Invalid command type " ++ ty ++ "!")))
      (with_port (snd (Serial.readline p)) w).
Proof.
  intros Hp Hl. unfold receive.
  now rewrite (bind_run E _ _ _ _ _ (readline_str_ok E w p "!" Hp Hl)).
Qed.

Lemma send_command_unknown_type w p c ty h :
  _serial_port (self w) = Some (Some p) ->
  is_ascii c = true -> line_read (reply c p) = Ok "!" ->
  known_type ty = false ->
  _send_command E c ty h w =
    (Raise (ValueError ("Invalid command type " ++ ty ++ "!")),
     with_port (snd (Serial.readline (reply c p))) w).
Proof.
  intros Hp Hc Hl Hty. unfold _send_command.
  rewrite (bind_run E _ _ _ _ _ (transmit_run E w p c Hp Hc)).
  rewrite (receive_acked (with_port (reply c p) w) (reply c p) ty h
                         (with_port_port _ _) Hl).
  unfold known_type in Hty.
  repeat (apply orb_false_iff in Hty; destruct Hty as [Hty ?]).
  repeat match goal with H : (ty =? _)%string = false |- _ => rewrite H; clear H end.
  reflexivity.
Qed.

Lemma send_command_wrong_word w p c ty h expected word :
  _serial_port (self w) = Some (Some p) ->
  acked p c word -> confirmation ty h = Some expected -> word <> expected ->
  _send_command E c ty h w =
    (Raise AssertionError,
     with_port (snd (Serial.readline (snd (Serial.readline (reply c p))))) w).
Proof.
  intros Hp (Hc & Hl & Hword) Hconf Hne. unfold _send_command.
  rewrite (bind_run E _ _ _ _ _ (transmit_run E w p c Hp Hc)).
  rewrite (receive_acked (with_port (reply c p) w) (reply c p) ty h
                         (with_port_port _ _) Hl).
  set (p1 := snd (Serial.readline (reply c p))) in *.
  set (w1 := with_port p1 (with_port (reply c p) w)).
  assert (Hfail : assert_line E (ret expected) w1 =
                    (Raise AssertionError, with_port (snd (Serial.readline p1)) w1))
    by (apply (assert_line_fail w1 p1 word expected); auto; reflexivity).
  unfold confirmation in Hconf.
  destruct (ty =? "GET INFO")%string.
  { subst h. now rewrite (bind_raise E _ _ _ _ _ Hfail). }
  destruct (ty =? "SET PARAM")%string.
  { inversion Hconf; subst. now rewrite (bind_raise E _ _ _ _ _ Hfail). }
  destruct (ty =? "MOVE")%string.
  { inversion Hconf; subst. now rewrite (bind_raise E _ _ _ _ _ Hfail). }
  destruct (ty =? "HALT")%string.
  { inversion Hconf; subst. now rewrite (bind_raise E _ _ _ _ _ Hfail). }
  discriminate.
Qed.

Lemma send_command_confirmed w p c ty word :
  _serial_port (self w) = Some (Some p) ->
  acked p c word -> confirmation ty None = Some word ->
  _send_command E c ty None w =
    (Ok None,
     with_port (snd (Serial.readline (snd (Serial.readline (reply c p))))) w).
Proof.
  intros Hp (Hc & Hl & Hword) Hconf. unfold _send_command.
  rewrite (bind_run E _ _ _ _ _ (transmit_run E w p c Hp Hc)).
  rewrite (receive_acked (with_port (reply c p) w) (reply c p) ty None
                         (with_port_port _ _) Hl).
  set (p1 := snd (Serial.readline (reply c p))) in *.
  set (w1 := with_port p1 (with_port (reply c p) w)).
  assert (Hok : assert_line E (ret word) w1 =
                  (Ok tt, with_port (snd (Serial.readline p1)) w1))
    by (apply (assert_line_ok w1 p1 word); auto; reflexivity).
  unfold confirmation in Hconf.
  destruct (ty =? "GET INFO")%string; [discriminate|].
  destruct (ty =? "SET PARAM")%string.
  { inversion Hconf; subst. now rewrite (bind_run E _ _ _ _ _ Hok). }
  destruct (ty =? "MOVE")%string.
  { inversion Hconf; subst. now rewrite (bind_run E _ _ _ _ _ Hok). }
  destruct (ty =? "HALT")%string.
  { inversion Hconf; subst. now rewrite (bind_run E _ _ _ _ _ Hok). }
  discriminate.
Qed.

(** *** Lines left unread by an earlier exchange *)

Lemma send_command_waiting w p unread c ty h :
  _send_command E c ty h (with_port (with_waiting unread p) w) =
  _send_command E c ty h (with_port p w).
Proof.
  unfold _send_command. destruct (is_ascii c) eqn:Hc.
  - rewrite (bind_run E _ _ _ _ _
               (transmit_run E (with_port (with_waiting unread p) w) _ c
                             (with_port_port _ _) Hc)).
    now rewrite (bind_run E _ _ _ _ _
                   (transmit_run E (with_port p w) _ c (with_port_port _ _) Hc)).
  - rewrite (bind_raise E _ _ _ _ _
               (transmit_not_ascii E (with_port (with_waiting unread p) w) _ c
                                   (with_port_port _ _) Hc)).
    now rewrite (bind_raise E _ _ _ _ _
                   (transmit_not_ascii E (with_port p w) _ c (with_port_port _ _) Hc)).
Qed.

(** *** Exactly what has been written *)

Lemma wrote_port X : port_blind same_sent (@wrote E X).
Proof.
  intros f t p p' Hp Hs (q & Hq & HX). simpl in *.
  exists p'. split; [reflexivity|]. rewrite Hp in Hq. inversion Hq; subst.
  exact Hs.
Qed.

Lemma wrote_quiet X : quiet (@wrote E X).
Proof.
  split; repeat intro;
    match goal with H : wrote _ _ |- _ => exact H end.
Qed.

Lemma wrote_sent_of X w : wrote X w -> sent_of w = X.
Proof. intros (p & Hp & HX). unfold sent_of. now rewrite Hp. Qed.

Lemma get_info_after_transmit w p c h :
  _serial_port (self w) = Some (Some p) -> is_ascii c = true ->
  _get_info E c h w =
    try_except (receive E "GET INFO" (Some h)) is_RuntimeError
      (fun err =>
         let message := ("Error setting parameter using command '" ++ c
                         ++ "': " ++ str_exn err)%string in
         logger E ERROR message ;; warn E message ;; ret None)
      (with_port (reply c p) w).
Proof.
  intros Hp Hc. unfold _get_info, _send_command, try_except.
  now rewrite (bind_run E _ _ _ _ _ (transmit_run E w p c Hp Hc)).
Qed.

Lemma set_param_after_transmit w p c :
  _serial_port (self w) = Some (Some p) -> is_ascii c = true ->
  _set_param E c w =
    try_except (receive E "SET PARAM" None ;; ret tt) is_RuntimeError
      (fun err =>
         let message := ("Error setting parameter using command '" ++ c
                         ++ "': " ++ str_exn err)%string in
         logger E ERROR message ;; warn E message)
      (with_port (reply c p) w).
Proof.
  intros Hp Hc. unfold _set_param, _send_command, try_except.
  rewrite bind_bind.
  now rewrite (bind_run E _ _ _ _ _ (transmit_run E w p c Hp Hc)).
Qed.

Lemma same_sent_id (p p' : Serial.port E) : same_sent p p' -> same_sent p p'.
Proof. auto. Qed.

(** An info query writes its command, and nothing else, whatever the
    answer. *)
Lemma get_info_wrote X w c h :
  wrote X w -> is_ascii c = true -> wrote (X ++ [c]) (snd (_get_info E c h w)).
Proof.
  intros (p & Hp & HX) Hc.
  rewrite (get_info_after_transmit w p c h Hp Hc).
  apply stable_try.
  - apply (stable_receive E same_sent same_sent_id _ (wrote_port _)).
  - intros e. apply stable_bind; [|intro; apply stable_bind; [|intro; apply stable_ret]];
      apply stable_emit; apply (quiet_trace E _ (wrote_quiet _)).
  - exists (reply c p). split; [reflexivity|]. now rewrite sent_reply, HX.
Qed.

Lemma set_param_wrote X w c :
  wrote X w -> is_ascii c = true -> wrote (X ++ [c]) (snd (_set_param E c w)).
Proof.
  intros (p & Hp & HX) Hc.
  rewrite (set_param_after_transmit w p c Hp Hc).
  apply stable_try.
  - apply stable_bind; [|intro; apply stable_ret].
    apply (stable_receive E same_sent same_sent_id _ (wrote_port _)).
  - intros e. apply stable_bind; [|intro];
      apply stable_emit; apply (quiet_trace E _ (wrote_quiet _)).
  - exists (reply c p). split; [reflexivity|]. now rewrite sent_reply, HX.
Qed.

Lemma is_ascii_status_cmd n : is_ascii (status_cmd n) = true.
Proof.
  unfold status_cmd, format_1d. rewrite !is_ascii_app, is_ascii_str_int. reflexivity.
Qed.

Lemma is_ascii_config_cmd n : is_ascii (config_cmd n) = true.
Proof.
  unfold config_cmd, format_1d. rewrite !is_ascii_app, is_ascii_str_int. reflexivity.
Qed.

Lemma is_ascii_nickname_cmd n nickname :
  is_ascii (nickname_cmd n nickname) = is_ascii nickname.
Proof.
  unfold nickname_cmd, format_1d.
  rewrite !is_ascii_app, is_ascii_str_int. simpl. now rewrite andb_true_r.
Qed.

End Wire.
End FocusLynxWireFacts.

(* ================================================================== *)
(** ** The focuser: sequences of exchanges *)
(* ================================================================== *)

Module FocusLynxCalls.
Import PyFacts PyStrings PyInts.
Import FocusLynx FocusLynxProps FocusLynxFacts FocusLynxRuns FocusLynxSpec.
Import FocusLynxInit FocusLynxInfo FocusLynxWire FocusLynxWireFacts.

(** One step of a proof that a body keeps a property that neither the
    trace nor the assignments of a status read disturb. *)
Ltac keep_step Hq :=
  match goal with
  | |- stable _ (bind _ _) => apply stable_bind; [ | intro ]
  | |- stable _ (ret _) => apply stable_ret
  | |- stable _ (raise _) => apply stable_raise
  | |- stable _ (lift _) => apply stable_lift
  | |- stable _ (getattr _ _ _) => apply stable_getattr
  | |- stable _ (attr _ _) => apply stable_attr
  | |- stable _ (emit _ _) => apply stable_emit; apply Hq
  | |- stable _ (warn _ _) => apply stable_emit; apply Hq
  | |- stable _ (logger _ _ _) => apply stable_emit; apply Hq
  | |- stable _ (modify _ _) =>
      apply stable_modify; first [apply Hq | repeat intro; assumption]
  | |- stable _ (subscript _ _ _) => unfold subscript
  | |- stable _ (if ?b then _ else _) => destruct b
  | |- stable _ (match ?x with _ => _ end) => destruct x
  end.

Section Calls.
Variable E : Env.
Implicit Types (p : Serial.port E) (w : World E).

Ltac run_getattr H :=
  match goal with
  | |- context [bind (getattr E ?a ?proj) ?k ?w0] =>
      rewrite (bind_run E (getattr E a proj) k w0 _ w0
                        (getattr_run E a proj w0 _ H))
  end.

(** *** A status read that succeeds *)

Lemma update_status_run w w1 n rec sp st sm stemp P T m x :
  _focuser_number (self w) = Some n ->
  _get_info E (status_cmd n) ("STATUS" ++ format_1d n) w = (Ok (Some rec), w1) ->
  dict_get "Curr Pos" rec = Some sp -> int sp = Ok P ->
  dict_get "Targ Pos" rec = Some st -> int st = Ok T ->
  dict_get "IsMoving" rec = Some sm -> int sm = Ok m ->
  dict_get "Temp(C)" rec = Some stemp -> float E stemp = Ok x ->
  _update_focuser_status E w =
    (Ok tt, with_status rec P T (negb (m =? 0)) x w1).
Proof.
  intros Hn Hinfo Hsp HP Hst HT Hsm Hm Hstemp Hx.
  unfold _update_focuser_status, status_cmd in *.
  run_getattr Hn.
  rewrite (bind_run E _ _ _ _ _ Hinfo).
  unfold bind, modify, getattr, subscript, lift, ret. simpl.
  rewrite Hsp, HP. simpl. rewrite Hst, HT. simpl. rewrite Hsm, Hm. simpl.
  rewrite Hstemp, Hx. reflexivity.
Qed.

(** *** Properties kept by the bodies that follow an info query *)

Section Quiet.
Variable P : World E -> Prop.
Hypothesis P_quiet : quiet P.
Hypothesis P_port : port_blind same_sent P.

Lemma stable_status_rest (i : info) :
  stable P
    (modify E (set__focuser_status E i) ;;
     st <- getattr E "_focuser_status" _focuser_status ;;
     v <- subscript E st "Curr Pos" ;;
     p <- lift (int v) ;;
     modify E (set__position E p) ;;
     st <- getattr E "_focuser_status" _focuser_status ;;
     v <- subscript E st "Targ Pos" ;;
     t <- lift (int v) ;;
     modify E (set__target_position E t) ;;
     st <- getattr E "_focuser_status" _focuser_status ;;
     v <- subscript E st "IsMoving" ;;
     m <- lift (int v) ;;
     modify E (set__is_moving E (negb (m =? 0))) ;;
     st <- getattr E "_focuser_status" _focuser_status ;;
     v <- subscript E st "Temp(C)" ;;
     c <- lift (float E v) ;;
     modify E (set__temperature E c)).
Proof. repeat keep_step P_quiet. Qed.

End Quiet.

Lemma numbered_port n R : port_blind R (@numbered E n).
Proof. intros f t p p' _ _ H. exact H. Qed.

Lemma numbered_quiet n : quiet (@numbered E n).
Proof. split; repeat intro; match goal with H : numbered _ _ |- _ => exact H end. Qed.

Lemma get_info_numbered n w c h :
  numbered n w -> numbered n (snd (_get_info E c h w)).
Proof.
  apply (stable__get_info E (fun _ _ => True)); auto.
  - apply numbered_port.
  - apply (quiet_trace E _ (numbered_quiet n)).
Qed.

(** What holds after [m] and is kept by what follows holds at the end. *)
Lemma bind_keeps {A B} (Q : World E -> Prop) (m : M E A) (k : A -> M E B) w :
  Q (snd (m w)) -> (forall a, stable Q (k a)) -> Q (snd (bind m k w)).
Proof.
  intros Hm Hk. unfold bind.
  destruct (m w) as [[a|e|] w1]; simpl in *; auto. now apply Hk.
Qed.

Lemma update_status_wrote X w n :
  wrote X w -> numbered n w ->
  wrote (X ++ [status_cmd n]) (snd (_update_focuser_status E w)) /\
  numbered n (snd (_update_focuser_status E w)).
Proof.
  intros HX Hn. unfold _update_focuser_status. run_getattr Hn.
  split; apply bind_keeps.
  - apply (get_info_wrote E X w (status_cmd n) _ HX (is_ascii_status_cmd n)).
  - intros i. apply (stable_status_rest _ (wrote_quiet E _)).
  - now apply get_info_numbered.
  - intros i. apply (stable_status_rest _ (numbered_quiet n)).
Qed.

Lemma get_focuser_config_wrote X w n :
  wrote X w -> numbered n w ->
  wrote (X ++ [config_cmd n]) (snd (_get_focuser_config E w)) /\
  numbered n (snd (_get_focuser_config E w)).
Proof.
  intros HX Hn. unfold _get_focuser_config. run_getattr Hn.
  split; apply bind_keeps.
  - apply (get_info_wrote E X w (config_cmd n) _ HX (is_ascii_config_cmd n)).
  - intros i. apply stable_modify. apply (wrote_quiet E).
  - now apply get_info_numbered.
  - intros i. apply stable_modify. apply (numbered_quiet n).
Qed.

Lemma get_hub_info_wrote X w n :
  wrote X w -> numbered n w ->
  wrote (X ++ [hub_cmd]) (snd (_get_hub_info E w)) /\
  numbered n (snd (_get_hub_info E w)).
Proof.
  intros HX Hn. unfold _get_hub_info.
  split; apply bind_keeps.
  - apply (get_info_wrote E X w hub_cmd _ HX eq_refl).
  - intros i. apply stable_modify. apply (wrote_quiet E).
  - now apply get_info_numbered.
  - intros i. apply stable_modify. apply (numbered_quiet n).
Qed.

(** *** The queries of initialisation *)

Lemma bind_hang {A B} (m : M E A) (k : A -> M E B) w w1 :
  m w = (Hang, w1) -> bind m k w = (Hang, w1).
Proof. unfold bind. now intros ->. Qed.

Lemma initialise_rest_keeps (Q : World E -> Prop) :
  quiet Q ->
  (forall v, respects (set_model E v) Q) ->
  (forall v, respects (set__max_position E v) Q) ->
  stable Q
    (cfg <- getattr E "_focuser_config" _focuser_config ;;
     v <- subscript E cfg "Dev Typ" ;;
     modify E (set_model E v) ;;
     cfg <- getattr E "_focuser_config" _focuser_config ;;
     v <- subscript E cfg "Max Pos" ;;
     m <- lift (int v) ;;
     modify E (set__max_position E m) ;;
     s <- __str__ E ;;
     logger E INFO (s ++ " initialised")%string).
Proof.
  intros Hq Hmodel Hmax. unfold __str__, uid.
  repeat first [apply stable_modify; first [apply Hmodel|apply Hmax]
               | keep_step Hq].
Qed.

Lemma wrote_respects X g :
  (forall f, _serial_port (g f) = _serial_port f) -> respects g (@wrote E X).
Proof.
  intros Hg f t (p & Hp & HX). exists p. simpl in *. now rewrite Hg.
Qed.

Lemma numbered_respects n g :
  (forall f, _focuser_number (g f) = _focuser_number f) ->
  respects g (@numbered E n).
Proof. intros Hg f t H. unfold numbered in *. simpl in *. now rewrite Hg. Qed.

Lemma initialise_wrote X w n :
  wrote X w -> numbered n w ->
  (wrote (X ++ [hub_cmd]) (snd (_initialise E w)) \/
   wrote (X ++ [hub_cmd; config_cmd n]) (snd (_initialise E w)) \/
   wrote (X ++ [hub_cmd; config_cmd n; status_cmd n]) (snd (_initialise E w))) /\
  (forall u, fst (_initialise E w) = Ok u ->
             wrote (X ++ [hub_cmd; config_cmd n; status_cmd n])
                   (snd (_initialise E w))) /\
  numbered n (snd (_initialise E w)).
Proof.
  intros HX Hn. unfold _initialise.
  destruct (get_hub_info_wrote X w n HX Hn) as [A1 N1].
  destruct (_get_hub_info E w) as [[u1|e|] w1] eqn:H1; simpl in A1, N1;
    [rewrite (bind_run E _ _ _ _ _ H1)
    |rewrite (bind_raise E _ _ _ _ _ H1); simpl;
     split; [now left|split; [discriminate|exact N1]]
    |rewrite (bind_hang _ _ _ _ H1); simpl;
     split; [now left|split; [discriminate|exact N1]]].
  destruct (get_focuser_config_wrote _ w1 n A1 N1) as [A2 N2].
  rewrite <- app_assoc in A2. simpl in A2.
  destruct (_get_focuser_config E w1) as [[u2|e|] w2] eqn:H2; simpl in A2, N2;
    [rewrite (bind_run E _ _ _ _ _ H2)
    |rewrite (bind_raise E _ _ _ _ _ H2); simpl;
     split; [now right; left|split; [discriminate|exact N2]]
    |rewrite (bind_hang _ _ _ _ H2); simpl;
     split; [now right; left|split; [discriminate|exact N2]]].
  destruct (update_status_wrote _ w2 n A2 N2) as [A3 N3].
  rewrite <- app_assoc in A3. simpl in A3.
  assert (A4 : wrote (X ++ [hub_cmd; config_cmd n; status_cmd n])
                     (snd (bind (_update_focuser_status E)
                                (fun _ =>
                                   cfg <- getattr E "_focuser_config" _focuser_config ;;
                                   v <- subscript E cfg "Dev Typ" ;;
                                   modify E (set_model E v) ;;
                                   cfg <- getattr E "_focuser_config" _focuser_config ;;
                                   v <- subscript E cfg "Max Pos" ;;
                                   m <- lift (int v) ;;
                                   modify E (set__max_position E m) ;;
                                   s <- __str__ E ;;
                                   logger E INFO (s ++ " initialised")%string) w2))).
  { apply bind_keeps; [exact A3|]. intros _.
    apply initialise_rest_keeps;
      [apply wrote_quiet|intro; now apply wrote_respects ..]. }
  split; [now right; right|]. split; [intros _ _; exact A4|].
  apply bind_keeps; [exact N3|]. intros _.
  apply initialise_rest_keeps;
    [apply numbered_quiet|intro; now apply numbered_respects ..].
Qed.

Lemma connect_ok w d :
  serial_Serial E (port (self w)) = inr d ->
  connect E w =
    (Ok tt,
     logged [Log DEBUG ("Established serial connection to " ++ name (self w)
                        ++ " on " ++ port (self w))%string]
            (with_port (Serial.open d) w)).
Proof.
  intros Hs. unfold connect, try_except, bind, attr, modify, logger, emit.
  simpl. now rewrite Hs.
Qed.

Lemma startup_wrote a w1 :
  startup E a (fresh E a) = (Ok true, w1) ->
  wrote [hub_cmd; config_cmd (arg_focuser_number a);
         status_cmd (arg_focuser_number a)] w1 /\
  numbered (arg_focuser_number a) w1.
Proof.
  intros H.
  destruct (serial_Serial E (kw_port a)) as [e|d] eqn:Hs.
  { destruct (startup_fail E a e Hs) as (w' & Hf & _). congruence. }
  unfold startup in H. rewrite bind_logger in H.
  set (w0 := logged [Log DEBUG "Initialising FocusLynx focuser"] (fresh E a)) in H.
  assert (Hc : try_except (connect E ;; ret true) is_SerialException
                 (fun err =>
                    nm <- attr E name ;;
                    p <- load_name E (("err", str_exn err) :: init_names a) "port" ;;
                    let message := ("Error connecting to " ++ nm ++ " on " ++ p ++ ": "
                                    ++ str_exn err)%string in
                    logger E ERROR message ;; warn E message ;; ret false) w0 =
               (Ok true,
                logged [Log DEBUG ("Established serial connection to " ++ arg_name a
                                   ++ " on " ++ kw_port a)%string]
                       (with_port (Serial.open d) w0))).
  { apply try_except_ok. now rewrite (bind_run E _ _ _ _ _ (connect_ok w0 d Hs)). }
  rewrite (bind_run E _ _ _ _ _ Hc) in H. cbn [negb] in H.
  match type of H with
  | bind (modify E ?g) ?k ?w2 = _ =>
      change (bind (modify E g) k w2)
        with (k tt {| self := g (self w2); trace := trace w2 |}) in H
  end.
  cbv beta in H.
  apply bind_ok in H. destruct H as (u & w3 & Hi & Hr).
  inversion Hr; subst w3.
  match type of Hi with
  | _initialise E ?w2 = _ =>
      destruct (initialise_wrote [] w2 (arg_focuser_number a)) as (_ & Hw & Hn)
  end.
  - exists (Serial.open d). now split.
  - reflexivity.
  - rewrite Hi in Hw, Hn. simpl in Hw, Hn. split; [|exact Hn].
    now apply (Hw u).
Qed.

Lemma sends_respects X g :
  (forall f, _serial_port (g f) = _serial_port f) -> respects g (sends E X).
Proof.
  intros Hg f t (more & H). exists more. unfold sent_of in *. simpl in *.
  now rewrite Hg.
Qed.

Lemma set_bounds_keeps (Q : World E -> Prop) a :
  quiet Q ->
  (forall v, respects (set__min_position E v) Q) ->
  (forall v, respects (set__max_position E v) Q) ->
  stable Q (set_bounds E a).
Proof.
  intros Hq Hmin Hmax. unfold set_bounds.
  repeat first [apply stable_modify; first [apply Hmin|apply Hmax]
               | keep_step Hq].
Qed.

Lemma wrote_sends X w : wrote X w -> sends E X w.
Proof.
  intros H. exists []. rewrite app_nil_r. now apply wrote_sent_of.
Qed.

Lemma world_eta w : {| self := self w; trace := trace w |} = w.
Proof. now destruct w. Qed.

(** A construction that returns has written the three queries of
    initialisation first, in this order. *)
Lemma new_wrote a fuel f tr :
  new E fuel a = (Ok f, tr) ->
  sends E [hub_cmd; config_cmd (arg_focuser_number a);
           status_cmd (arg_focuser_number a)] {| self := f; trace := tr |} /\
  (arg_initial_position a = None ->
   wrote [hub_cmd; config_cmd (arg_focuser_number a);
          status_cmd (arg_focuser_number a)] {| self := f; trace := tr |}).
Proof.
  intros H. apply new_ok in H. destruct H as (w & H & -> & ->).
  rewrite world_eta. unfold __init__ in H.
  apply bind_ok in H. destruct H as (started & w1 & Hs & H).
  pose proof (startup_true E a _ _ _ Hs) as ->. cbn [negb] in H.
  destruct (startup_wrote a w1 Hs) as [Hw _].
  split.
  - replace w with (snd (bind (set_bounds E a)
                              (fun _ => match arg_initial_position a with
                                        | Some p => set_position E fuel p
                                        | None => ret tt
                                        end) w1)) by now rewrite H.
    apply bind_keeps.
    + apply set_bounds_keeps;
        [apply sends_quiet|intro; now apply sends_respects ..|].
      now apply wrote_sends.
    + intros _. destruct (arg_initial_position a); [|apply stable_ret].
      unfold set_position. apply stable_bind; [|intro; apply stable_ret].
      apply (stable_move_to E more_sent (more_sent_same E) (more_sent_write E)
                            _ (sends_port E _) (sends_quiet E _)).
  - intros Hnone. rewrite Hnone in H.
    apply bind_ok in H. destruct H as (u & w2 & Hb & Hr). inversion Hr; subst w2.
    replace w with (snd (set_bounds E a w1)) by now rewrite Hb.
    apply set_bounds_keeps;
      [apply wrote_quiet|intro; now apply wrote_respects ..|exact Hw].
Qed.

(** *** The [uid] setter *)

Lemma set_uid_run w n nickname :
  numbered n w ->
  set_uid E nickname w =
    bind (_set_param E (nickname_cmd n (substring 0 16 nickname)))
         (fun _ => _get_focuser_config E)
         (logged (nickname_events nickname) w).
Proof.
  intros Hn. unfold set_uid, nickname_events, truncation_message, nickname_cmd.
  destruct (Nat.ltb_spec 16 (String.length nickname)) as [Hlong|Hshort].
  - rewrite bind_bind, bind_logger, bind_ret.
    assert (Hn' : _focuser_number
                    (self (logged [Log WARNING
                                     ("Truncated nickname " ++ nickname ++ " to "
                                      ++ substring 0 16 nickname
                                      ++ " (must be <= 16 characters)")] w)) = Some n)
      by exact Hn.
    run_getattr Hn'. reflexivity.
  - rewrite bind_ret. run_getattr Hn.
    rewrite (substring_short 16 nickname Hshort), logged_nil. reflexivity.
Qed.

Lemma set_param_numbered n w c :
  numbered n w -> numbered n (snd (_set_param E c w)).
Proof.
  apply (stable__set_param E (fun _ _ => True)); auto.
  - apply numbered_port.
  - apply (quiet_trace E _ (numbered_quiet n)).
Qed.

Lemma set_uid_wrote w p n nickname :
  _serial_port (self w) = Some (Some p) -> numbered n w ->
  is_ascii nickname = true ->
  (wrote (Serial.sent p ++ [nickname_cmd n (substring 0 16 nickname)])
         (snd (set_uid E nickname w)) \/
   wrote (Serial.sent p ++ [nickname_cmd n (substring 0 16 nickname);
                            config_cmd n])
         (snd (set_uid E nickname w))) /\
  (forall u, fst (_set_param E (nickname_cmd n (substring 0 16 nickname))
                             (logged (nickname_events nickname) w)) = Ok u ->
             wrote (Serial.sent p ++ [nickname_cmd n (substring 0 16 nickname);
                                      config_cmd n])
                   (snd (set_uid E nickname w))).
Proof.
  intros Hp Hn Hc. rewrite (set_uid_run w n nickname Hn).
  set (c := nickname_cmd n (substring 0 16 nickname)).
  set (w0 := logged (nickname_events nickname) w).
  assert (Hc' : is_ascii c = true)
    by (unfold c; rewrite is_ascii_nickname_cmd; now apply is_ascii_substring).
  assert (HX : wrote (Serial.sent p) w0) by (exists p; now split).
  assert (Hn0 : numbered n w0) by exact Hn.
  pose proof (set_param_wrote E _ w0 c HX Hc') as A1.
  pose proof (set_param_numbered n w0 c Hn0) as N1.
  destruct (_set_param E c w0) as [[u1|e|] w1] eqn:H1; simpl in A1, N1;
    [rewrite (bind_run E _ _ _ _ _ H1)
    |rewrite (bind_raise E _ _ _ _ _ H1); simpl; split; [now left|discriminate]
    |rewrite (bind_hang _ _ _ _ H1); simpl; split; [now left|discriminate]].
  destruct (get_focuser_config_wrote _ w1 n A1 N1) as [A2 _].
  rewrite <- app_assoc in A2. simpl in A2.
  split; [now right|intros _ _; exact A2].
Qed.

Lemma set_uid_not_ascii w p n nickname :
  _serial_port (self w) = Some (Some p) -> numbered n w ->
  is_ascii (substring 0 16 nickname) = false ->
  fst (set_uid E nickname w) = Raise UnicodeEncodeError /\
  sent_of (snd (set_uid E nickname w)) = Serial.sent p.
Proof.
  intros Hp Hn Hc. rewrite (set_uid_run w n nickname Hn).
  set (c := nickname_cmd n (substring 0 16 nickname)).
  set (w0 := logged (nickname_events nickname) w).
  assert (Hc' : is_ascii c = false) by (unfold c; now rewrite is_ascii_nickname_cmd).
  assert (Hp0 : _serial_port (self w0) = Some (Some p)) by exact Hp.
  assert (H1 : _set_param E c w0 =
                 (Raise UnicodeEncodeError,
                  with_port (Serial.reset_input_buffer p) w0)).
  { unfold _set_param. apply try_except_pass; [|reflexivity].
    unfold _send_command. rewrite bind_bind.
    now rewrite (bind_raise E _ _ _ _ _ (transmit_not_ascii E w0 p c Hp0 Hc')). }
  rewrite (bind_raise E _ _ _ _ _ H1). now split.
Qed.

Lemma set_uid_traced w nickname :
  traced E (trace w ++ nickname_events nickname) (snd (set_uid E nickname w)).
Proof.
  unfold set_uid, nickname_events, truncation_message.
  destruct (16 <? String.length nickname)%nat.
  - rewrite bind_bind, bind_logger, bind_ret.
    apply bind_keeps; [apply stable_getattr; exists []; simpl; now rewrite app_nil_r|intro].
    apply stable_bind; [|intro].
    + apply (stable__set_param E (fun _ _ => True)); auto.
      * apply traced_port.
      * apply (quiet_trace E _ (traced_quiet E _)).
    + apply (stable__get_focuser_config E (fun _ _ => True)); auto.
      * apply traced_port.
      * apply traced_quiet.
  - rewrite bind_ret, app_nil_r.
    apply bind_keeps; [apply stable_getattr; exists []; simpl; now rewrite app_nil_r|intro].
    apply stable_bind; [|intro].
    + apply (stable__set_param E (fun _ _ => True)); auto.
      * apply traced_port.
      * apply (quiet_trace E _ (traced_quiet E _)).
    + apply (stable__get_focuser_config E (fun _ _ => True)); auto.
      * apply traced_port.
      * apply traced_quiet.
Qed.

(** *** The loop of a blocking move *)

Lemma get_info_some_trace w c h rec w1 :
  _get_info E c h w = (Ok (Some rec), w1) -> trace w1 = trace w.
Proof.
  unfold _get_info, try_except. intros H.
  pose proof (send_command_trace E w c "GET INFO" (Some h)) as Ht.
  destruct (_send_command E c "GET INFO" (Some h) w) as [[i|e|] w2];
    simpl in Ht; try discriminate.
  - inversion H; subst. exact Ht.
  - destruct (is_RuntimeError e); discriminate.
Qed.

Lemma update_status_trace w u w' :
  _update_focuser_status E w = (Ok u, w') -> trace w' = trace w.
Proof.
  unfold _update_focuser_status. intros H.
  apply bind_ok in H. destruct H as (n & w0 & Hg & H).
  apply getattr_ok in Hg. destruct Hg as [_ ->].
  apply bind_ok in H. destruct H as (i & w1 & Hi & H).
  destruct i as [rec|];
    [|unfold bind, modify, getattr, subscript, raise in H; simpl in H; discriminate].
  rewrite <- (get_info_some_trace _ _ _ _ _ Hi).
  unfold bind, modify, getattr, subscript, lift, ret, raise in H. simpl in H.
  destruct (dict_get "Curr Pos" rec); [|discriminate].
  destruct (int s); try discriminate. simpl in H.
  destruct (dict_get "Targ Pos" rec); [|discriminate].
  destruct (int s0); try discriminate. simpl in H.
  destruct (dict_get "IsMoving" rec); [|discriminate].
  destruct (int s1); try discriminate. simpl in H.
  destruct (dict_get "Temp(C)" rec); [|discriminate].
  destruct (float E s2); try discriminate.
  inversion H. reflexivity.
Qed.

Lemma is_moving_ok X n w b w' :
  wrote X w -> numbered n w -> is_moving E w = (Ok b, w') ->
  wrote (X ++ [status_cmd n]) w' /\ numbered n w' /\ trace w' = trace w.
Proof.
  intros HX Hn H. unfold is_moving in H.
  apply bind_ok in H. destruct H as (u & w1 & Hu & Hg).
  apply getattr_ok in Hg. destruct Hg as [_ ->].
  destruct (update_status_wrote X w n HX Hn) as [A N].
  rewrite Hu in A, N. simpl in A, N.
  repeat split; auto. now apply (update_status_trace w u).
Qed.

Lemma position_ok X n w v w' :
  wrote X w -> numbered n w -> position E w = (Ok v, w') ->
  wrote (X ++ [status_cmd n]) w' /\ numbered n w' /\ trace w' = trace w.
Proof.
  intros HX Hn H. unfold position in H.
  apply bind_ok in H. destruct H as (u & w1 & Hu & Hg).
  apply getattr_ok in Hg. destruct Hg as [_ ->].
  destruct (update_status_wrote X w n HX Hn) as [A N].
  rewrite Hu in A, N. simpl in A, N.
  repeat split; auto. now apply (update_status_trace w u).
Qed.

Lemma repeat_snoc {A} (a : A) (k : nat) : (a :: repeat a k = repeat a k ++ [a])%list.
Proof. induction k as [|k IH]; simpl; [reflexivity|now rewrite <- IH]. Qed.

Lemma wait_while_moving_ok fuel :
  forall X n w w',
    wrote X w -> numbered n w ->
    wait_while_moving E fuel w = (Ok tt, w') ->
    exists k,
      wrote (X ++ repeat (status_cmd n) (S k)) w' /\ numbered n w' /\
      trace w' = (trace w ++ repeat (Sleep 1) k)%list.
Proof.
  induction fuel as [|fuel IH]; intros X n w w' HX Hn H; simpl in H.
  - discriminate.
  - apply bind_ok in H. destruct H as (b & w1 & Hm & H).
    destruct (is_moving_ok X n w b w1 HX Hn Hm) as (A1 & N1 & T1).
    destruct b.
    + destruct A1 as (p1 & Hp1 & HX1).
      unfold bind at 1 2, emit, port_call, bind, getattr, modify, ret in H.
      cbn [fst snd self trace] in H. cbv beta iota in H.
      rewrite Hp1 in H. cbv beta iota in H.
      match type of H with
      | wait_while_moving E fuel ?w2 = _ =>
          destruct (IH (X ++ [status_cmd n])%list n w2 w') as (k & A & N & T)
      end.
      * eexists. split; [reflexivity|exact HX1].
      * exact N1.
      * exact H.
      * exists (S k). split; [|split; [exact N|]].
        -- rewrite <- app_assoc in A. exact A.
        -- rewrite T. simpl. rewrite T1, <- app_assoc. reflexivity.
    + inversion H; subst. exists O. simpl. rewrite app_nil_r. auto.
Qed.

Lemma send_command_wrote X w c ty h :
  wrote X w -> is_ascii c = true ->
  wrote (X ++ [c]) (snd (_send_command E c ty h w)).
Proof.
  intros (p & Hp & HX) Hc. unfold _send_command.
  rewrite (bind_run E _ _ _ _ _ (transmit_run E w p c Hp Hc)).
  apply (stable_receive E same_sent (same_sent_id E) _ (wrote_port E _)).
  exists (reply c p). split; [reflexivity|]. now rewrite sent_reply, HX.
Qed.

Lemma send_command_numbered n w c ty h :
  numbered n w -> numbered n (snd (_send_command E c ty h w)).
Proof.
  apply (stable_send_command E (fun _ _ => True)); auto. apply numbered_port.
Qed.

Lemma sleeps_app t1 t2 : sleeps (t1 ++ t2) = (sleeps t1 + sleeps t2)%nat.
Proof.
  induction t1 as [|[m|l m|s] t1 IH]; simpl; auto.
Qed.

Lemma sleeps_repeat k : sleeps (repeat (Sleep 1) k) = k.
Proof. induction k as [|k IH]; simpl; [reflexivity|now rewrite IH]. Qed.

Lemma sleeps_moving_events lo hi requested u :
  sleeps (moving_events lo hi requested u) = O.
Proof.
  unfold moving_events, range_events.
  destruct (requested <? lo); [reflexivity|]. now destruct (hi <? requested).
Qed.

Lemma arrive_ok X n fuel target w v w' :
  wrote X w -> numbered n w ->
  arrive E fuel true target w = (Ok v, w') ->
  exists k,
    wrote (X ++ repeat (status_cmd n) (k + 2)) w' /\
    sleeps (trace w') = (sleeps (trace w) + k)%nat.
Proof.
  intros HX Hn H. unfold arrive in H.
  apply bind_ok in H. destruct H as ([] & w1 & Hw & H).
  destruct (wait_while_moving_ok fuel X n w w1 HX Hn Hw) as (k & A1 & N1 & T1).
  apply bind_ok in H. destruct H as (pos & w2 & Hpos & H).
  destruct (position_ok _ n w1 pos w2 A1 N1 Hpos) as (A2 & N2 & T2).
  apply bind_ok in H. destruct H as (tgt & w3 & Hg & H).
  apply getattr_ok in Hg. destruct Hg as [_ ->].
  apply bind_ok in H. destruct H as (u & w4 & Hif & H).
  apply getattr_ok in H. destruct H as [_ ->].
  exists k.
  assert (Hshape : wrote (X ++ repeat (status_cmd n) (k + 2)) w2).
  { replace (k + 2)%nat with (S (S k)) by lia.
    rewrite <- app_assoc in A2.
    change (repeat (status_cmd n) (S (S k)))
      with (status_cmd n :: repeat (status_cmd n) (S k)).
    rewrite (repeat_snoc (status_cmd n) (S k)). exact A2. }
  assert (Hsl : sleeps (trace w2) = (sleeps (trace w) + k)%nat)
    by now rewrite T2, T1, sleeps_app, sleeps_repeat.
  destruct (negb (pos =? tgt)).
  - apply bind_ok in Hif. destruct Hif as (nick & w5 & Hu & Hif).
    pose proof (uid_readonly E w2) as Hro. rewrite Hu in Hro. simpl in Hro. subst w5.
    apply bind_ok in Hif. destruct Hif as (tgt' & w5 & Hg & Hif).
    apply getattr_ok in Hg. destruct Hg as [_ ->].
    apply bind_ok in Hif. destruct Hif as (pos' & w5 & Hg & Hif).
    apply getattr_ok in Hg. destruct Hg as [_ ->].
    rewrite bind_logger in Hif. inversion Hif; subst.
    split.
    + destruct Hshape as (q & Hq & Hs). exists q. now split.
    + simpl. rewrite <- app_assoc, sleeps_app. simpl. lia.
  - inversion Hif; subst. now split.
Qed.

(** *** Hub information and the state of the connection *)

Lemma get_hub_info_nack w p line :
  _serial_port (self w) = Some (Some p) -> nack p hub_cmd line ->
  _get_hub_info E w =
    (Ok tt,
     {| self := set__hub_info E None
                  (self (logged [Log ERROR (nack_message hub_cmd line);
                                 Warn (nack_message hub_cmd line)]
                                (with_port (snd (Serial.readline (reply hub_cmd p))) w)));
        trace := (trace w ++ [Log ERROR (nack_message hub_cmd line);
                              Warn (nack_message hub_cmd line)])%list |}).
Proof.
  intros Hp Hk. unfold _get_hub_info.
  now rewrite (bind_run E _ _ _ _ _ (get_info_nack E w p hub_cmd line "HUB INFO" Hp Hk)).
Qed.

Lemma is_connected_readonly w : snd (is_connected E w) = w.
Proof.
  unfold is_connected, bind, getattr.
  destruct (_serial_port (self w)) as [[p|]|]; reflexivity.
Qed.

Lemma connect_raises w e :
  serial_Serial E (port (self w)) = inl e -> is_SerialException e = true ->
  connect E w =
    (Raise e,
     logged [Log CRITICAL ("Could not open " ++ port (self w) ++ "!")%string]
            {| self := set__serial_port E None (self w); trace := trace w |}).
Proof.
  intros Hs He. unfold connect, try_except, bind, attr, modify, logger, emit, raise.
  simpl. rewrite Hs, He. reflexivity.
Qed.

End Calls.
End FocusLynxCalls.

(* ================================================================== *)
(** ** The focuser: properties of the protocol *)
(* ================================================================== *)

Module FocusLynxProtocol.
Import PyFacts PyStrings PyInts.
Import FocusLynx FocusLynxProps FocusLynxFacts FocusLynxRuns FocusLynxSpec.
Import FocusLynxInit FocusLynxInfo FocusLynxWire FocusLynxWireFacts FocusLynxCalls.

Ltac splits := repeat match goal with |- _ /\ _ => split end.

Ltac run := vm_compute; reflexivity.

Lemma has_port_spec (d : Sim.dev) (w : World (Sim.env d)) :
  Scenario.has_port w = true ->
  _serial_port (self w) = Some (Some (Scenario.port_of w)).
Proof.
  unfold Scenario.has_port, Scenario.port_of.
  destruct (_serial_port (self w)) as [[p|]|]; intros H; try discriminate.
  reflexivity.
Qed.

Lemma pair_of_fst {A S : Type} (r : Res A * S) (x : Res A) :
  fst r = x -> r = (x, snd r).
Proof. destruct r. simpl. now intros ->. Qed.

Lemma bind_cong {E : Env} {A B} (m : M E A) (k : A -> M E B) (w1 w2 : World E) :
  m w1 = m w2 -> bind m k w1 = bind m k w2.
Proof. unfold bind. now intros ->. Qed.

(** X1.  [_send_command] clears the input buffer before it writes: the
    lines that an earlier exchange left unread in the port never become
    the answer to the next command.  The outcome and the object after
    [_send_command], [_get_info] and [_set_param], and after [halt] and a
    read of [position] on a focuser that has its number, are the same
    whatever was waiting. *)
Theorem stale_input_is_discarded
        (E : Env) (w : World E) (p : Serial.port E) (unread : list string) :
  (forall c ty h,
      _send_command E c ty h (with_port (with_waiting unread p) w) =
      _send_command E c ty h (with_port p w)) /\
  (forall c h,
      _get_info E c h (with_port (with_waiting unread p) w) =
      _get_info E c h (with_port p w)) /\
  (forall c,
      _set_param E c (with_port (with_waiting unread p) w) =
      _set_param E c (with_port p w)) /\
  (forall n,
      numbered n w ->
      halt E (with_port (with_waiting unread p) w) = halt E (with_port p w) /\
      position E (with_port (with_waiting unread p) w) =
        position E (with_port p w)).
Proof.
  splits.
  - intros c ty h. apply send_command_waiting.
  - intros c h. unfold _get_info, try_except.
    now rewrite send_command_waiting.
  - intros c. unfold _set_param, try_except, bind.
    now rewrite send_command_waiting.
  - intros n Hn.
    assert (H1 : _focuser_number (self (with_port (with_waiting unread p) w)) = Some n)
      by exact Hn.
    assert (H2 : _focuser_number (self (with_port p w)) = Some n) by exact Hn.
    split.
    + unfold halt.
      rewrite (bind_run E _ _ _ _ _ (getattr_run E _ _ _ n H1)).
      rewrite (bind_run E _ _ _ _ _ (getattr_run E _ _ _ n H2)).
      apply bind_cong, send_command_waiting.
    + unfold position, _update_focuser_status.
      rewrite !bind_bind.
      rewrite (bind_run E _ _ _ _ _ (getattr_run E _ _ _ n H1)).
      rewrite (bind_run E _ _ _ _ _ (getattr_run E _ _ _ n H2)).
      rewrite !bind_bind. apply bind_cong.
      unfold _get_info, try_except. now rewrite send_command_waiting.
Qed.

(** X2.  [_send_command] looks at [command_type] only after the command
    has been written and acknowledged: with a type other than the four it
    knows it raises [ValueError], and by then the command has reached the
    hub. *)
Theorem command_type_is_checked_after_sending
        (E : Env) (w : World E) (p : Serial.port E) (c ty : string)
        (h : option string) :
  _serial_port (self w) = Some (Some p) ->
  is_ascii c = true ->
  line_read (reply c p) = Ok "!" ->
  known_type ty = false ->
  fst (_send_command E c ty h w) =
    Raise (ValueError ("Invalid command type " ++ ty ++ "!")) /\
  sent_of (snd (_send_command E c ty h w)) = (Serial.sent p ++ [c])%list.
Proof.
  intros Hp Hc Hl Hty.
  rewrite (send_command_unknown_type E w p c ty h Hp Hc Hl Hty).
  split; [reflexivity|]. simpl snd.
  now rewrite sent_of_with_port, sent_readline, sent_reply.
Qed.

Lemma command_type_is_checked_after_sending_witness :
  let w := Scenario.built Scenario.healthy 0 None in
  fst (_send_command Scenario.healthy "<F1HALT>" "STOP" None w) =
    Raise (ValueError "Invalid command type STOP!") /\
  sent_of (snd (_send_command Scenario.healthy "<F1HALT>" "STOP" None w)) =
    ["<FHGETHUBINFO>"; "<F1GETCONFIG>"; "<F1GETSTATUS>"; "<F1HALT>"].
Proof.
  cbv zeta.
  destruct (command_type_is_checked_after_sending
              Scenario.healthy (Scenario.built Scenario.healthy 0 None)
              (Scenario.port_of (Scenario.built Scenario.healthy 0 None))
              "<F1HALT>" "STOP" None)
    as [Hraise Hsent].
  - apply has_port_spec. run.
  - reflexivity.
  - run.
  - reflexivity.
  - split; [exact Hraise|]. rewrite Hsent. run.
Defined.

(** X3.  The assertions of [_send_command] are outside what its callers
    catch: when the hub acknowledges a command and then sends another
    word than the one expected for the type of the command (the header of
    an info block, [SET], [M], [HALTED]), the call raises
    [AssertionError]; [_get_info] and [_set_param], which catch
    [RuntimeError] only, let it through without logging anything, and so
    do [move_to] and [halt]. *)
Theorem failed_assertion_is_not_caught
        (E : Env) (w : World E) (p : Serial.port E) :
  _serial_port (self w) = Some (Some p) ->
  (forall c ty h expected word,
      acked p c word -> confirmation ty h = Some expected -> word <> expected ->
      fst (_send_command E c ty h w) = Raise AssertionError) /\
  (forall c h word,
      acked p c word -> word <> h ->
      fst (_get_info E c h w) = Raise AssertionError /\
      trace (snd (_get_info E c h w)) = trace w) /\
  (forall c word,
      acked p c word -> word <> "SET" ->
      fst (_set_param E c w) = Raise AssertionError /\
      trace (snd (_set_param E c w)) = trace w) /\
  (forall n lo hi u fuel requested blocking word,
      ready w p n lo hi u ->
      acked p (move_cmd n (clamp lo hi requested)) word -> word <> "M" ->
      fst (move_to E fuel requested blocking w) = Raise AssertionError) /\
  (forall n word,
      numbered n w -> acked p (halt_cmd n) word -> word <> "HALTED" ->
      fst (halt E w) = Raise AssertionError).
Proof.
  intros Hp. splits.
  - intros c ty h expected word Ha Hc Hne.
    now rewrite (send_command_wrong_word E w p c ty h expected word Hp Ha Hc Hne).
  - intros c h word Ha Hne. unfold _get_info.
    rewrite (try_except_pass E _ _ _ _ _ _
               (send_command_wrong_word E w p c "GET INFO" (Some h) h word
                                        Hp Ha eq_refl Hne) eq_refl).
    now split.
  - intros c word Ha Hne. unfold _set_param.
    rewrite (try_except_pass E _ _ _ _ _ _
               (bind_raise E _ _ _ _ _
                  (send_command_wrong_word E w p c "SET PARAM" None "SET" word
                                           Hp Ha eq_refl Hne)) eq_refl).
    now split.
  - intros n lo hi u fuel requested blocking word Hr Ha Hne.
    rewrite (move_to_run E w p n lo hi u _ _ _ Hr).
    destruct Hr as (Hp' & _).
    now rewrite (bind_raise E _ _ _ _ _
                   (send_command_wrong_word
                      E (logged (moving_events lo hi requested u) w) p _ "MOVE" None
                      "M" word Hp' Ha eq_refl Hne)).
  - intros n word Hn Ha Hne. unfold halt.
    rewrite (bind_run E _ _ _ _ _ (getattr_run E _ _ w n Hn)).
    now rewrite (bind_raise E _ _ _ _ _
                   (send_command_wrong_word E w p _ "HALT" None "HALTED" word
                                            Hp Ha eq_refl Hne)).
Qed.

Lemma failed_assertion_is_not_caught_witness :
  let w := Scenario.built Scenario.healthy 0 None in
  acked (Scenario.port_of w) "<F1SCXX>" "ER=1" /\
  fst (_set_param Scenario.healthy "<F1SCXX>" w) = Raise AssertionError /\
  trace (snd (_set_param Scenario.healthy "<F1SCXX>" w)) = trace w /\
  fst (_get_info Scenario.healthy "<F1GETCONFIG>" "CONFIG2" w) = Raise AssertionError.
Proof.
  cbv zeta.
  set (w := Scenario.built Scenario.healthy 0 None).
  assert (Ha : acked (Scenario.port_of w) "<F1SCXX>" "ER=1")
    by (unfold acked; splits; run).
  assert (Hb : acked (Scenario.port_of w) "<F1GETCONFIG>" "CONFIG1")
    by (unfold acked; splits; run).
  destruct (failed_assertion_is_not_caught
              Scenario.healthy w (Scenario.port_of w))
    as (_ & Hinfo & Hset & _).
  - apply has_port_spec. run.
  - split; [exact Ha|].
    destruct (Hset "<F1SCXX>" "ER=1" Ha) as [H1 H2]; [discriminate|].
    destruct (Hinfo "<F1GETCONFIG>" "CONFIG2" "CONFIG1" Hb) as [H3 _];
      [discriminate|].
    auto.
Defined.

(** X4.  Decoding is the inverse of the hub's encoding.  When the hub
    answers an info query with the acknowledgment, the expected header,
    body lines [key=value] (no further equals sign, any white space or
    line ends around keys and values) and the terminator, [_get_info]
    returns the record that holds each key with its value, both trimmed,
    a later line with the same key replacing the earlier one; the lines
    after the terminator stay in the port and nothing is logged. *)
Theorem info_block_round_trip
        (E : Env) (w : World E) (p : Serial.port E) (c h : string)
        (kvs : list (string * string)) (extra : list string) :
  _serial_port (self w) = Some (Some p) ->
  answers_block p c h kvs extra ->
  _get_info E c h w =
    (Ok (Some (of_pairs kvs)), with_port (with_waiting extra (reply c p)) w) /\
  (forall k, dict_get k (of_pairs kvs) = last_value k kvs) /\
  (forall kv, In kv kvs ->
              key_value (strip (body_line kv)) = Ok (strip (fst kv), strip (snd kv))).
Proof.
  intros Hp Hb. splits.
  - now apply (get_info_block E w p c h kvs extra).
  - intros k. apply dict_get_of_pairs.
  - intros kv Hin. apply key_value_body_line.
    destruct Hb as (_ & ack & hdr & fin & _ & _ & _ & _ & _ & _ & _ & Hwf).
    rewrite Forall_forall in Hwf. now apply Hwf.
Qed.

Lemma info_block_round_trip_witness :
  let w := Scenario.built Scenario.healthy 0 None in
  fst (_get_info Scenario.healthy "<F1GETCONFIG>" "CONFIG1" w) =
    Ok (Some [("Nickname", "Sim"); ("Max Pos", "7000"); ("Dev Typ", "FA")]).
Proof.
  cbv zeta.
  set (w := Scenario.built Scenario.healthy 0 None).
  destruct (info_block_round_trip
              Scenario.healthy w (Scenario.port_of w) "<F1GETCONFIG>" "CONFIG1"
              [("Nickname ", (" Sim" ++ Sim.crlf)%string);
               ("Max Pos  ", (" 7000" ++ Sim.crlf)%string);
               ("Dev Typ  ", (" FA" ++ Sim.crlf)%string)] [])
    as (Hrun & _).
  - apply has_port_spec. run.
  - split; [reflexivity|].
    exists ("!" ++ Sim.crlf)%string, ("CONFIG1" ++ Sim.crlf)%string,
           ("END" ++ Sim.crlf)%string.
    splits; try run.
    repeat constructor.
  - now rewrite Hrun.
Defined.



(** X6.  The position field of the move command [<F{:1d}MA{:06d}>] is
    never truncated: for every target, negative or beyond six digits
    included, the field is at least six characters wide and [int] reads
    the target back from it, as it reads the focuser number back from its
    field.  For a focuser number of one digit and a target from 0 to
    999999 the command is exactly twelve characters and the target is
    the six characters after [<F1MA]. *)
Theorem move_command_round_trip :
  (forall n t,
      move_cmd n t = ("<F" ++ format_1d n ++ "MA" ++ format_0d 6 t ++ ">")%string /\
      int (format_1d n) = Ok n /\
      int (format_0d 6 t) = Ok t /\
      (6 <= String.length (format_0d 6 t))%nat) /\
  (forall n t,
      0 <= n <= 9 -> 0 <= t <= 999999 ->
      String.length (move_cmd n t) = 12%nat /\
      int (substring 5 6 (move_cmd n t)) = Ok t).
Proof.
  split.
  - intros n t. splits.
    + reflexivity.
    + apply int_str_int.
    + apply int_format_0d.
    + apply length_format_0d.
  - intros n t Hn Ht.
    assert (Hlen : String.length (format_0d 6 t) = 6%nat)
      by (apply length_format_0d_exact; simpl; lia).
    assert (Hd : exists c, format_1d n = String c EmptyString).
    { pose proof (length_str_digit n Hn) as H1. unfold format_1d.
      destruct (str_int n) as [|c [|c' r]]; try discriminate. now exists c. }
    destruct Hd as [c Hc]. unfold move_cmd. rewrite Hc.
    change ("<F" ++ String c "" ++ "MA" ++ format_0d 6 t ++ ">")%string
      with (String "<" (String "F" (String c (String "M" (String "A"
              (format_0d 6 t ++ ">")))))).
    split.
    + simpl String.length. rewrite length_app, Hlen. reflexivity.
    + assert (Hsub : forall s r, String.length s = 6%nat ->
                                 substring 0 6 (s ++ r) = s).
      { intros s r H.
        destruct s as [|a1 [|a2 [|a3 [|a4 [|a5 [|a6 [|a7 s]]]]]]];
          try discriminate. simpl. now destruct r. }
      cbn [substring]. rewrite (Hsub _ _ Hlen). apply int_format_0d.
Qed.

Lemma move_command_round_trip_witness :
  move_cmd 1 4200 = "<F1MA004200>" /\
  int (substring 5 6 (move_cmd 1 4200)) = Ok 4200 /\
  move_cmd 1 (-5) = "<F1MA-00005>" /\
  move_cmd 1 1234567 = "<F1MA1234567>" /\
  int (format_0d 6 1234567) = Ok 1234567.
Proof.
  destruct move_command_round_trip as [Hall Hin].
  destruct (Hin 1 4200) as [_ Hint]; [lia|lia|].
  destruct (Hall 1 1234567) as (_ & _ & Hbig & _).
  splits; try reflexivity; assumption.
Defined.



(** X8.  Initialisation talks to the hub in a fixed order.  On a focuser
    with an open port, [_initialise] writes the hub-information query,
    then the configuration query, then the status query of its focuser
    number, and nothing else; when it stops early it has written a
    prefix of these, and when it returns it has written all three.  A
    [Focuser(...)] call that returns has therefore written exactly these
    three commands when no initial position was given, and has written
    them before anything else otherwise. *)
Theorem initialisation_query_order (E : Env) :
  (forall X (w : World E) n,
      wrote X w -> numbered n w ->
      (wrote (X ++ [hub_cmd]) (snd (_initialise E w)) \/
       wrote (X ++ [hub_cmd; config_cmd n]) (snd (_initialise E w)) \/
       wrote (X ++ [hub_cmd; config_cmd n; status_cmd n]) (snd (_initialise E w))) /\
      (forall u, fst (_initialise E w) = Ok u ->
                 wrote (X ++ [hub_cmd; config_cmd n; status_cmd n])
                       (snd (_initialise E w)))) /\
  (forall a fuel f tr,
      new E fuel a = (Ok f, tr) ->
      sends E [hub_cmd; config_cmd (arg_focuser_number a);
               status_cmd (arg_focuser_number a)] {| self := f; trace := tr |} /\
      (arg_initial_position a = None ->
       sent_of {| self := f; trace := tr |} =
         [hub_cmd; config_cmd (arg_focuser_number a);
          status_cmd (arg_focuser_number a)])).
Proof.
  split.
  - intros X w n HX Hn.
    destruct (initialise_wrote E X w n HX Hn) as (H1 & H2 & _). now split.
  - intros a fuel f tr H.
    destruct (new_wrote E a fuel f tr H) as [H1 H2].
    split; [exact H1|]. intros Hnone. now apply wrote_sent_of, H2.
Qed.

Lemma initialisation_query_order_witness :
  exists f tr,
    new Scenario.healthy 0 (Sim.args Sim.tty 0 None) = (Ok f, tr) /\
    sent_of {| self := f; trace := tr |} =
      ["<FHGETHUBINFO>"; "<F1GETCONFIG>"; "<F1GETSTATUS>"].
Proof.
  assert (Hr : Scenario.returned
                 (fst (new Scenario.healthy 0 (Sim.args Sim.tty 0 None))) = true)
    by run.
  destruct (new Scenario.healthy 0 (Sim.args Sim.tty 0 None)) as [[f|e|] tr] eqn:H;
    try discriminate Hr.
  exists f, tr. split; [reflexivity|].
  destruct (initialisation_query_order Scenario.healthy) as [_ Hnew].
  destruct (Hnew _ _ _ _ H) as [_ Hsent].
  now rewrite Hsent.
Defined.

(** X9.  A blocking [move_to] polls the status once before each
    one-second sleep.  When it returns after [k] sleeps it has written,
    after the move command, exactly [k + 2] status queries (the polls of
    the loop and the final read of the position) and no other command. *)
Theorem blocking_move_polls_between_sleeps
        (E : Env) (w : World E) (p : Serial.port E) (n lo hi : Z) (u : string)
        (fuel : nat) (requested v : Z) :
  ready w p n lo hi u ->
  fst (move_to E fuel requested true w) = Ok v ->
  exists k,
    sent_of (snd (move_to E fuel requested true w)) =
      (Serial.sent p ++ move_cmd n (clamp lo hi requested)
                     :: repeat (status_cmd n) (k + 2))%list /\
    sleeps (trace (snd (move_to E fuel requested true w))) =
      (sleeps (trace w) + k)%nat.
Proof.
  intros Hr Hv. apply pair_of_fst in Hv. revert Hv.
  set (w' := snd (move_to E fuel requested true w)).
  rewrite (move_to_run E w p n lo hi u _ _ _ Hr).
  destruct Hr as (Hp & Hn & _).
  set (w0 := logged (moving_events lo hi requested u) w).
  set (c := move_cmd n (clamp lo hi requested)).
  intros H. apply bind_ok in H. destruct H as (i & w1 & Hs & Ha).
  assert (HX : wrote (Serial.sent p ++ [c]) w1).
  { replace w1 with (snd (_send_command E c "MOVE" None w0)) by now rewrite Hs.
    apply send_command_wrote; [exists p; now split|apply is_ascii_move_cmd]. }
  assert (Hn1 : numbered n w1).
  { replace w1 with (snd (_send_command E c "MOVE" None w0)) by now rewrite Hs.
    now apply send_command_numbered. }
  assert (Ht : trace w1 = trace w0).
  { replace w1 with (snd (_send_command E c "MOVE" None w0)) by now rewrite Hs.
    apply send_command_trace. }
  destruct (arrive_ok E _ n fuel _ w1 v w' HX Hn1 Ha) as (k & Hw & Hsl).
  exists k. split.
  - rewrite (wrote_sent_of E _ _ Hw), <- app_assoc. reflexivity.
  - rewrite Hsl, Ht. unfold w0, logged. simpl.
    rewrite sleeps_app, sleeps_moving_events. lia.
Qed.

Lemma blocking_move_polls_between_sleeps_witness :
  let w := Scenario.built Scenario.healthy 0 None in
  fst (move_to Scenario.healthy 3 4000 true w) = Ok 4000 /\
  sent_of (snd (move_to Scenario.healthy 3 4000 true w)) =
    ["<FHGETHUBINFO>"; "<F1GETCONFIG>"; "<F1GETSTATUS>"; "<F1MA004000>";
     "<F1GETSTATUS>"; "<F1GETSTATUS>"; "<F1GETSTATUS>"; "<F1GETSTATUS>"] /\
  sleeps (trace (snd (move_to Scenario.healthy 3 4000 true w))) = 2%nat /\
  exists k,
    sleeps (trace (snd (move_to Scenario.healthy 3 4000 true w))) =
      (sleeps (trace w) + k)%nat.
Proof.
  cbv zeta.
  set (w := Scenario.built Scenario.healthy 0 None).
  assert (Hr : ready w (Scenario.port_of w) 1 0 7000 "Sim").
  { unfold ready. split; [apply has_port_spec; run|].
    splits; try run.
    exists [("Nickname", "Sim"); ("Max Pos", "7000"); ("Dev Typ", "FA")].
    split; run. }
  destruct (blocking_move_polls_between_sleeps
              Scenario.healthy w (Scenario.port_of w) 1 0 7000 "Sim" 3 4000 4000 Hr)
    as (k & _ & Hk); [run|].
  splits; try run. now exists k.
Defined.

(** X10.  A failed hub-information query is not noticed until the
    firmware version is read.  When the hub does not acknowledge the
    query, [_get_hub_info] returns normally with a warning and stores
    [None], and [firmware_version] then raises [TypeError]; when the hub
    answers with a well-formed block, [firmware_version] is the value of
    its last [Hub FVer] line.  Reading the firmware version never writes
    to the port. *)
Theorem hub_info_failure_is_deferred
        (E : Env) (w : World E) (p : Serial.port E) :
  _serial_port (self w) = Some (Some p) ->
  (forall line,
      nack p hub_cmd line ->
      fst (_get_hub_info E w) = Ok tt /\
      _hub_info (self (snd (_get_hub_info E w))) = Some None /\
      In (Warn (nack_message hub_cmd line)) (trace (snd (_get_hub_info E w))) /\
      fst (firmware_version E (snd (_get_hub_info E w))) =
        Raise (TypeError "'NoneType' object is not subscriptable")) /\
  (forall kvs extra v,
      answers_block p hub_cmd "HUB INFO" kvs extra ->
      last_value "Hub FVer" kvs = Some v ->
      fst (_get_hub_info E w) = Ok tt /\
      fst (firmware_version E (snd (_get_hub_info E w))) = Ok v) /\
  (forall w0 : World E, snd (firmware_version E w0) = w0).
Proof.
  intros Hp. splits.
  - intros line Hk. rewrite (get_hub_info_nack E w p line Hp Hk).
    splits; try reflexivity.
    simpl. apply in_or_app. right. right. now left.
  - intros kvs extra v Hb Hv. unfold _get_hub_info.
    rewrite (bind_run E _ _ _ _ _ (get_info_block E w p hub_cmd "HUB INFO" kvs extra Hp Hb)).
    split; [reflexivity|].
    unfold firmware_version, bind, modify, getattr, subscript. simpl.
    now rewrite dict_get_of_pairs, Hv.
  - intros w0. unfold firmware_version, bind, getattr, subscript.
    destruct (_hub_info (self w0)) as [[d|]|]; try reflexivity.
    now destruct (dict_get "Hub FVer" d).
Qed.

Lemma hub_info_failure_is_deferred_witness :
  let w := Scenario.built Scenario.failing 0 None in
  fst (_get_hub_info Scenario.failing w) = Ok tt /\
  fst (firmware_version Scenario.failing (snd (_get_hub_info Scenario.failing w))) =
    Raise (TypeError "'NoneType' object is not subscriptable") /\
  fst (firmware_version Scenario.failing w) = Ok "2.0.9".
Proof.
  cbv zeta.
  set (w := Scenario.built Scenario.failing 0 None).
  destruct (hub_info_failure_is_deferred
              Scenario.failing w (Scenario.port_of w))
    as (Hnack & _).
  - apply has_port_spec. run.
  - destruct (Hnack "X") as (H1 & _ & _ & H2).
    + unfold nack. splits; [run|run|discriminate].
    + splits; [exact H1|exact H2|run].
Defined.

(** X11.  [is_connected] tells whether [connect] succeeded.  After a
    [connect] that returns it is true and nothing has been written to
    the new port; after a [connect] that fails with a serial exception it
    is false, without raising; reading it never changes the object. *)
Theorem is_connected_follows_connect (E : Env) (w : World E) :
  (forall d,
      serial_Serial E (port (self w)) = inr d ->
      fst (connect E w) = Ok tt /\
      fst (is_connected E (snd (connect E w))) = Ok true /\
      wrote [] (snd (connect E w))) /\
  (forall e,
      serial_Serial E (port (self w)) = inl e -> is_SerialException e = true ->
      fst (connect E w) = Raise e /\
      fst (is_connected E (snd (connect E w))) = Ok false) /\
  snd (is_connected E w) = w.
Proof.
  splits.
  - intros d Hs. rewrite (connect_ok E w d Hs). splits; try reflexivity.
    exists (Serial.open d). now split.
  - intros e Hs He. rewrite (connect_raises E w e Hs He). now split.
  - apply is_connected_readonly.
Qed.

Lemma is_connected_follows_connect_witness :
  fst (is_connected Scenario.healthy
         (snd (connect Scenario.healthy
                       (fresh Scenario.healthy (Sim.args Sim.tty 0 None))))) = Ok true /\
  fst (is_connected Scenario.healthy
         (snd (connect Scenario.healthy
                       (fresh Scenario.healthy (Sim.args "/dev/null" 0 None))))) = Ok false.
Proof.
  destruct (is_connected_follows_connect
              Scenario.healthy (fresh Scenario.healthy (Sim.args Sim.tty 0 None)))
    as (Hok & _).
  destruct (is_connected_follows_connect
              Scenario.healthy (fresh Scenario.healthy (Sim.args "/dev/null" 0 None)))
    as (_ & Hfail & _).
  destruct (Hok (Sim.hub "Sim" 100) eq_refl) as (_ & H1 & _).
  destruct (Hfail (SerialException "could not open port /dev/null") eq_refl eq_refl)
    as (_ & H2).
  now split.
Defined.

End FocusLynxProtocol.

(* ================================================================== *)
(** ** The mount: queries over the transport *)
(* ================================================================== *)

Module MountQueries.
Import Mount MountProps MountWire.

Lemma mount_bind_run {A B} (m : M A) (k : A -> M B) (w : World) a w1 :
  m w = (Ok a, w1) -> bind m k w = k a w1.
Proof. unfold bind. now intros ->. Qed.

Lemma mount_bind_raise {A B} (m : M A) (k : A -> M B) (w : World) e w1 :
  m w = (Raise e, w1) -> bind m k w = (Raise e, w1).
Proof. unfold bind. now intros ->. Qed.

Lemma mount_bind_ok {A B} (m : M A) (k : A -> M B) (w : World) b w' :
  bind m k w = (Ok b, w') ->
  exists a w1, m w = (Ok a, w1) /\ k a w1 = (Ok b, w').
Proof.
  unfold bind. destruct (m w) as [[a|e|] w1]; intros H; try discriminate.
  now exists a, w1.
Qed.

Lemma get_command_run (w : World) pre post tbl cmd :
  _pre_cmd (self w) = Some pre -> commands (self w) = Some tbl ->
  _post_cmd (self w) = Some post ->
  get_command cmd w = (Ok (frame pre post tbl cmd), w).
Proof.
  intros Hpre Htbl Hpost. unfold get_command, bind, getattr, ret, frame.
  now rewrite Hpre, Htbl, Hpost.
Qed.

Lemma exchanged_wire s d : wire (exchanged s d) = (wire d ++ [s])%list.
Proof.
  unfold exchanged, SerialData_read, SerialData_write. cbn [incoming].
  destruct (incoming d); reflexivity.
Qed.

Lemma exchanged_incoming s d : incoming (exchanged s d) = tl (incoming d).
Proof.
  unfold exchanged, SerialData_read, SerialData_write. cbn [incoming].
  destruct (incoming d); reflexivity.
Qed.

Lemma read_written s d :
  fst (SerialData_read (SerialData_write s d)) = hd EmptyString (incoming d).
Proof.
  unfold SerialData_read, SerialData_write. cbn [incoming].
  destruct (incoming d); reflexivity.
Qed.

Lemma create_serial_run (w : World) port :
  serial_port (self w) = Some port ->
  create_serial w =
    (Ok tt,
     {| self := set_serial (SerialData_open (line w)) (self w);
        trace := trace w ++ [Opened (match port with VStr s => s | _ => "" end)];
        line := line w |}).
Proof.
  intros Hp. unfold create_serial, bind, getattr. now rewrite Hp.
Qed.

Lemma serial_query_run (w : World) pre post tbl d cmd :
  wired w pre post tbl d ->
  serial_query cmd w =
    (Ok (hd EmptyString (incoming d)),
     {| self := set_serial (exchanged (frame pre post tbl cmd) d) (self w);
        trace := trace w ++ query_log (frame pre post tbl cmd)
                                      (hd EmptyString (incoming d));
        line := line w |}).
Proof.
  intros (Hpre & Htbl & Hpost & Hd). unfold serial_query.
  rewrite (mount_bind_run _ _ _ _ _ (get_command_run w pre post tbl cmd Hpre Htbl Hpost)).
  unfold serial_send, serial_read, bind, logger, getattr, modify, ret. simpl.
  rewrite Hd. simpl. unfold exchanged.
  rewrite <- (read_written (frame pre post tbl cmd) d).
  destruct (SerialData_read (SerialData_write (frame pre post tbl cmd) d))
    as [response d'].
  simpl. now rewrite <- app_assoc.
Qed.

Lemma queries_run (cmds : list string) :
  forall (w : World) pre post tbl d,
    wired w pre post tbl d ->
    exists w',
      queries cmds w = (Ok (responses (List.length cmds) (incoming d)), w') /\
      wired w' pre post tbl
            {| wire := wire d ++ map (frame pre post tbl) cmds;
               incoming := skipn (List.length cmds) (incoming d) |}.
Proof.
  induction cmds as [|cmd cmds IH]; intros w pre post tbl d Hw.
  - exists w. split; [reflexivity|]. simpl. rewrite app_nil_r.
    destruct Hw as (Hpre & Htbl & Hpost & Hd).
    repeat split; auto. rewrite Hd. now destruct d.
  - simpl queries.
    rewrite (mount_bind_run _ _ _ _ _ (serial_query_run w pre post tbl d cmd Hw)).
    match goal with
    | |- context [bind (queries cmds) _ ?w1] =>
        destruct (IH w1 pre post tbl (exchanged (frame pre post tbl cmd) d))
          as (w' & Hq & Hw')
    end.
    { destruct Hw as (Hpre & Htbl & Hpost & Hd). now repeat split. }
    rewrite (mount_bind_run _ _ _ _ _ Hq). exists w'. split.
    + unfold ret. f_equal. f_equal. rewrite exchanged_incoming. simpl.
      now destruct (incoming d).
    + rewrite exchanged_wire, exchanged_incoming, <- app_assoc in Hw'.
      simpl in Hw'. simpl.
      replace (skipn (List.length cmds) (tl (incoming d)))
        with (match incoming d with
              | [] => []
              | _ :: l => skipn (List.length cmds) l
              end) in Hw'; [exact Hw'|].
      destruct (incoming d); [now rewrite skipn_nil|reflexivity].
Qed.

(** X12.  Queries and responses alternate strictly and keep their order.
    On a mount whose wrapping tokens, table and transport are set, a
    sequence of [serial_query] calls writes one frame per call, the
    pre-token, the table entry and the post-token, in the order of the
    calls and nothing else; the k-th call returns the k-th pending
    response of the hardware, and the empty string once nothing is
    pending. *)
Theorem queries_alternate_with_responses
        (cmds : list string) (w : World) (pre post : string)
        (tbl : dict string) (d : SerialData) :
  wired w pre post tbl d ->
  fst (queries cmds w) = Ok (responses (List.length cmds) (incoming d)) /\
  serial (self (snd (queries cmds w))) =
    Some {| wire := wire d ++ map (frame pre post tbl) cmds;
            incoming := skipn (List.length cmds) (incoming d) |} /\
  (forall cmd token,
      dict_get cmd tbl = Some token ->
      frame pre post tbl cmd = (pre ++ token ++ post)%string).
Proof.
  intros Hw. destruct (queries_run cmds w pre post tbl d Hw) as (w' & Hq & Hw').
  rewrite Hq. split; [reflexivity|]. split.
  - now destruct Hw' as (_ & _ & _ & Hd).
  - intros cmd token Ht. unfold frame. now rewrite Ht.
Qed.

Lemma queries_alternate_with_responses_witness :
  fst (queries ["slewing"; "slew"; "slewing"] Scenario.mount) =
    Ok ["0#"; ""; ""] /\
  option_map wire
    (serial (self (snd (queries ["slewing"; "slew"; "slewing"] Scenario.mount)))) =
    Some [":SE?#"; ":MS#"; ":SE?#"].
Proof.
  destruct (queries_alternate_with_responses
              ["slewing"; "slew"; "slewing"] Scenario.mount ":" "#" Scenario.table
              {| wire := []; incoming := ["0#"] |})
    as (Hr & Hs & _).
  - repeat split.
  - split; [exact Hr|]. now rewrite Hs.
Defined.

(** X13.  No query works before [create_serial].  The constructor leaves
    its call of [create_serial] commented out, so a mount has no [serial]
    attribute until the caller creates the transport: until then
    [serial_query] raises [AttributeError] after the command has been
    translated and logged, and the object is unchanged.  Once
    [create_serial] has run, the same query is written to the new
    transport and returns the first answer of the hardware. *)
Theorem query_needs_create_serial
        (w : World) (pre post : string) (tbl : dict string) (cmd : string) :
  _pre_cmd (self w) = Some pre ->
  commands (self w) = Some tbl ->
  _post_cmd (self w) = Some post ->
  serial (self w) = None ->
  fst (serial_query cmd w) = Raise (AttributeError "serial") /\
  self (snd (serial_query cmd w)) = self w /\
  trace (snd (serial_query cmd w)) =
    (trace w ++ [Log DEBUG ("Mount Send: " ++ frame pre post tbl cmd)%string])%list /\
  (forall port,
      serial_port (self w) = Some port ->
      fst ((create_serial ;; serial_query cmd) w) =
        Ok (hd EmptyString (line w)) /\
      option_map wire
        (serial (self (snd ((create_serial ;; serial_query cmd) w)))) =
        Some [frame pre post tbl cmd]).
Proof.
  intros Hpre Htbl Hpost Hd.
  assert (Hq : serial_query cmd w =
                 (Raise (AttributeError "serial"),
                  {| self := self w;
                     trace := trace w ++ [Log DEBUG ("Mount Send: "
                                                     ++ frame pre post tbl cmd)%string];
                     line := line w |})).
  { unfold serial_query.
    rewrite (mount_bind_run _ _ _ _ _ (get_command_run w pre post tbl cmd Hpre Htbl Hpost)).
    unfold serial_send, bind, logger, getattr. simpl. now rewrite Hd. }
  rewrite Hq. repeat split.
  - rewrite (mount_bind_run _ _ _ _ _ (create_serial_run w port H)).
    rewrite (serial_query_run _ pre post tbl (SerialData_open (line w)) cmd);
      [reflexivity|now repeat split].
  - rewrite (mount_bind_run _ _ _ _ _ (create_serial_run w port H)).
    rewrite (serial_query_run _ pre post tbl (SerialData_open (line w)) cmd);
      [|now repeat split].
    simpl. now rewrite exchanged_wire.
Qed.

Lemma query_needs_create_serial_witness :
  let w := snd ((modify (set_serial_port (VStr Sim.tty)) ;;
                 c <- setup_commands_61 Scenario.table ;;
                 modify (set_commands c))
                  {| self := empty; trace := []; line := ["0#"] |}) in
  fst (serial_query "slewing" w) = Raise (AttributeError "serial") /\
  fst ((create_serial ;; serial_query "slewing") w) = Ok "0#".
Proof.
  cbv zeta.
  destruct (query_needs_create_serial
              (snd ((modify (set_serial_port (VStr Sim.tty)) ;;
                     c <- setup_commands_61 Scenario.table ;;
                     modify (set_commands c))
                      {| self := empty; trace := []; line := ["0#"] |}))
              ":" "#" Scenario.table "slewing" eq_refl eq_refl eq_refl eq_refl)
    as (H1 & _ & _ & H2).
  split; [exact H1|].
  now destruct (H2 (VStr Sim.tty) eq_refl) as [H3 _].
Defined.

(** X14.  [check_slewing] returns the text of the response, never a
    boolean.  Whenever it returns, its result is the string that
    [serial_query] read, and the same string is left in [is_slewing]; on
    a mount that is ready for queries it is the first pending response,
    so every non-empty answer of the mount, a [0] included, is true to a
    caller that tests the result. *)
Theorem check_slewing_returns_the_response (w : World) :
  (forall v w',
      check_slewing w = (Ok v, w') ->
      exists s, v = VStr s /\ is_slewing (self w') = Some (VStr s) /\
                truthy v = negb (s =? "")%string) /\
  (forall pre post tbl d,
      wired w pre post tbl d ->
      fst (check_slewing w) = Ok (VStr (hd EmptyString (incoming d))) /\
      is_slewing (self (snd (check_slewing w))) =
        Some (VStr (hd EmptyString (incoming d))) /\
      option_map wire (serial (self (snd (check_slewing w)))) =
        Some (wire d ++ [frame pre post tbl "slewing"])%list).
Proof.
  split.
  - intros v w' H. unfold check_slewing in H.
    apply mount_bind_ok in H. destruct H as (r & w1 & _ & H).
    unfold bind, modify, getattr in H. simpl in H. inversion H; subst.
    exists r. now repeat split.
  - intros pre post tbl d Hw. unfold check_slewing.
    rewrite (mount_bind_run _ _ _ _ _ (serial_query_run w pre post tbl d "slewing" Hw)).
    unfold bind, modify, getattr. simpl. repeat split.
    now rewrite exchanged_wire.
Qed.

Lemma check_slewing_returns_the_response_witness :
  fst (check_slewing Scenario.mount) = Ok (VStr "0#") /\
  truthy (VStr "0#") = true.
Proof.
  destruct (check_slewing_returns_the_response Scenario.mount) as [_ H].
  destruct (H ":" "#" Scenario.table {| wire := []; incoming := ["0#"] |})
    as (Hr & _).
  - repeat split.
  - split; [exact Hr|reflexivity].
Defined.

(** X15.  [connect] of the abstract class never returns [False] and
    never changes the object: it returns [True] when the mount is
    already connected, without calling [initialize_mount]; otherwise the
    [NotImplementedError] of [initialize_mount] (or the [AttributeError]
    of a missing [is_connected]) reaches the caller, so the branch that
    logs "Cannot connect to mount" is never taken. *)
Theorem abstract_connect_changes_nothing (w : World) :
  snd (connect w) = w /\
  (is_connected (self w) = Some true -> fst (connect w) = Ok true) /\
  (is_connected (self w) = Some false ->
   fst (connect w) = Raise NotImplementedError) /\
  (is_connected (self w) = None ->
   fst (connect w) = Raise (AttributeError "is_connected")) /\
  fst (connect w) <> Ok false.
Proof.
  unfold connect, initialize_mount, bind, getattr, raise, ret.
  destruct (is_connected (self w)) as [[|]|] eqn:Hc; simpl;
    try rewrite Hc; repeat split; try discriminate; auto.
Qed.

End MountQueries.

(* ================================================================== *)
(** ** The name server: the address chosen *)
(* ================================================================== *)

Module NameServerFacts.
Import NameServer.

Lemma filter_byte_spec (i : nat) (b : string) (addresses kept : list string) :
  filter_byte i b addresses = inr kept ->
  kept = filter (has_byte i b) addresses.
Proof.
  revert kept. induction addresses as [|a rest IH]; intros kept H; simpl in H.
  - now inversion H.
  - unfold has_byte, byte. simpl.
    destruct (nth_error (split "." a) i) as [x|]; [|discriminate].
    destruct (filter_byte i b rest) as [e|l]; [discriminate|].
    inversion H; subst. rewrite (IH l eq_refl).
    now destruct (x =? b)%string.
Qed.

Lemma narrow_spec (gateway_IP : string) (addresses kept : list string) :
  narrow gateway_IP addresses = inr kept ->
  (List.length addresses <= 1)%nat /\ kept = addresses \/
  exists b1,
    (1 < List.length addresses)%nat /\ byte 0 gateway_IP = Some b1 /\
    ((List.length (filter (has_byte 0 b1) addresses) <= 1)%nat /\
     kept = filter (has_byte 0 b1) addresses \/
     exists b2,
       byte 1 gateway_IP = Some b2 /\
       kept = filter (has_byte 1 b2) (filter (has_byte 0 b1) addresses)).
Proof.
  unfold narrow, byte. intros H.
  destruct (Nat.ltb_spec 1 (List.length addresses)) as [Hlong|Hshort].
  - right.
    destruct (nth_error (split "." gateway_IP) 0) as [b1|]; [|discriminate].
    exists b1. split; [exact Hlong|]. split; [reflexivity|].
    destruct (filter_byte 0 b1 addresses) as [e|l] eqn:Hf; [discriminate|].
    apply filter_byte_spec in Hf. subst l.
    destruct (Nat.ltb_spec 1 (List.length (filter (has_byte 0 b1) addresses)))
      as [Hlong'|Hshort'].
    + right.
      destruct (nth_error (split "." gateway_IP) 1) as [b2|]; [|discriminate].
      exists b2. split; [reflexivity|]. now apply filter_byte_spec.
    + left. split; [exact Hshort'|]. now inversion H.
  - left. split; [exact Hshort|]. now inversion H.
Qed.

Lemma determine_host_narrow (gateway_IP : string) (addresses : list string) host :
  determine_host gateway_IP addresses = inr host ->
  narrow gateway_IP addresses = inr [host].
Proof.
  unfold determine_host.
  destruct (narrow gateway_IP addresses) as [e|[|h [|h' l]]]; intros H;
    inversion H. reflexivity.
Qed.



End NameServerFacts.

(* ================================================================== *)
(** ** The observation and its exposures *)
(* ================================================================== *)

Module ObservationFacts.
Import Observation.

Section Files.
Variable path_exists : string -> bool.
Variable cam_take_exposure : Camera -> Quantity -> error + string.

Lemma complete_fst (x : Exposure) :
  fst (complete path_exists x) =
    negb (forallb path_exists (images x)) && negb (_is_exposing x).
Proof.
  unfold Observation.complete, images_exist, is_exposing.
  now destruct (forallb path_exists (images x)).
Qed.

Lemma complete_snd (x : Exposure) :
  snd (complete path_exists x) = set__exposed (forallb path_exists (images x)) x.
Proof.
  unfold Observation.complete, images_exist.
  now destruct (forallb path_exists (images x)).
Qed.

Lemma complete_again (x : Exposure) : complete path_exists (snd (complete path_exists x)) = complete path_exists x.
Proof.
  rewrite complete_snd. unfold Observation.complete, images_exist, is_exposing.
  simpl. now destruct (forallb path_exists (images x)).
Qed.

Lemma missing_image (l : list string) :
  forallb path_exists l = false <-> exists f, In f l /\ path_exists f = false.
Proof.
  induction l as [|f l IH]; simpl.
  - split; [discriminate|]. now intros (f & [] & _).
  - destruct (path_exists f) eqn:Hf; simpl.
    + rewrite IH. split.
      * intros (g & Hg & Hn). exists g. auto.
      * intros (g & [->|Hg] & Hn); [congruence|]. now exists g.
    + split; [|reflexivity]. intros _. exists f. auto.
Qed.

Lemma complete_true (x : Exposure) :
  fst (complete path_exists x) = true <->
  _is_exposing x = false /\ exists f, In f (images x) /\ path_exists f = false.
Proof.
  rewrite complete_fst, andb_true_iff, !negb_true_iff, missing_image. tauto.
Qed.

(** X17.  An exposure counts as complete exactly when it is not exposing
    and one of the image files recorded for it does not exist.  An
    exposure with no image recorded, and one whose image files are all
    there, is therefore never complete.  Reading [complete] stores the
    answer of the file test in [_exposed] and changes nothing else;
    reading it again gives the same. *)
Theorem complete_means_a_missing_image (x : Exposure) :
  (fst (complete path_exists x) = true <->
   _is_exposing x = false /\
   exists f, In f (images x) /\ path_exists f = false) /\
  (images x = [] -> fst (complete path_exists x) = false) /\
  ((forall f, In f (images x) -> path_exists f = true) ->
   fst (complete path_exists x) = false) /\
  snd (complete path_exists x) = set__exposed (forallb path_exists (images x)) x /\
  complete path_exists (snd (complete path_exists x)) = complete path_exists x.
Proof.
  split; [apply complete_true|].
  split; [intros H; rewrite complete_fst, H; reflexivity|].
  split; [|split; [apply complete_snd|apply complete_again]].
  intros H. rewrite complete_fst.
  replace (forallb path_exists (images x)) with true; [reflexivity|].
  symmetry. now apply forallb_forall.
Qed.

(** *** Construction *)

Lemma exposures_of_length k q f a cams l :
  exposures_of k q f a cams = inr l -> List.length l = Z.to_nat k.
Proof.
  unfold exposures_of, for_range. destruct (Z.leb_spec k 0) as [Hk|Hk].
  - intros H; inversion H. simpl. lia.
  - destruct cams as [e|c]; intros H; inversion H. apply repeat_length.
Qed.

Lemma exposures_of_fresh k q f a cams l :
  exposures_of k q f a cams = inr l ->
  exists c, (0 < k -> cams = inr c) /\
            Forall (fun x => x = Exposure__init__ q f a (CameraList c)) l.
Proof.
  unfold exposures_of, for_range. destruct (Z.leb_spec k 0) as [Hk|Hk].
  - intros H; inversion H. exists []. split; [lia|constructor].
  - destruct cams as [e|c]; intros H; inversion H. exists c.
    split; [reflexivity|]. apply Forall_forall. intros x Hx.
    now apply repeat_spec in Hx.
Qed.

Lemma exposures_of_made k q f a test cameras l :
  exposures_of k q f a (select cameras test) = inr l ->
  Forall (made q f a test cameras) l.
Proof.
  intros H. destruct (exposures_of_fresh _ _ _ _ _ _ H) as (c & Hc & Hall).
  apply Forall_forall. intros x Hx.
  rewrite Forall_forall in Hall. rewrite (Hall x Hx).
  repeat split. intros d Hd. subst cameras. simpl.
  destruct l as [|y l]; [destruct Hx|].
  assert (Hk : 0 < k).
  { apply exposures_of_length in H. simpl in H. lia. }
  specialize (Hc Hk). simpl in Hc. now inversion Hc.
Qed.

Lemma new_observation_has_no_images c cameras o :
  __init__ c cameras = inr o ->
  Forall (fun x => images x = []) (primary o ++ secondary o).
Proof.
  unfold __init__, _create_exposures. intros H.
  destruct (exposures_of (get (cfg_primary_nexp c) 1) _ _ _ (select cameras is_primary))
    as [e|p] eqn:Hp; [discriminate|].
  destruct (exposures_of (get (cfg_secondary_nexp c) (get (cfg_primary_nexp c) 1))
                         _ _ _ (select cameras (fun cam => negb (is_primary cam))))
    as [e|s] eqn:Hs; [discriminate|].
  inversion H; subst o; clear H. simpl.
  apply exposures_of_made in Hp. apply exposures_of_made in Hs.
  apply Forall_app. split; [revert Hp|revert Hs]; apply Forall_impl;
    intros x Hm; apply Hm.
Qed.

(** X18.  What [Observation(obs_config, cameras)] builds.  There are
    [primary_nexp] primary exposures (one when the entry is missing,
    none when it is not positive) and [secondary_nexp] secondary ones,
    as many as primary ones when that entry is missing.  Every exposure
    starts without images, not exposing and without a logger, with the
    exposure time of its type (120 seconds by default); the primary ones
    hold the cameras that are primary, in the order of the mapping, the
    secondary ones all the others, and only primary exposures can be
    analysed.  The counter starts at zero, and [estimate_duration] fails
    on the new object, which has no [primary_exptime]. *)
Theorem observation_is_built_from_its_config
        (c : obs_config) (cameras : option (list (string * Camera)))
        (o : Observation) :
  __init__ c cameras = inr o ->
  List.length (primary o) = Z.to_nat (get (cfg_primary_nexp c) 1) /\
  List.length (secondary o) =
    Z.to_nat (get (cfg_secondary_nexp c) (get (cfg_primary_nexp c) 1)) /\
  Forall (made (seconds (get (cfg_primary_exptime c) 120)) (cfg_primary_filter c)
               (get (cfg_primary_analyze c) false) is_primary cameras)
         (primary o) /\
  Forall (made (seconds (get (cfg_secondary_exptime c) 120)) (cfg_secondary_filter c)
               false (fun cam => negb (is_primary cam)) cameras)
         (secondary o) /\
  _current_exposure o = O /\
  (forall overhead,
      estimate_duration o overhead = (inl (AttributeError "primary_exptime"), o)).
Proof.
  unfold __init__, _create_exposures. intros H.
  destruct (exposures_of (get (cfg_primary_nexp c) 1) _ _ _ (select cameras is_primary))
    as [e|p] eqn:Hp; [discriminate|].
  destruct (exposures_of (get (cfg_secondary_nexp c) (get (cfg_primary_nexp c) 1))
                         _ _ _ (select cameras (fun cam => negb (is_primary cam))))
    as [e|s] eqn:Hs; [discriminate|].
  inversion H; subst o; clear H. simpl.
  split; [now apply exposures_of_length in Hp|].
  split; [now apply exposures_of_length in Hs|].
  split; [now apply exposures_of_made in Hp|].
  split; [now apply exposures_of_made in Hs|].
  split; reflexivity.
Qed.

(** X19.  An observation needs its cameras.  With the default
    [cameras=None], construction raises [AttributeError] exactly when an
    exposure would be created, that is when [primary_nexp] (one by
    default) or [secondary_nexp] is positive; [Observation()] with no
    arguments therefore never returns an object.  With a mapping of
    cameras, empty or not, construction always returns. *)
Theorem observation_needs_cameras (c : obs_config) :
  (__init__ c None = inl (AttributeError "values") <->
   0 < get (cfg_primary_nexp c) 1 \/
   0 < get (cfg_secondary_nexp c) (get (cfg_primary_nexp c) 1)) /\
  (cfg_primary_nexp c = None -> __init__ c None = inl (AttributeError "values")) /\
  (forall d, exists o, __init__ c (Some d) = inr o).
Proof.
  assert (Hiff : __init__ c None = inl (AttributeError "values") <->
                 0 < get (cfg_primary_nexp c) 1 \/
                 0 < get (cfg_secondary_nexp c) (get (cfg_primary_nexp c) 1)).
  { unfold __init__, _create_exposures, exposures_of, select.
    destruct (Z.leb_spec (get (cfg_primary_nexp c) 1) 0) as [Hp|Hp].
    - destruct (Z.leb_spec (get (cfg_secondary_nexp c) (get (cfg_primary_nexp c) 1)) 0)
        as [Hs|Hs].
      + split; [discriminate|lia].
      + split; [right; exact Hs|reflexivity].
    - split; [left; exact Hp|reflexivity]. }
  split; [exact Hiff|]. split.
  - intros Hn. apply Hiff. left. rewrite Hn. simpl. lia.
  - intros d. unfold __init__, _create_exposures, exposures_of, select.
    destruct (get (cfg_primary_nexp c) 1 <=? 0);
      destruct (get (cfg_secondary_nexp c) (get (cfg_primary_nexp c) 1) <=? 0);
      eexists; reflexivity.
Qed.

(** *** Exposures left *)

Lemma completes_spec (exp_type : string) (exps : list Exposure) :
  fst (fst (completes path_exists exp_type exps)) = map (fun x => fst (complete path_exists x)) exps /\
  snd (fst (completes path_exists exp_type exps)) = map (fun x => snd (complete path_exists x)) exps.
Proof.
  induction exps as [|x exps [IH1 IH2]]; simpl; [now split|].
  pose proof (complete_again x) as Ha.
  destruct (complete path_exists x) as [c1 x1] eqn:H1. simpl in Ha.
  rewrite Ha.
  destruct (completes path_exists exp_type exps) as [[cs rest'] rs]. simpl in *.
  now rewrite IH1, IH2.
Qed.

Lemma forallb_id_map {A} (f : A -> bool) (l : list A) :
  forallb (fun b => b) (map f l) = forallb f l.
Proof. induction l as [|a l IH]; simpl; [reflexivity|now rewrite IH]. Qed.

Lemma forallb_false {A} (f : A -> bool) (l : list A) :
  forallb f l = false <-> exists x, In x l /\ f x = false.
Proof.
  induction l as [|a l IH]; simpl.
  - split; [discriminate|]. now intros (x & [] & _).
  - rewrite andb_false_iff, IH. split.
    + intros [Ha|(x & Hx & Hn)]; [exists a; auto|exists x; auto].
    + intros (x & [->|Hx] & Hn); [now left|right; now exists x].
Qed.

Lemma has_exposures_fst (o : Observation) :
  fst (has_exposures path_exists o) =
    negb (forallb (fun x => fst (complete path_exists x)) (primary o ++ secondary o)).
Proof.
  unfold Observation.has_exposures.
  destruct (completes_spec "primary" (primary o)) as [Hp _].
  destruct (completes_spec "secondary" (secondary o)) as [Hs _].
  destruct (completes path_exists "primary" (primary o)) as [[cp p'] rp].
  destruct (completes path_exists "secondary" (secondary o)) as [[cs s'] rs].
  simpl in *. subst cp cs. now rewrite <- map_app, forallb_id_map.
Qed.

Lemma has_exposures_snd (o : Observation) :
  primary (snd (has_exposures path_exists o)) = map (fun x => snd (complete path_exists x)) (primary o) /\
  secondary (snd (has_exposures path_exists o)) = map (fun x => snd (complete path_exists x)) (secondary o) /\
  _current_exposure (snd (has_exposures path_exists o)) = _current_exposure o.
Proof.
  unfold Observation.has_exposures.
  destruct (completes_spec "primary" (primary o)) as [_ Hp].
  destruct (completes_spec "secondary" (secondary o)) as [_ Hs].
  destruct (completes path_exists "primary" (primary o)) as [[cp p'] rp].
  destruct (completes path_exists "secondary" (secondary o)) as [[cs s'] rs].
  simpl in *. now subst.
Qed.

(** X20.  [has_exposures] is false only when every exposure has lost an
    image.  It is true exactly when some exposure is not complete, so it
    is false exactly when the observation has no exposure that is
    exposing or has all its recorded image files on disk; an observation
    fresh from its constructor has exposures left exactly when it has
    any exposure at all.  The read keeps the number of exposures, their
    images and the counter, and a second read gives the same answer. *)
Theorem has_exposures_until_images_are_missing (o : Observation) :
  (fst (has_exposures path_exists o) = true <->
   exists x, In x (primary o ++ secondary o) /\ fst (complete path_exists x) = false) /\
  (fst (has_exposures path_exists o) = false <->
   forall x, In x (primary o ++ secondary o) ->
             _is_exposing x = false /\
             exists f, In f (images x) /\ path_exists f = false) /\
  (forall c cameras,
      __init__ c cameras = inr o ->
      fst (has_exposures path_exists o) =
        negb ((List.length (primary o) + List.length (secondary o) =? 0)%nat)) /\
  map images (primary (snd (has_exposures path_exists o))) = map images (primary o) /\
  map images (secondary (snd (has_exposures path_exists o))) = map images (secondary o) /\
  _current_exposure (snd (has_exposures path_exists o)) = _current_exposure o /\
  fst (has_exposures path_exists (snd (has_exposures path_exists o))) = fst (has_exposures path_exists o).
Proof.
  assert (Hfalse : fst (has_exposures path_exists o) = false <->
                   forall x, In x (primary o ++ secondary o) ->
                             fst (complete path_exists x) = true).
  { rewrite has_exposures_fst, negb_false_iff. apply forallb_forall. }
  destruct (has_exposures_snd o) as (Hp & Hs & Hc).
  split; [|split; [|split; [|split; [|split; [|split]]]]].
  - rewrite has_exposures_fst, negb_true_iff. apply forallb_false.
  - rewrite Hfalse. split; intros H x Hx; apply complete_true; now apply H.
  - intros c cameras Hi.
    pose proof (new_observation_has_no_images c cameras o Hi) as Hall.
    rewrite has_exposures_fst.
    rewrite <- length_app. clear - Hall.
    induction Hall as [|x l Hx _ IH]; [reflexivity|].
    simpl. now rewrite complete_fst, Hx.
  - rewrite Hp, map_map. apply map_ext. intros x. now rewrite complete_snd.
  - rewrite Hs, map_map. apply map_ext. intros x. now rewrite complete_snd.
  - exact Hc.
  - rewrite !has_exposures_fst, Hp, Hs, <- map_app. f_equal.
    generalize (primary o ++ secondary o). clear.
    intros l. induction l as [|x l IH]; [reflexivity|].
    simpl. now rewrite complete_again, IH.
Qed.

(** *** Taking an exposure *)

(** X21.  [take_exposure] never takes an exposure and never returns.
    While the counter is within both lists of exposures the call raises
    [ValueError], because the generator [get_next_exposure] yields a
    single item where two names are unpacked, and it still advances the
    counter; once the counter is past either list it raises [IndexError]
    and changes nothing.  In both cases the exposures and the log are
    untouched: no [expose] is reached. *)
Theorem take_exposure_never_exposes (o : Observation) :
  ((_current_exposure o < List.length (primary o))%nat /\
   (_current_exposure o < List.length (secondary o))%nat ->
   take_exposure o =
     (inl (ValueError "not enough values to unpack (expected 2, got 1)"),
      set__current_exposure (_current_exposure o + 1) o)) /\
  (~ ((_current_exposure o < List.length (primary o))%nat /\
      (_current_exposure o < List.length (secondary o))%nat) ->
   take_exposure o = (inl (IndexError "list index out of range"), o)) /\
  primary (snd (take_exposure o)) = primary o /\
  secondary (snd (take_exposure o)) = secondary o /\
  log (snd (take_exposure o)) = log o /\
  (forall u, fst (take_exposure o) <> inr u).
Proof.
  unfold take_exposure, get_next_exposure, current_exposure.
  destruct (nth_error (primary o) (_current_exposure o)) as [p|] eqn:Hp.
  - destruct (nth_error (secondary o) (_current_exposure o)) as [s|] eqn:Hs.
    + simpl. repeat split; try discriminate.
      intros H. exfalso. apply H. split; apply nth_error_Some; congruence.
    + apply nth_error_None in Hs. simpl. repeat split; try discriminate.
      intros [_ H]. lia.
  - apply nth_error_None in Hp. simpl. repeat split; try discriminate.
    intros [H _]. lia.
Qed.

(** *** Exposing *)

Lemma for_cameras_spec (d : list (string * Camera)) (x : Exposure) (st : started) :
  match d with
  | [] => for_cameras cam_take_exposure d x st = (inr tt, x, st)
  | (name, cam) :: _ =>
      for_cameras cam_take_exposure d x st = expose_one cam_take_exposure name cam x st
  end.
Proof.
  destruct d as [|[name cam] rest]; simpl; [reflexivity|].
  unfold expose_one. destruct (cam_take_exposure cam (exptime x)); [reflexivity|].
  now destruct (logger (set__is_exposing true x)).
Qed.

(** X22.  [expose] never records an image.  Whatever the cameras are
    and however their exposures end, [images] is the same after the call
    as before.  An [Exposure] as its constructor makes it has no logger:
    for it the call returns only when it has an empty mapping of
    cameras, and otherwise ends with [AttributeError]; with a mapping
    whose first camera starts its exposure, that camera alone has been
    started and [_is_exposing] stays true.  With a logger attached the
    call always returns, after at most the first camera, with
    [_is_exposing] reset whenever there was a camera to use. *)
Theorem expose_records_no_image (x : Exposure) (st : started) :
  images (snd (fst (expose cam_take_exposure x st))) = images x /\
  (snd (expose cam_take_exposure x st) = st \/
   exists name cam rest,
     cameras x = CameraDict ((name, cam) :: rest) /\
     snd (expose cam_take_exposure x st) = (st ++ [(cam, exptime x)])%list) /\
  (logger x = None ->
   (fst (fst (expose cam_take_exposure x st)) = inr tt <-> cameras x = CameraDict []) /\
   (cameras x <> CameraDict [] ->
    fst (fst (expose cam_take_exposure x st)) = inl (AttributeError "logger")) /\
   (snd (expose cam_take_exposure x st) <> st -> _is_exposing (snd (fst (expose cam_take_exposure x st))) = true)) /\
  (logger x <> None ->
   fst (fst (expose cam_take_exposure x st)) = inr tt /\
   (cameras x <> CameraDict [] ->
    _is_exposing (snd (fst (expose cam_take_exposure x st))) = false)).
Proof.
  unfold Observation.expose, expose_body.
  destruct (cameras x) as [l|d] eqn:Hc.
  - destruct (logger x) as [lg|] eqn:Hl; cbn;
      repeat split; try discriminate; try congruence; auto.
  - destruct d as [|[name cam] rest].
    + cbn. repeat split; try congruence; auto.
    + cbn [for_cameras]. unfold expose_one.
      destruct (cam_take_exposure cam (exptime x)) as [e|img_file].
      * destruct (logger x) as [lg|] eqn:Hl; cbn; rewrite ?Hl; cbn;
          repeat split; try discriminate; try congruence; auto.
      * change (logger (set__is_exposing true x)) with (logger x).
        destruct (logger x) as [lg|] eqn:Hl; cbn; rewrite ?Hl; cbn;
          repeat split; try discriminate; try congruence; auto;
          right; exists name, cam, rest; now split.
Qed.

End Files.

Lemma observation_is_built_from_its_config_witness :
  let studio := [("Cam00", {| cam_name := "Cam00"; uid := "83F011"; is_primary := true |});
                 ("Cam01", {| cam_name := "Cam01"; uid := "83F012"; is_primary := false |})] in
  let config := {| cfg_primary_exptime := Some 300; cfg_primary_filter := None;
                   cfg_primary_nexp := Some 3; cfg_primary_analyze := None;
                   cfg_secondary_exptime := None; cfg_secondary_nexp := None;
                   cfg_secondary_filter := None |} in
  exists o,
    __init__ config (Some studio) = inr o /\
    List.length (primary o) = 3%nat /\ List.length (secondary o) = 3%nat /\
    map exptime (secondary o) = [seconds 120; seconds 120; seconds 120].
Proof.
  cbv zeta.
  match goal with
  | |- exists o, ?i = inr o /\ _ => destruct i as [e|o] eqn:H
  end; [vm_compute in H; discriminate|].
  exists o.
  destruct (observation_is_built_from_its_config _ _ o H) as (Hp & Hs & _).
  split; [reflexivity|]. split; [exact Hp|]. split; [exact Hs|].
  vm_compute in H. inversion H. reflexivity.
Defined.

Import ObservationScenario.

Lemma complete_means_a_missing_image_witness :
  fst (complete (fun f => (f =? "/images/Cam00.cr2")%string) finished) = false /\
  fst (complete (fun f => false) finished) = true.
Proof.
  destruct (complete_means_a_missing_image
              (fun f => (f =? "/images/Cam00.cr2")%string) finished)
    as (_ & _ & Hall & _).
  destruct (complete_means_a_missing_image (fun f => false) finished)
    as (Hiff & _).
  split.
  - apply Hall. intros f [<-|[]]. reflexivity.
  - apply Hiff. split; [reflexivity|].
    exists "/images/Cam00.cr2". split; [now left|reflexivity].
Defined.

Lemma observation_needs_cameras_witness :
  __init__ no_config None = inl (AttributeError "values") /\
  exists o, __init__ no_config (Some []) = inr o.
Proof.
  destruct (observation_needs_cameras no_config) as (_ & Hnone & Hsome).
  split; [now apply Hnone|apply Hsome].
Defined.

Lemma has_exposures_until_images_are_missing_witness :
  fst (has_exposures (fun f => true) session) = true /\
  fst (has_exposures (fun f => false) session) = true.
Proof.
  destruct (has_exposures_until_images_are_missing (fun f => true) session)
    as (_ & _ & H1 & _).
  destruct (has_exposures_until_images_are_missing (fun f => false) session)
    as (_ & _ & H2 & _).
  split.
  - now rewrite (H1 three_frames (Some [("Cam00", Cam00); ("Cam01", Cam01)]) eq_refl).
  - now rewrite (H2 three_frames (Some [("Cam00", Cam00); ("Cam01", Cam01)]) eq_refl).
Defined.

Lemma take_exposure_never_exposes_witness :
  fst (take_exposure session) =
    inl (ValueError "not enough values to unpack (expected 2, got 1)") /\
  _current_exposure (snd (take_exposure session)) = 1%nat /\
  fst (take_exposure (set__current_exposure 3 session)) =
    inl (IndexError "list index out of range").
Proof.
  destruct (take_exposure_never_exposes session) as (Hin & _).
  destruct (take_exposure_never_exposes (set__current_exposure 3 session))
    as (_ & Hout & _).
  rewrite Hin by (split; vm_compute; lia).
  rewrite Hout by (intros [H _]; vm_compute in H; lia).
  repeat split.
Defined.

Lemma expose_records_no_image_witness :
  fst (fst (expose ready_camera finished [])) = inl (AttributeError "logger") /\
  images (snd (fst (expose ready_camera finished []))) = ["/images/Cam00.cr2"] /\
  snd (expose ready_camera finished []) = [(Cam00, seconds 120)] /\
  _is_exposing (snd (fst (expose ready_camera finished []))) = true.
Proof.
  destruct (expose_records_no_image ready_camera finished [])
    as (Him & _ & Hnone & _).
  destruct (Hnone eq_refl) as (_ & Hraise & Hexp).
  split; [apply Hraise; discriminate|].
  split; [exact Him|]. split; [reflexivity|].
  apply Hexp. discriminate.
Defined.

End ObservationFacts.

(* ================================================================== *)
(** ** Properties of the array of imagers *)
(* ================================================================== *)

Module HdrFacts.
Import Hdr.
Import FocusLynxWireFacts.
Open Scope hdr_scope.

Lemma hdr_bind_inr {A B} (m : error + A) (k : A -> error + B) (b : B) :
  Hdr.bind m k = inr b -> exists a, m = inr a /\ k a = inr b.
Proof.
  destruct m as [e|a]; simpl; [discriminate|]. intros H. now exists a.
Qed.

Lemma key_inr {A} (k : string) (entry : option A) (v : A) :
  key k entry = inr v -> entry = Some v.
Proof.
  destruct entry; simpl; intros H; now inversion H.
Qed.

Lemma call_inr {A} (r : exn + A) (v : A) : call r = inr v -> r = inr v.
Proof.
  destruct r; simpl; intros H; now inversion H.
Qed.

Lemma call_bound {A} (r : exn + A) (n : string) :
  call r <> inl (UnboundLocalError n).
Proof.
  destruct r; simpl; discriminate.
Qed.

Section Create.

Variable snr : Snr.

(** *** One turn of the loop *)

Lemma the_optic_inr i s optic s1 :
  the_optic snr i s = inr (optic, s1) ->
  exists optic_name,
    i_optic i = Some optic_name /\
    cameras s1 = cameras s /\ filters s1 = filters s /\ psfs s1 = psfs s /\
    config s1 = config s /\ imagers_list s1 = imagers_list s /\
    match dict_get optic_name (optics s) with
    | Some o => optic = o /\ s1 = s
    | None =>
        new_optic snr (config s) optic_name = inr optic /\
        optics s1 = dict_set optic_name optic (optics s) /\
        camera_name s1 = i_camera i /\ i_camera i <> None
    end.
Proof.
  unfold the_optic. intros H.
  apply hdr_bind_inr in H. destruct H as (name & _ & H).
  apply hdr_bind_inr in H. destruct H as (on & Hon & H).
  apply key_inr in Hon. exists on. split; [exact Hon|].
  destruct (dict_get on (optics s)) as [o|] eqn:Hc.
  - inversion H; subst. now repeat split.
  - apply hdr_bind_inr in H. destruct H as (o & Ho & H).
    apply hdr_bind_inr in H. destruct H as (cn & Hcn & H).
    apply key_inr in Hcn. inversion H; subst. simpl.
    rewrite Hcn. repeat split; try assumption; discriminate.
Qed.

Lemma the_camera_inr s camera s1 :
  the_camera snr s = inr (camera, s1) ->
  exists cn,
    camera_name s = Some cn /\ camera_name s1 = Some cn /\
    optics s1 = optics s /\ filters s1 = filters s /\ psfs s1 = psfs s /\
    imagers_list s1 = imagers_list s /\
    match dict_get cn (cameras s) with
    | Some c => camera = c /\ s1 = s
    | None =>
        new_camera snr (config s) cn = inr (camera, config s1) /\
        cameras s1 = dict_set cn camera (cameras s)
    end.
Proof.
  unfold the_camera. intros H.
  destruct (camera_name s) as [cn|] eqn:Hn; [|discriminate].
  exists cn. split; [reflexivity|].
  destruct (dict_get cn (cameras s)) as [c|] eqn:Hc.
  - inversion H; subst. now repeat split.
  - apply hdr_bind_inr in H. destruct H as ([c cfg] & Hnew & H).
    inversion H; subst. simpl. now repeat split.
Qed.

Lemma the_filter_inr i s filter s1 :
  the_filter snr i s = inr (filter, s1) ->
  exists filter_name,
    i_filter i = Some filter_name /\
    optics s1 = optics s /\ cameras s1 = cameras s /\ psfs s1 = psfs s /\
    config s1 = config s /\ imagers_list s1 = imagers_list s /\
    camera_name s1 = camera_name s /\
    match dict_get filter_name (filters s) with
    | Some f => filter = f /\ filters s1 = filters s
    | None =>
        new_filter snr (config s) filter_name = inr filter /\
        filters s1 = dict_set filter_name filter (filters s)
    end.
Proof.
  unfold the_filter. intros H.
  apply hdr_bind_inr in H. destruct H as (fn & Hfn & H).
  apply key_inr in Hfn. exists fn. split; [exact Hfn|].
  destruct (dict_get fn (filters s)) as [f|] eqn:Hc.
  - inversion H; subst. now repeat split.
  - apply hdr_bind_inr in H. destruct H as (f & Hf & H).
    inversion H; subst. simpl. now repeat split.
Qed.

Lemma the_psf_inr i s psf s1 :
  the_psf snr i s = inr (psf, s1) ->
  exists psf_name,
    i_psf i = Some psf_name /\
    optics s1 = optics s /\ cameras s1 = cameras s /\
    filters s1 = filters s /\
    config s1 = config s /\ imagers_list s1 = imagers_list s /\
    camera_name s1 = camera_name s /\
    match dict_get psf_name (psfs s) with
    | Some p => psf = p /\ psfs s1 = psfs s
    | None =>
        new_psf snr (config s) psf_name = inr psf /\
        psfs s1 = dict_set psf_name psf (psfs s)
    end.
Proof.
  unfold the_psf. intros H.
  apply hdr_bind_inr in H. destruct H as (pn & Hpn & H).
  apply key_inr in Hpn. exists pn. split; [exact Hpn|].
  destruct (dict_get pn (psfs s)) as [p|] eqn:Hc.
  - inversion H; subst. now repeat split.
  - apply hdr_bind_inr in H. destruct H as (p & Hp & H).
    inversion H; subst. simpl. now repeat split.
Qed.

Lemma for_imager_inr i s s' :
  for_imager snr i s = inr s' ->
  exists optic_name cn filter_name psf_name a imager,
    i_optic i = Some optic_name /\ i_filter i = Some filter_name /\
    i_psf i = Some psf_name /\ camera_name s' = Some cn /\
    match dict_get optic_name (optics s) with
    | Some o =>
        p_optic a = o /\ optics s' = optics s /\ camera_name s = Some cn
    | None =>
        new_optic snr (config s) optic_name = inr (p_optic a) /\
        optics s' = dict_set optic_name (p_optic a) (optics s) /\
        i_camera i = Some cn
    end /\
    match dict_get cn (cameras s) with
    | Some c =>
        p_camera a = c /\ cameras s' = cameras s /\ config s' = config s
    | None =>
        new_camera snr (config s) cn = inr (p_camera a, config s') /\
        cameras s' = dict_set cn (p_camera a) (cameras s)
    end /\
    match dict_get filter_name (filters s) with
    | Some f => p_filter a = f /\ filters s' = filters s
    | None =>
        new_filter snr (config s') filter_name = inr (p_filter a) /\
        filters s' = dict_set filter_name (p_filter a) (filters s)
    end /\
    match dict_get psf_name (psfs s) with
    | Some p => p_psf a = p /\ psfs s' = psfs s
    | None =>
        new_psf snr (config s') psf_name = inr (p_psf a) /\
        psfs s' = dict_set psf_name (p_psf a) (psfs s)
    end /\
    p_num_imagers a = get (i_num_imagers i) 1 /\
    p_num_computer a = get (i_num_computer i) 1 /\
    built snr a imager /\
    imagers_list s' = imagers_list s ++ [imager].
Proof.
  unfold for_imager. intros H.
  apply hdr_bind_inr in H. destruct H as ([optic s1] & H1 & H).
  apply hdr_bind_inr in H. destruct H as ([camera s2] & H2 & H).
  apply hdr_bind_inr in H. destruct H as ([filter s3] & H3 & H).
  apply hdr_bind_inr in H. destruct H as ([psf s4] & H4 & H).
  apply hdr_bind_inr in H. destruct H as (imager & H5 & H).
  apply call_inr in H5. inversion H; subst s'; clear H.
  apply the_optic_inr in H1.
  destruct H1 as (on & Hon & Hc1 & Hf1 & Hp1 & Hg1 & Hl1 & H1).
  apply the_camera_inr in H2.
  destruct H2 as (cn & Hn1 & Hn2 & Ho2 & Hf2 & Hp2 & Hl2 & H2).
  apply the_filter_inr in H3.
  destruct H3 as (fn & Hfn & Ho3 & Hc3 & Hp3 & Hg3 & Hl3 & Hn3 & H3).
  apply the_psf_inr in H4.
  destruct H4 as (pn & Hpn & Ho4 & Hc4 & Hf4 & Hg4 & Hl4 & Hn4 & H4).
  exists on, cn, fn, pn,
    {| p_optic := optic; p_camera := camera; p_filter := filter;
       p_num_imagers := get (i_num_imagers i) 1;
       p_num_computer := get (i_num_computer i) 1; p_psf := psf |}, imager.
  simpl.
  split; [exact Hon|]. split; [exact Hfn|]. split; [exact Hpn|].
  split; [congruence|].
  split.
  { rewrite Ho4, Ho3, Ho2.
    destruct (dict_get on (optics s)) as [o|].
    - destruct H1 as [-> ->]. now repeat split.
    - destruct H1 as (Hnew & Hset & Hname & _).
      repeat split; [exact Hnew|exact Hset|congruence]. }
  split.
  { rewrite Hc4, Hc3, Hg4, Hg3, <- Hc1.
    destruct (dict_get cn (cameras s1)) as [c|].
    - destruct H2 as [-> ->]. now repeat split.
    - destruct H2 as [Hnew Hset]. split; [congruence|exact Hset]. }
  split.
  { rewrite Hf4, Hg4, Hg3, <- Hf1, <- Hf2.
    destruct (dict_get fn (filters s2)) as [f|].
    - destruct H3 as [-> Hs]. now split.
    - exact H3. }
  split.
  { rewrite Hg4, <- Hp1, <- Hp2, <- Hp3.
    destruct (dict_get pn (psfs s3)) as [p|].
    - destruct H4 as [-> Hs]. now split.
    - exact H4. }
  split; [reflexivity|]. split; [reflexivity|].
  split; [exact H5|].
  now rewrite Hl4, Hl3, Hl2, Hl1.
Qed.

(** *** The caches hold what the configuration describes *)

Lemma new_optic_ext c c' n :
  c_optics c = c_optics c' -> new_optic snr c n = new_optic snr c' n.
Proof.
  unfold new_optic. now intros ->.
Qed.

Lemma new_filter_ext c c' n :
  c_filters c = c_filters c' -> new_filter snr c n = new_filter snr c' n.
Proof.
  unfold new_filter. now intros ->.
Qed.

Lemma new_psf_ext c c' n :
  c_psfs c = c_psfs c' -> new_psf snr c n = new_psf snr c' n.
Proof.
  unfold new_psf. now intros ->.
Qed.

Lemma resolved_again camera_info camera_info' :
  resolved camera_info = inr camera_info' ->
  resolved camera_info' = inr camera_info'.
Proof.
  unfold resolved, getitem.
  destruct (dict_get "resolution" camera_info) as [v|] eqn:Hv;
    [|discriminate].
  simpl. destruct v as [s|n|l].
  - destruct (ints (split "," s)) as [e|l] eqn:Hl; [discriminate|].
    simpl. intros H. inversion H; subst; clear H.
    rewrite dict_get_set, String.eqb_refl. reflexivity.
  - intros H. inversion H; subst. now rewrite Hv.
  - intros H. inversion H; subst. now rewrite Hv.
Qed.

Lemma camera_of_new c cn camera c' :
  new_camera snr c cn = inr (camera, c') -> camera_of snr c cn = inr camera.
Proof.
  unfold camera_of. now intros ->.
Qed.

Lemma new_camera_config c cn camera c' :
  new_camera snr c cn = inr (camera, c') ->
  c_optics c' = c_optics c /\ c_filters c' = c_filters c /\
  c_psfs c' = c_psfs c /\
  forall n, camera_of snr c' n = camera_of snr c n.
Proof.
  unfold new_camera. intros H.
  apply hdr_bind_inr in H. destruct H as (all & Hall & H).
  apply key_inr in Hall.
  apply hdr_bind_inr in H. destruct H as (camera_info & Hi & H).
  apply key_inr in Hi.
  apply hdr_bind_inr in H. destruct H as (camera_info' & Hr & H).
  apply hdr_bind_inr in H. destruct H as (x & Hx & H).
  inversion H; subst; clear H.
  split; [reflexivity|]. split; [reflexivity|]. split; [reflexivity|].
  intros n. unfold camera_of, new_camera. simpl. rewrite Hall. simpl.
  unfold getitem. rewrite dict_get_set.
  destruct (String.eqb_spec n cn) as [->|Hne].
  - rewrite Hi. simpl.
    rewrite (resolved_again _ _ Hr), Hr. simpl. rewrite Hx. reflexivity.
  - destruct (dict_get n all) as [v|]; [|reflexivity]. simpl.
    destruct (resolved v) as [e|v']; [reflexivity|]. simpl.
    destruct (call (snr_Camera snr v')); reflexivity.
Qed.

(** Every object in a cache is the one that the configuration [c], as
    the function received it, describes under that name. *)
Definition coherent (c : Config) (s : locals snr) : Prop :=
  c_optics (config s) = c_optics c /\
  c_filters (config s) = c_filters c /\
  c_psfs (config s) = c_psfs c /\
  (forall n, camera_of snr (config s) n = camera_of snr c n) /\
  (forall n o, dict_get n (optics s) = Some o -> new_optic snr c n = inr o) /\
  (forall n x, dict_get n (cameras s) = Some x -> camera_of snr c n = inr x) /\
  (forall n f, dict_get n (filters s) = Some f -> new_filter snr c n = inr f) /\
  (forall n p, dict_get n (psfs s) = Some p -> new_psf snr c n = inr p).

Lemma coherent_start c : coherent c (start snr c).
Proof.
  unfold coherent, start. simpl. repeat split; intros; discriminate.
Qed.

Lemma cache_step {V} (make : string -> error + V) (k : string) (v : V)
      (d d' : dict V) :
  (forall n x, dict_get n d = Some x -> make n = inr x) ->
  match dict_get k d with
  | Some x => v = x /\ d' = d
  | None => make k = inr v /\ d' = dict_set k v d
  end ->
  make k = inr v /\ dict_get k d' = Some v /\
  (forall n x, dict_get n d' = Some x -> make n = inr x) /\
  (forall n, dict_get n d' = None <-> dict_get n d = None /\ n <> k).
Proof.
  intros Hd H. destruct (dict_get k d) as [x|] eqn:Hk.
  - destruct H as [-> ->]. split; [now apply Hd|]. split; [exact Hk|].
    split; [exact Hd|]. intros n. split.
    + intros Hn. split; [exact Hn|]. intros ->. congruence.
    + now intros [Hn _].
  - destruct H as [Hm ->]. split; [exact Hm|].
    split; [now rewrite dict_get_set, String.eqb_refl|]. split.
    + intros n x. rewrite dict_get_set.
      destruct (String.eqb_spec n k) as [->|Hne].
      * intros Hx. inversion Hx; subst. exact Hm.
      * apply Hd.
    + intros n. rewrite dict_get_set.
      destruct (String.eqb_spec n k) as [->|Hne].
      * split; [discriminate|]. now intros [_ Hn].
      * split; [now intros Hn|now intros [Hn _]].
Qed.

(** One turn of the loop, in terms of the configuration the function
    received. *)
Lemma step_spec c i s s' :
  coherent c s ->
  for_imager snr i s = inr s' ->
  coherent c s' /\
  exists optic_name cn a imager,
    i_optic i = Some optic_name /\
    own_parts snr c i a /\ built snr a imager /\
    imagers_list s' = imagers_list s ++ [imager] /\
    camera_name s' = Some cn /\
    dict_get cn (cameras s') = Some (p_camera a) /\
    camera_of snr c cn = inr (p_camera a) /\
    (forall n, dict_get n (optics s') = None <->
               dict_get n (optics s) = None /\ n <> optic_name) /\
    (dict_get optic_name (optics s) = None -> i_camera i = Some cn) /\
    (dict_get optic_name (optics s) <> None -> camera_name s = Some cn) /\
    (forall x, dict_get cn (cameras s) = Some x -> p_camera a = x).
Proof.
  intros (Co & Cf & Cp & Cc & Io & Ic & If & Ip) H.
  apply for_imager_inr in H.
  destruct H as (on & cn & fn & pn & a & imager & Hon & Hfn & Hpn & Hcn
                 & Ho & Hc & Hf & Hp & Hn1 & Hn2 & Hb & Hl).
  assert (Hcfg : c_optics (config s') = c_optics c /\
                 c_filters (config s') = c_filters c /\
                 c_psfs (config s') = c_psfs c /\
                 forall n, camera_of snr (config s') n = camera_of snr c n).
  { destruct (dict_get cn (cameras s)) as [x|].
    - destruct Hc as (_ & _ & ->). now repeat split.
    - destruct Hc as [Hnew _].
      destruct (new_camera_config _ _ _ _ Hnew) as (E1 & E2 & E3 & E4).
      split; [congruence|]. split; [congruence|]. split; [congruence|].
      intros n. now rewrite E4. }
  destruct Hcfg as (Co' & Cf' & Cp' & Cc').
  destruct (cache_step (new_optic snr c) on (p_optic a) (optics s) (optics s') Io)
    as (Ho1 & Ho2 & Ho3 & Ho4).
  { destruct (dict_get on (optics s)) as [o|].
    - destruct Ho as (E1 & E2 & _). now split.
    - destruct Ho as (E1 & E2 & _). split; [|exact E2].
      now rewrite <- (new_optic_ext (config s) c on Co). }
  destruct (cache_step (camera_of snr c) cn (p_camera a) (cameras s) (cameras s') Ic)
    as (Hc1 & Hc2 & Hc3 & Hc4).
  { destruct (dict_get cn (cameras s)) as [x|].
    - destruct Hc as (E1 & E2 & _). now split.
    - destruct Hc as (E1 & E2). split; [|exact E2].
      rewrite <- Cc. exact (camera_of_new _ _ _ _ E1). }
  destruct (cache_step (new_filter snr c) fn (p_filter a) (filters s) (filters s') If)
    as (Hf1 & Hf2 & Hf3 & Hf4).
  { destruct (dict_get fn (filters s)) as [x|]; [exact Hf|].
    destruct Hf as (E1 & E2). split; [|exact E2].
    now rewrite <- (new_filter_ext (config s') c fn Cf'). }
  destruct (cache_step (new_psf snr c) pn (p_psf a) (psfs s) (psfs s') Ip)
    as (Hp1 & Hp2 & Hp3 & Hp4).
  { destruct (dict_get pn (psfs s)) as [x|]; [exact Hp|].
    destruct Hp as (E1 & E2). split; [|exact E2].
    now rewrite <- (new_psf_ext (config s') c pn Cp'). }
  split.
  { unfold coherent. repeat split; assumption. }
  exists on, cn, a, imager.
  split; [exact Hon|].
  split.
  { unfold own_parts. split; [now exists on|]. split; [now exists fn|].
    split; [now exists pn|]. now split. }
  split; [exact Hb|]. split; [exact Hl|]. split; [exact Hcn|].
  split; [exact Hc2|]. split; [exact Hc1|]. split; [exact Ho4|].
  split.
  { destruct (dict_get on (optics s)) as [o|]; [discriminate|].
    intros _. now destruct Ho as (_ & _ & E). }
  split.
  { destruct (dict_get on (optics s)) as [o|]; [|congruence].
    intros _. now destruct Ho as (_ & _ & E). }
  intros x Hx. rewrite Hx in Hc. now destruct Hc as (E & _).
Qed.

(** *** The whole loop *)

Lemma assembled_nil c : assembled snr c [] [].
Proof.
  split; [reflexivity|]. intros earlier i later H.
  now destruct earlier.
Qed.

Lemma assembled_snoc c pre args i a :
  assembled snr c pre args ->
  own_parts snr c i a ->
  (~ reuses_optic pre i ->
   exists cn, i_camera i = Some cn /\ camera_of snr c cn = inr (p_camera a)) ->
  (reuses_optic pre i ->
   exists before' b, args = before' ++ [b] /\ p_camera a = p_camera b) ->
  assembled snr c (pre ++ [i]) (args ++ [a]).
Proof.
  intros [Hlen Hd] Hown Hfresh Hre. split.
  - rewrite !length_app. simpl. lia.
  - intros earlier x later. destruct later as [|y later _] using rev_ind.
    + intros Heq. apply app_inj_tail in Heq. destruct Heq as [<- <-].
      exists args, a, [].
      split; [reflexivity|]. split; [exact Hlen|]. split; [exact Hown|].
      split; assumption.
    + intros Heq.
      change (earlier ++ x :: later ++ [y])
        with (earlier ++ (x :: later) ++ [y]) in Heq.
      rewrite app_assoc in Heq.
      apply app_inj_tail in Heq. destruct Heq as [Heq _].
      destruct (Hd earlier x later Heq)
        as (before & a0 & after & Ha & Hl & Ho & Hf & Hr).
      exists before, a0, (after ++ [a]). subst args.
      rewrite <- app_assoc.
      split; [reflexivity|]. split; [exact Hl|]. split; [exact Ho|].
      split; assumption.
Qed.

Lemma for_imagers_spec c l2 :
  forall pre args s s',
    coherent c s ->
    (forall n, dict_get n (optics s) = None <->
               ~ In (Some n) (map i_optic pre)) ->
    Forall2 (built snr) args (imagers_list s) ->
    assembled snr c pre args ->
    (pre = [] \/
     exists cn before b,
       camera_name s = Some cn /\ args = before ++ [b] /\
       dict_get cn (cameras s) = Some (p_camera b)) ->
    for_imagers snr l2 s = inr s' ->
    exists args',
      Forall2 (built snr) args' (imagers_list s') /\
      assembled snr c (pre ++ l2) args'.
Proof.
  induction l2 as [|i l2 IH]; intros pre args s s' Hco Hkeys Hb Has Hlink H.
  - simpl in H. inversion H; subst. exists args. now rewrite app_nil_r.
  - simpl in H. apply hdr_bind_inr in H. destruct H as (s1 & Hstep & H).
    destruct (step_spec c i s s1 Hco Hstep)
      as (Hco1 & on & cn & a & imager & Hon & Hown & Hbuilt & Hl & Hcn
          & Hcam & Hof & Hk1 & Hmiss & Hhit & Hsame).
    assert (Hin : reuses_optic pre i <-> dict_get on (optics s) <> None).
    { unfold reuses_optic. rewrite Hon. split.
      - intros Hi Hn. now apply Hkeys in Hn.
      - intros Hn.
        assert (dec : forall x y : option string, {x = y} + {x <> y})
          by (decide equality; apply string_dec).
        destruct (in_dec dec (Some on) (map i_optic pre)) as [Hi|Hi];
          [exact Hi|]. now apply Hkeys in Hi. }
    destruct (IH (pre ++ [i]) (args ++ [a]) s1 s') as (args' & Hb' & Has').
    + exact Hco1.
    + intros n. rewrite Hk1, Hkeys, map_app, in_app_iff. simpl.
      rewrite Hon. split.
      * intros [Hn Hne] [Hi|[Hi|[]]]; [tauto|]. inversion Hi. congruence.
      * intros Hn. split; [tauto|]. intros ->. tauto.
    + rewrite Hl. apply Forall2_app; [exact Hb|]. now constructor.
    + apply assembled_snoc; [exact Has|exact Hown| |].
      * intros Hfresh. exists cn. split; [|exact Hof]. apply Hmiss.
        destruct (dict_get on (optics s)) as [o|] eqn:Ho; [|reflexivity].
        exfalso. apply Hfresh, Hin. discriminate.
      * intros Hre. pose proof (proj1 Hin Hre) as Hc.
        destruct Hlink as [->|(cn0 & before & b & Hn0 & Ha & Hc0)].
        { destruct Hre. }
        exists before, b. split; [exact Ha|].
        apply Hsame. rewrite (Hhit Hc) in Hn0. inversion Hn0; subst.
        exact Hc0.
    + right. exists cn, args, a. now repeat split.
    + exact H.
    + exists args'. split; [exact Hb'|].
      now rewrite <- app_assoc in Has'.
Qed.

(** X23.  Which objects each imager is built from.  When
    [create_imager_array] returns, the configuration has a list of
    imagers and [snr.Imager] was called once for each of them, in their
    order, the results going to [snr.ImagerArray].  The optic, the
    filter and the point spread function of a call are the objects that
    the configuration describes under the names the imager gives, and
    the two numbers are [num_imagers] and [num_computer], one where the
    entry is missing.  The camera is the one the imager names only when
    no earlier imager has named the same optic: an imager that reuses
    an optic is built with the camera of the imager just before it in
    the list. *)
Theorem reused_optic_takes_the_previous_camera
        (c : Config) (imager_array : ImagerArray snr) :
  create_imager_array snr c = inr imager_array ->
  exists l args imagers,
    c_imagers c = Some l /\
    assembled snr c l args /\
    Forall2 (built snr) args imagers /\
    snr_ImagerArray snr imagers = inr imager_array.
Proof.
  unfold create_imager_array. intros H.
  apply hdr_bind_inr in H. destruct H as (l & Hl & H). apply key_inr in Hl.
  apply hdr_bind_inr in H. destruct H as (s & Hs & H). apply call_inr in H.
  destruct (for_imagers_spec c l [] [] (start snr c) s) as (args & Hb & Ha).
  - apply coherent_start.
  - intros n. simpl. tauto.
  - constructor.
  - apply assembled_nil.
  - now left.
  - exact Hs.
  - exists l, args, (imagers_list s).
    split; [exact Hl|]. split; [exact Ha|]. split; [exact Hb|exact H].
Qed.

(** *** What can be raised *)

(** A computation that raises only what the built-ins and the
    constructors raise. *)
Definition builtin_only {A} (m : error + A) : Prop :=
  forall e, m = inl e -> exists x, e = Builtin x.

Lemma builtin_only_inr {A} (a : A) : builtin_only (inr a).
Proof.
  intros e H. discriminate.
Qed.

Lemma builtin_only_key {A} (k : string) (entry : option A) :
  builtin_only (key k entry).
Proof.
  intros e. destruct entry; simpl; intros H; inversion H. now eexists.
Qed.

Lemma builtin_only_call {A} (r : exn + A) : builtin_only (call r).
Proof.
  intros e. destruct r; simpl; intros H; inversion H. now eexists.
Qed.

Lemma builtin_only_bind {A B} (m : error + A) (k : A -> error + B) :
  builtin_only m ->
  (forall a, m = inr a -> builtin_only (k a)) ->
  builtin_only (Hdr.bind m k).
Proof.
  intros Hm Hk e. destruct m as [e'|a]; simpl.
  - intros H. inversion H; subst. now apply Hm.
  - now apply Hk.
Qed.

Lemma builtin_only_ints l : builtin_only (ints l).
Proof.
  induction l as [|a l IH]; simpl.
  - apply builtin_only_inr.
  - destruct (int a) as [n|x|].
    + apply builtin_only_bind; [exact IH|].
      intros t _. apply builtin_only_inr.
    + intros e H. inversion H. now eexists.
    + intros e H. inversion H. now eexists.
Qed.

Lemma builtin_only_resolved camera_info : builtin_only (resolved camera_info).
Proof.
  unfold resolved, getitem. apply builtin_only_bind.
  - apply builtin_only_key.
  - intros [s|n|l] _; try apply builtin_only_inr.
    apply builtin_only_bind; [apply builtin_only_ints|].
    intros t _. apply builtin_only_inr.
Qed.

Lemma builtin_only_new_optic c n : builtin_only (new_optic snr c n).
Proof.
  unfold new_optic, getitem.
  apply builtin_only_bind; [apply builtin_only_key|]. intros all _.
  apply builtin_only_bind; [apply builtin_only_key|]. intros optic_info _.
  apply builtin_only_call.
Qed.

Lemma builtin_only_new_filter c n : builtin_only (new_filter snr c n).
Proof.
  unfold new_filter, getitem.
  apply builtin_only_bind; [apply builtin_only_key|]. intros all _.
  apply builtin_only_bind; [apply builtin_only_key|]. intros filter_info _.
  apply builtin_only_call.
Qed.

Lemma builtin_only_new_psf c n : builtin_only (new_psf snr c n).
Proof.
  unfold new_psf, getitem.
  apply builtin_only_bind; [apply builtin_only_key|]. intros all _.
  apply builtin_only_bind; [apply builtin_only_key|]. intros psf_info _.
  apply builtin_only_call.
Qed.

Lemma builtin_only_new_camera c n : builtin_only (new_camera snr c n).
Proof.
  unfold new_camera, getitem.
  apply builtin_only_bind; [apply builtin_only_key|]. intros all _.
  apply builtin_only_bind; [apply builtin_only_key|]. intros camera_info _.
  apply builtin_only_bind; [apply builtin_only_resolved|].
  intros camera_info' _.
  apply builtin_only_bind; [apply builtin_only_call|].
  intros camera _. apply builtin_only_inr.
Qed.

Lemma builtin_only_the_optic i s : builtin_only (the_optic snr i s).
Proof.
  unfold the_optic.
  apply builtin_only_bind; [apply builtin_only_key|]. intros name _.
  apply builtin_only_bind; [apply builtin_only_key|]. intros optic_name _.
  destruct (dict_get optic_name (optics s)); [apply builtin_only_inr|].
  apply builtin_only_bind; [apply builtin_only_new_optic|]. intros optic _.
  apply builtin_only_bind; [apply builtin_only_key|]. intros cn _.
  apply builtin_only_inr.
Qed.

Lemma builtin_only_the_camera s :
  camera_name s <> None -> builtin_only (the_camera snr s).
Proof.
  unfold the_camera. intros H.
  destruct (camera_name s) as [cn|]; [|congruence].
  destruct (dict_get cn (cameras s)); [apply builtin_only_inr|].
  apply builtin_only_bind; [apply builtin_only_new_camera|].
  intros [camera c] _. apply builtin_only_inr.
Qed.

Lemma builtin_only_the_filter i s : builtin_only (the_filter snr i s).
Proof.
  unfold the_filter.
  apply builtin_only_bind; [apply builtin_only_key|]. intros filter_name _.
  destruct (dict_get filter_name (filters s)); [apply builtin_only_inr|].
  apply builtin_only_bind; [apply builtin_only_new_filter|]. intros f _.
  apply builtin_only_inr.
Qed.

Lemma builtin_only_the_psf i s : builtin_only (the_psf snr i s).
Proof.
  unfold the_psf.
  apply builtin_only_bind; [apply builtin_only_key|]. intros psf_name _.
  destruct (dict_get psf_name (psfs s)); [apply builtin_only_inr|].
  apply builtin_only_bind; [apply builtin_only_new_psf|]. intros p _.
  apply builtin_only_inr.
Qed.

(** Before a turn of the loop, [camera_name] is bound unless the cache
    of optics is still empty. *)
Lemma builtin_only_for_imager i s :
  optics s = [] \/ camera_name s <> None ->
  builtin_only (for_imager snr i s).
Proof.
  intros Hs. unfold for_imager.
  apply builtin_only_bind; [apply builtin_only_the_optic|].
  intros [optic s1] H1.
  apply builtin_only_bind.
  { apply builtin_only_the_camera.
    apply the_optic_inr in H1.
    destruct H1 as (on & _ & _ & _ & _ & _ & _ & H1).
    destruct (dict_get on (optics s)) as [o|] eqn:Ho.
    - destruct H1 as [_ ->]. destruct Hs as [Hs|Hs]; [|exact Hs].
      rewrite Hs in Ho. discriminate.
    - destruct H1 as (_ & _ & -> & H1). exact H1. }
  intros [camera s2] _.
  apply builtin_only_bind; [apply builtin_only_the_filter|].
  intros [filter s3] _.
  apply builtin_only_bind; [apply builtin_only_the_psf|].
  intros [psf s4] _.
  apply builtin_only_bind; [apply builtin_only_call|].
  intros imager _. apply builtin_only_inr.
Qed.

Lemma builtin_only_for_imagers l :
  forall s, optics s = [] \/ camera_name s <> None ->
            builtin_only (for_imagers snr l s).
Proof.
  induction l as [|i l IH]; intros s Hs; simpl.
  - apply builtin_only_inr.
  - apply builtin_only_bind; [now apply builtin_only_for_imager|].
    intros s1 H1. apply IH. right.
    apply for_imager_inr in H1.
    destruct H1 as (on & cn & fn & pn & a & imager & _ & _ & _ & Hcn & _).
    congruence.
Qed.

(** X24.  [camera_name] is never read before it is assigned.  The name
    is assigned only in the handler that runs when an optic is not yet
    in the cache, but the cache is empty on the first turn of the loop
    and the name stays bound afterwards: whatever the configuration,
    [create_imager_array] never raises [UnboundLocalError].  When it
    raises, the exception comes from a look-up, from [int] or from a
    constructor of [signal_to_noise]. *)
Theorem camera_name_is_never_unbound (c : Config) (e : error) :
  create_imager_array snr c = inl e ->
  exists x, e = Builtin x.
Proof.
  revert e. change (builtin_only (create_imager_array snr c)).
  unfold create_imager_array.
  apply builtin_only_bind; [apply builtin_only_key|]. intros l _.
  apply builtin_only_bind.
  - apply builtin_only_for_imagers. now left.
  - intros s _. apply builtin_only_call.
Qed.

(** *** The list of imagers is not read by the loop body *)

(** Two configurations with the same optics, cameras, filters and point
    spread functions. *)
Definition same_entries (c c' : Config) : Prop :=
  c_optics c = c_optics c' /\ c_cameras c = c_cameras c' /\
  c_filters c = c_filters c' /\ c_psfs c = c_psfs c'.

(** Two states of the loop that differ at most in the list of imagers of
    their configurations. *)
Definition alike (s t : locals snr) : Prop :=
  optics s = optics t /\ cameras s = cameras t /\ filters s = filters t /\
  psfs s = psfs t /\ imagers_list s = imagers_list t /\
  camera_name s = camera_name t /\ same_entries (config s) (config t).

Definition alike_results (r r' : error + locals snr) : Prop :=
  match r, r' with
  | inr s, inr t => alike s t
  | inl e, inl e' => e = e'
  | _, _ => False
  end.

Ltac alike_step :=
  match goal with
  | |- context [match ?x with _ => _ end] =>
      lazymatch x with
      | context [match _ with _ => _ end] => fail
      | _ => destruct x; simpl
      end
  end.

Lemma for_imager_alike i s t :
  alike s t -> alike_results (for_imager snr i s) (for_imager snr i t).
Proof.
  destruct s as [[li lo lc lf lp] os ks fs ps ls ns].
  destruct t as [[li' lo' lc' lf' lp'] os' ks' fs' ps' ls' ns'].
  unfold alike, same_entries. simpl.
  intros (E1 & E2 & E3 & E4 & E5 & E6 & E7 & E8 & E9 & E10). subst.
  unfold for_imager, the_optic, the_camera, the_filter, the_psf,
    new_optic, new_camera, new_filter, new_psf, getitem, key, call,
    Hdr.bind, set_optics, set_cameras, set_filters, set_psfs,
    set_camera_name, set_config, set_imagers_list, set_c_cameras.
  simpl.
  repeat alike_step; try reflexivity;
    unfold alike, same_entries; simpl; repeat split; reflexivity.
Qed.

Lemma for_imagers_alike l :
  forall s t,
    alike s t -> alike_results (for_imagers snr l s) (for_imagers snr l t).
Proof.
  induction l as [|i l IH]; intros s t H; simpl.
  - exact H.
  - pose proof (for_imager_alike i s t H) as Hi.
    destruct (for_imager snr i s) as [e|s1], (for_imager snr i t) as [e'|t1];
      simpl in *; try contradiction.
    + exact Hi.
    + now apply IH.
Qed.

Lemma for_imagers_app l1 l2 s :
  for_imagers snr (l1 ++ l2) s =
    Hdr.bind (for_imagers snr l1 s) (for_imagers snr l2).
Proof.
  revert s. induction l1 as [|i l1 IH]; intros s; simpl.
  - reflexivity.
  - destruct (for_imager snr i s) as [e|s1]; simpl; [reflexivity|apply IH].
Qed.

(** The optics in the cache after a part of the list. *)
Lemma optics_after l :
  forall s s',
    for_imagers snr l s = inr s' ->
    forall n, In (Some n) (map i_optic l) -> dict_get n (optics s') <> None.
Proof.
  assert (Hkeep : forall l s s',
             for_imagers snr l s = inr s' ->
             forall n, dict_get n (optics s) <> None ->
                       dict_get n (optics s') <> None).
  { induction l0 as [|i l0 IH]; intros s s' H n Hn; simpl in H.
    - inversion H; subst. exact Hn.
    - apply hdr_bind_inr in H. destruct H as (s1 & H1 & H).
      apply (IH s1 s' H). apply for_imager_inr in H1.
      destruct H1 as (on & cn & fn & pn & a & imager & _ & _ & _ & _
                      & Ho & _).
      destruct (dict_get on (optics s)) as [o|].
      + destruct Ho as (_ & -> & _). exact Hn.
      + destruct Ho as (_ & -> & _). rewrite dict_get_set.
        now destruct (n =? on)%string. }
  induction l as [|i l IH]; intros s s' H n Hn; simpl in *.
  - destruct Hn.
  - apply hdr_bind_inr in H. destruct H as (s1 & H1 & H).
    destruct Hn as [Hn|Hn]; [|now apply (IH s1 s' H)].
    apply (Hkeep l s1 s' H). apply for_imager_inr in H1.
    destruct H1 as (on & cn & fn & pn & a & imager & Hon & _ & _ & _
                    & Ho & _).
    assert (n = on) by congruence. subst n.
    destruct (dict_get on (optics s)) as [o|] eqn:Hc.
    + destruct Ho as (_ & -> & _). congruence.
    + destruct Ho as (_ & -> & _).
      now rewrite dict_get_set, String.eqb_refl.
Qed.

(** With the optic in the cache, the entry ['camera'] is not read. *)
Lemma for_imager_cached v i s :
  (forall n, i_optic i = Some n -> dict_get n (optics s) <> None) ->
  for_imager snr (set_i_camera v i) s = for_imager snr i s.
Proof.
  intros H. unfold for_imager, the_optic. simpl.
  destruct (i_name i) as [name|]; [|reflexivity]. simpl.
  destruct (i_optic i) as [n|]; [|reflexivity]. simpl.
  specialize (H n eq_refl).
  destruct (dict_get n (optics s)); [reflexivity|congruence].
Qed.

(** X25.  An imager that reuses an optic has its ['camera'] entry
    ignored.  When the optic an imager names has been named by an
    earlier imager of the list, [create_imager_array] never reads the
    ['camera'] entry of that imager: with any other name there, or with
    the entry missing, the function returns the same array or raises
    the same exception. *)
Theorem reused_optic_ignores_the_camera_entry
        (c : Config) (pre post : list imager_info) (i : imager_info)
        (v : option string) :
  c_imagers c = Some (pre ++ i :: post) ->
  reuses_optic pre i ->
  create_imager_array snr (set_c_imagers (pre ++ set_i_camera v i :: post) c)
  = create_imager_array snr c.
Proof.
  intros Hc Hre. unfold create_imager_array. rewrite Hc. simpl.
  rewrite !for_imagers_app.
  assert (Hstart : alike (start snr (set_c_imagers
                                       (pre ++ set_i_camera v i :: post) c))
                         (start snr c)).
  { unfold alike, same_entries. simpl. now repeat split. }
  pose proof (for_imagers_alike pre _ _ Hstart) as Hpre.
  destruct (for_imagers snr pre (start snr c)) as [e|s] eqn:Hs;
    destruct (for_imagers snr pre (start snr (set_c_imagers _ c)))
      as [e'|s'];
    simpl in Hpre; try contradiction.
  - simpl. now subst.
  - simpl.
    assert (Hi : for_imager snr (set_i_camera v i) s = for_imager snr i s).
    { apply for_imager_cached. intros n Hn.
      apply (optics_after pre _ _ Hs). unfold reuses_optic in Hre.
      now rewrite Hn in Hre. }
    pose proof (for_imager_alike (set_i_camera v i) s' s Hpre) as Hstep.
    rewrite Hi in Hstep.
    destruct (for_imager snr i s) as [e|s1];
      destruct (for_imager snr (set_i_camera v i) s') as [e'|s1'];
      simpl in Hstep; try contradiction.
    + simpl. now subst.
    + simpl. pose proof (for_imagers_alike post s1' s1 Hstep) as Hpost.
      destruct (for_imagers snr post s1) as [e|s2];
        destruct (for_imagers snr post s1') as [e'|s2'];
        simpl in Hpost; try contradiction.
      * simpl. now subst.
      * simpl. destruct Hpost as (_ & _ & _ & _ & -> & _). reflexivity.
Qed.

End Create.

(** *** The three properties on a file with two imagers on one optic *)

Import HdrScenario.

Lemma reused_optic_ignores_the_camera_entry_witness :
  c_imagers performance = Some ([canon_sbig_g] ++ canon_zwo_r :: []) /\
  reuses_optic [canon_sbig_g] canon_zwo_r /\
  create_imager_array recording
    (set_c_imagers ([canon_sbig_g] ++ set_i_camera None canon_zwo_r :: [])
                   performance)
  = create_imager_array recording performance.
Proof.
  assert (H1 : c_imagers performance
               = Some ([canon_sbig_g] ++ canon_zwo_r :: []))
    by reflexivity.
  assert (H2 : reuses_optic [canon_sbig_g] canon_zwo_r)
    by (left; reflexivity).
  split; [exact H1|]. split; [exact H2|].
  exact (reused_optic_ignores_the_camera_entry
           recording performance [canon_sbig_g] [] canon_zwo_r None H1 H2).
Defined.

Lemma reused_optic_takes_the_previous_camera_witness :
  create_imager_array recording performance = inr both_sbig /\
  exists l args imagers,
    c_imagers performance = Some l /\
    assembled recording performance l args /\
    Forall2 (built recording) args imagers /\
    snr_ImagerArray recording imagers = inr both_sbig.
Proof.
  assert (H : create_imager_array recording performance = inr both_sbig)
    by (vm_compute; reflexivity).
  split; [exact H|].
  exact (reused_optic_takes_the_previous_camera
           recording performance both_sbig H).
Defined.

Lemma camera_name_is_never_unbound_witness :
  create_imager_array recording no_optics
  = inl (Builtin (KeyError "canon")) /\
  exists x, Builtin (KeyError "canon") = Builtin x.
Proof.
  assert (H : create_imager_array recording no_optics
              = inl (Builtin (KeyError "canon")))
    by (vm_compute; reflexivity).
  split; [exact H|].
  exact (camera_name_is_never_unbound recording no_optics _ H).
Defined.

End HdrFacts.

(* ================================================================== *)
(** ** Properties of the array of imagers built on import *)
(* ================================================================== *)

Module HDRModuleFacts.
Import Hdr HdrFacts HDR_module.
Import FocusLynxWireFacts.
Open Scope hdr_scope.

Section Create.

Variable snr : Snr.

Lemma cached_inr {V} (cache cache' : dict V) (name : string)
      (handler : error + V) (x : V) :
  cached cache name handler = inr (x, cache') ->
  match dict_get name cache with
  | Some y => x = y /\ cache' = cache
  | None => handler = inr x /\ cache' = dict_set name x cache
  end.
Proof.
  unfold cached. destruct (dict_get name cache) as [y|].
  - intros H. inversion H; subst. now split.
  - intros H. apply hdr_bind_inr in H. destruct H as (v & Hv & H).
    inversion H; subst. now split.
Qed.

Lemma module_camera_inr cn s camera cams c' :
  HDR_module.the_camera snr cn s = inr (camera, cams, c') ->
  match dict_get cn (cameras s) with
  | Some y => camera = y /\ cams = cameras s /\ c' = config s
  | None =>
      new_camera snr (config s) cn = inr (camera, c') /\
      cams = dict_set cn camera (cameras s)
  end.
Proof.
  unfold HDR_module.the_camera. destruct (dict_get cn (cameras s)) as [y|].
  - intros H. inversion H; subst. now repeat split.
  - intros H. apply hdr_bind_inr in H. destruct H as ([v c0] & Hv & H).
    inversion H; subst. now split.
Qed.

(** Every object in a cache is the one that the configuration [c], as
    the module loaded it, describes under that name. *)
Definition consistent (c : Config) (s : HDR_module.locals snr) : Prop :=
  c_optics (config s) = c_optics c /\
  c_filters (config s) = c_filters c /\
  c_psfs (config s) = c_psfs c /\
  (forall n, camera_of snr (config s) n = camera_of snr c n) /\
  (forall n o, dict_get n (optics s) = Some o -> new_optic snr c n = inr o) /\
  (forall n x, dict_get n (cameras s) = Some x -> camera_of snr c n = inr x) /\
  (forall n f, dict_get n (filters s) = Some f -> new_filter snr c n = inr f) /\
  (forall n p, dict_get n (psfs s) = Some p -> new_psf snr c n = inr p).

Lemma consistent_start c : consistent c (HDR_module.start snr c).
Proof.
  unfold consistent, HDR_module.start. simpl.
  repeat split; intros; discriminate.
Qed.

Lemma module_step c i s s' :
  consistent c s ->
  HDR_module.for_imager snr i s = inr s' ->
  consistent c s' /\
  exists a imager,
    described snr c i a /\ built snr a imager /\
    imagers_list s' = imagers_list s ++ [imager].
Proof.
  intros (Co & Cf & Cp & Cc & Io & Ic & If & Ip) H.
  unfold HDR_module.for_imager in H.
  apply hdr_bind_inr in H. destruct H as (name & _ & H).
  apply hdr_bind_inr in H. destruct H as (on & Hon & H). apply key_inr in Hon.
  apply hdr_bind_inr in H. destruct H as ([optic os] & Ho & H).
  apply hdr_bind_inr in H. destruct H as (cn & Hcn & H). apply key_inr in Hcn.
  apply hdr_bind_inr in H. destruct H as ([[camera ks] c1] & Hc & H).
  apply hdr_bind_inr in H. destruct H as (fn & Hfn & H). apply key_inr in Hfn.
  apply hdr_bind_inr in H. destruct H as ([filter fs] & Hf & H).
  apply hdr_bind_inr in H. destruct H as (pn & Hpn & H). apply key_inr in Hpn.
  apply hdr_bind_inr in H. destruct H as ([psf ps] & Hp & H).
  apply hdr_bind_inr in H. destruct H as (n1 & Hn1 & H). apply key_inr in Hn1.
  apply hdr_bind_inr in H. destruct H as (n2 & Hn2 & H). apply key_inr in Hn2.
  apply hdr_bind_inr in H. destruct H as (imager & Hi & H).
  apply call_inr in Hi.
  apply hdr_bind_inr in H. destruct H as (imager' & Hi' & H).
  unfold getitem in Hi'. rewrite dict_get_set, String.eqb_refl in Hi'.
  simpl in Hi'. inversion Hi'; subst imager'; clear Hi'.
  inversion H; subst s'; clear H. simpl.
  apply cached_inr in Ho. apply module_camera_inr in Hc.
  apply cached_inr in Hf. apply cached_inr in Hp.
  assert (Hcfg : c_optics c1 = c_optics c /\ c_filters c1 = c_filters c /\
                 c_psfs c1 = c_psfs c /\
                 forall n, camera_of snr c1 n = camera_of snr c n).
  { destruct (dict_get cn (cameras s)) as [x|].
    - destruct Hc as (_ & _ & ->). now repeat split.
    - destruct Hc as [Hnew _].
      destruct (new_camera_config snr _ _ _ _ Hnew) as (E1 & E2 & E3 & E4).
      split; [congruence|]. split; [congruence|]. split; [congruence|].
      intros n. now rewrite E4. }
  destruct Hcfg as (Co' & Cf' & Cp' & Cc').
  destruct (cache_step (new_optic snr c) on optic (optics s) os Io)
    as (Ho1 & _ & Ho3 & _).
  { destruct (dict_get on (optics s)) as [o|]; [exact Ho|].
    destruct Ho as [E1 E2]. split; [|exact E2].
    now rewrite <- (new_optic_ext snr (config s) c on Co). }
  destruct (cache_step (camera_of snr c) cn camera (cameras s) ks Ic)
    as (Hc1 & _ & Hc3 & _).
  { destruct (dict_get cn (cameras s)) as [x|].
    - destruct Hc as (E1 & E2 & _). now split.
    - destruct Hc as (E1 & E2). split; [|exact E2].
      rewrite <- Cc. exact (camera_of_new snr _ _ _ _ E1). }
  destruct (cache_step (new_filter snr c) fn filter (filters s) fs If)
    as (Hf1 & _ & Hf3 & _).
  { destruct (dict_get fn (filters s)) as [x|]; [exact Hf|].
    destruct Hf as (E1 & E2). split; [|exact E2].
    now rewrite <- (new_filter_ext snr c1 c fn Cf'). }
  destruct (cache_step (new_psf snr c) pn psf (psfs s) ps Ip)
    as (Hp1 & _ & Hp3 & _).
  { destruct (dict_get pn (psfs s)) as [x|]; [exact Hp|].
    destruct Hp as (E1 & E2). split; [|exact E2].
    now rewrite <- (new_psf_ext snr c1 c pn Cp'). }
  split.
  { unfold consistent. simpl.
    split; [exact Co'|]. split; [exact Cf'|]. split; [exact Cp'|].
    split; [exact Cc'|]. split; [exact Ho3|]. split; [exact Hc3|].
    split; [exact Hf3|exact Hp3]. }
  exists {| p_optic := optic; p_camera := camera; p_filter := filter;
            p_num_imagers := n1; p_num_computer := n2; p_psf := psf |},
    imager.
  split.
  { unfold described, own_parts. simpl. rewrite Hn1, Hn2. simpl.
    split.
    { split; [now exists on|]. split; [now exists fn|].
      split; [now exists pn|]. now split. }
    split; [now exists cn|]. now split. }
  split; [exact Hi|reflexivity].
Qed.

Lemma module_loop c l :
  forall s s' args0,
    consistent c s ->
    Forall2 (built snr) args0 (imagers_list s) ->
    HDR_module.for_imagers snr l s = inr s' ->
    consistent c s' /\
    exists args,
      Forall2 (described snr c) l args /\
      Forall2 (built snr) (args0 ++ args) (imagers_list s').
Proof.
  induction l as [|i l IH]; intros s s' args0 Hco Hb H; simpl in H.
  - inversion H; subst. split; [exact Hco|]. exists [].
    split; [constructor|]. now rewrite app_nil_r.
  - apply hdr_bind_inr in H. destruct H as (s1 & Hstep & H).
    destruct (module_step c i s s1 Hco Hstep)
      as (Hco1 & a & imager & Hd & Hbuilt & Hl).
    destruct (IH s1 s' (args0 ++ [a]) Hco1) as (Hco' & args & Hds & Hbs).
    + rewrite Hl. apply Forall2_app; [exact Hb|]. now constructor.
    + exact H.
    + split; [exact Hco'|]. exists (a :: args).
      split; [now constructor|]. now rewrite <- app_assoc in Hbs.
Qed.

(** X26.  In [HDR_module.py] every imager is built from the objects it
    names.  When [create_imager_array] returns, [snr.Imager] was called
    once for each imager of the configuration, in their order, with the
    optic, the camera, the filter and the point spread function that
    the configuration describes under the names the imager gives, also
    when two imagers share an optic, and with the imager's own
    [num_imagers] and [num_computer], which must both be there.  The
    configuration that the call leaves behind describes the same
    cameras as the one it found. *)
Theorem module_imagers_are_built_from_their_own_names
        (c c' : Config) (imager_array : ImagerArray snr) :
  HDR_module.create_imager_array snr c = inr (imager_array, c') ->
  exists l args imagers,
    c_imagers c = Some l /\
    Forall2 (described snr c) l args /\
    Forall2 (built snr) args imagers /\
    snr_ImagerArray snr imagers = inr imager_array /\
    forall n, camera_of snr c' n = camera_of snr c n.
Proof.
  unfold HDR_module.create_imager_array. intros H.
  apply hdr_bind_inr in H. destruct H as (l & Hl & H). apply key_inr in Hl.
  apply hdr_bind_inr in H. destruct H as (s & Hs & H).
  apply hdr_bind_inr in H. destruct H as (arr & Harr & H).
  apply call_inr in Harr. inversion H; subst; clear H.
  destruct (module_loop c l (HDR_module.start snr c) s [])
    as (Hco & args & Hd & Hb).
  - apply consistent_start.
  - constructor.
  - exact Hs.
  - exists l, args, (imagers_list s).
    split; [exact Hl|]. split; [exact Hd|]. split; [exact Hb|].
    split; [exact Harr|]. now destruct Hco as (_ & _ & _ & Hc & _).
Qed.

End Create.

(** *** On the file with two imagers on one optic *)

Import HdrScenario.

Lemma module_imagers_are_built_from_their_own_names_witness :
  HDR_module.create_imager_array recording with_numbers
  = inr (sbig_and_zwo, resolved_file) /\
  exists l args imagers,
    c_imagers with_numbers = Some l /\
    Forall2 (described recording with_numbers) l args /\
    Forall2 (built recording) args imagers /\
    snr_ImagerArray recording imagers = inr sbig_and_zwo /\
    forall n, camera_of recording resolved_file n
              = camera_of recording with_numbers n.
Proof.
  assert (H : HDR_module.create_imager_array recording with_numbers
              = inr (sbig_and_zwo, resolved_file))
    by (vm_compute; reflexivity).
  split; [exact H|].
  exact (module_imagers_are_built_from_their_own_names
           recording with_numbers resolved_file sbig_and_zwo H).
Defined.

End HDRModuleFacts.
